(** * Ingestion core of crypto-repos: source reader, fetch client,
      batch upsert writer and rate limiter.

    A shallow embedding of
      - lib/github/parser.ts            (parseEcosystemFile),
      - lib/github/parser.ts, client part (retryWithBackoff, fetchRepository),
      - lib/github/repository-service.ts (RepositoryService),
      - lib/github/rate-limiter.ts       (RateLimiter),
    with the properties of the ingestion specification stated over it,
    and of
      - lib/github/parser.ts, client part (fetchRepositoryFromUrl,
        fetchRepositoryContributors),
      - lib/github/repository-service.ts (getRepository),
      - lib/github/language-service.ts   (the primary language),
      - scripts/import-repos.ts          (the loops of the two import modes),
    with further properties of the code. *)

From Stdlib Require Import ZArith List String Ascii Bool Lia.
From stdpp Require Import gmap strings list.

Local Open Scope Z_scope.

(* ===================================================================== *)
(** ** Ecosystem source reader: [parseEcosystemFile]                      *)
(* ===================================================================== *)

Module Parser.

(** A line is the sequence of its characters. The text is taken as ASCII:
    the white space of [trim] and of the regular expression's [\s] is then
    tab, line feed, vertical tab, form feed, carriage return and space. *)
Definition jstring := list ascii.

Definition lit (s : string) : jstring := list_ascii_of_string s.

Definition dquote : ascii := "034"%char.
Definition hash : ascii := "#"%char.

Definition is_space (c : ascii) : bool :=
  let n := nat_of_ascii c in
  ((9 <=? n)%nat && (n <=? 13)%nat) || (n =? 32)%nat.

Definition ascii_eqb (a b : ascii) : bool := bool_decide (a = b).

(** [String.prototype.trimStart], [trimEnd] and [trim]. *)
Fixpoint trimStart (s : jstring) : jstring :=
  match s with
  | [] => []
  | c :: s' => if is_space c then trimStart s' else s
  end.

Fixpoint trimEnd (s : jstring) : jstring :=
  match s with
  | [] => []
  | c :: s' =>
      match trimEnd s' with
      | [] => if is_space c then [] else [c]
      | t => c :: t
      end
  end.

Definition trim (s : jstring) : jstring := trimEnd (trimStart s).

(** [s.startsWith(p)]. *)
Fixpoint startsWith (p s : jstring) : bool :=
  match p, s with
  | [], _ => true
  | _ :: _, [] => false
  | a :: p', b :: s' => ascii_eqb a b && startsWith p' s'
  end.

(** [s.includes(sub)]. *)
Fixpoint includes (sub s : jstring) : bool :=
  startsWith sub s ||
  match s with
  | [] => false
  | _ :: s' => includes sub s'
  end.

(** The regular expression of the source, [url\s*=\s*Q([^Q]+)Q] with [Q] the
    double quote.  Each [\s*] is followed by a character that is not white
    space and [[^Q]+] by a quote, so the greedy runs below are the only way
    each of them can match. *)
Fixpoint skip_spaces (s : jstring) : jstring :=
  match s with
  | [] => []
  | c :: s' => if is_space c then skip_spaces s' else s
  end.

Fixpoint take_nonquote (s : jstring) : jstring * jstring :=
  match s with
  | [] => ([], [])
  | c :: s' =>
      if ascii_eqb c dquote then ([], s)
      else let '(v, r) := take_nonquote s' in (c :: v, r)
  end.

(** A match of the expression that starts at the head of [s]; the result is
    capture group 1. *)
Definition match_here (s : jstring) : option jstring :=
  if startsWith (lit "url") s then
    match skip_spaces (drop 3 s) with
    | c1 :: r1 =>
        if ascii_eqb c1 "="%char then
          match skip_spaces r1 with
          | c2 :: r2 =>
              if ascii_eqb c2 dquote then
                match take_nonquote r2 with
                | ((_ :: _) as v, c3 :: _) =>
                    if ascii_eqb c3 dquote then Some v else None
                | _ => None
                end
              else None
          | [] => None
          end
        else None
    | [] => None
    end
  else None.

(** [line.match(...)] with that expression: the leftmost match, its
    group 1. *)
Fixpoint match_url (s : jstring) : option jstring :=
  match match_here s with
  | Some v => Some v
  | None =>
      match s with
      | [] => None
      | _ :: s' => match_url s'
      end
  end.

(** The body of the [for await (const line of rl)] loop, on the [urls]
    accumulator. *)
Definition process_line (urls : list jstring) (line : jstring) : list jstring :=
  if startsWith [hash] (trim line) || bool_decide (trim line = []) then urls
  else if includes (lit "url =") line then
    match match_url line with
    | Some v => if includes (lit "github.com") v then urls ++ [v] else urls
    | None => urls
    end
  else urls.

(** The source is [None] when the file is missing or cannot be read (the
    stream raises inside the [try]), and the lines that [readline] yields
    otherwise. *)
Definition parseEcosystemFile (source : option (list jstring)) : list jstring :=
  match source with
  | None => []
  | Some lines => fold_left process_line lines []
  end.

(** *** The reading of the specification

    What the specification calls a line matching the url pattern, a comment
    line and a blank line, stated on the text itself rather than by the
    scanning functions above. *)

Definition all_space (s : jstring) : Prop := Forall (fun c => is_space c = true) s.

Definition quote_free (s : jstring) : Prop := Forall (fun c => c <> dquote) s.

(** [s] begins with the text url, optional white space, the equals sign,
    optional white space and the non-empty quoted value [v]. *)
Definition MatchAt (s v : jstring) : Prop :=
  exists ws1 ws2 post,
    s = lit "url" ++ ws1 ++ ["="%char] ++ ws2 ++ [dquote] ++ v ++ [dquote] ++ post
    /\ all_space ws1 /\ all_space ws2 /\ v <> [] /\ quote_free v.

(** [v] is the quoted value of the first place of [line] where the pattern
    occurs. *)
Definition FirstMatch (line v : jstring) : Prop :=
  exists pre rest,
    line = pre ++ rest /\ MatchAt rest v /\
    forall pre' rest' v',
      line = pre' ++ rest' -> (length pre' < length pre)%nat -> ~ MatchAt rest' v'.

Definition Includes (sub s : jstring) : Prop := exists pre post, s = pre ++ sub ++ post.

Definition Comment (line : jstring) : Prop :=
  exists ws rest, all_space ws /\ line = ws ++ hash :: rest.

Definition Blank (line : jstring) : Prop := all_space line.

(** The line contributes the value [v] to the result. *)
Definition Contributes (line v : jstring) : Prop :=
  ~ Comment line /\ ~ Blank line /\
  Includes (lit "url =") line /\ FirstMatch line v /\
  Includes (lit "github.com") v.

(** [Extracts lines urls]: [urls] holds, in the order of the lines, the value
    of each contributing line and nothing else. *)
Inductive Extracts : list jstring -> list jstring -> Prop :=
| Extracts_nil : Extracts [] []
| Extracts_take line v lines urls :
    Contributes line v -> Extracts lines urls -> Extracts (line :: lines) (v :: urls)
| Extracts_skip line lines urls :
    (forall v, ~ Contributes line v) -> Extracts lines urls -> Extracts (line :: lines) urls.

Definition url_line (v : string) : jstring :=
  lit "url = " ++ [dquote] ++ lit v ++ [dquote].

End Parser.

(* ===================================================================== *)
(** ** Records exchanged between the fetch client and the writer          *)
(* ===================================================================== *)

(** [GithubRepositoryStats] and [ExtendedRepositoryStats] of
    lib/repository.ts.  Optional fields are options; [owner] and [license]
    are flattened into the fields the code reads. *)
Record GithubRepositoryStats := {
  id : Z;
  name : string;
  full_name : string;
  description : option string;
  html_url : string;
  homepage : option string;
  language : option string;
  topics : option (list string);
  stargazers_count : Z;
  watchers_count : Z;
  forks_count : Z;
  contributors_count : option Z;
  fork : bool;
  owner_html_url : string;
  owner_login : string;
  created_at : string;
  updated_at : string;
  pushed_at : option string;
  license_name : option string;
  languages_url : string
}.

Record ExtendedRepositoryStats := {
  stats :> GithubRepositoryStats;
  ecosystem : string;
  category : string
}.

(* ===================================================================== *)
(** ** Fetch client: [retryWithBackoff] and [fetchRepository]             *)
(* ===================================================================== *)

Module Fetch.

Definition CACHE_TTL : Z := 24 * 60 * 60 * 1000.
Definition MAX_RETRIES : nat := 3.
Definition RETRY_DELAY : Z := 5000.

(** What can be thrown.  [RequestError] is the error of the HTTP client: it
    alone carries a [status]; the flag says whether the response message
    mentions the rate limit, and [retry_after] is that header. *)
Inductive Err :=
| RequestError (status : Z) (rate_limit_message : bool) (retry_after : option Z)
| GitHubError (message : string) (statusCode : Z)
| RateLimitError (message : string) (retryAfter : option Z)
| PlainError (message : string).

(** [error.status]. *)
Definition err_status (e : Err) : option Z :=
  match e with
  | RequestError s _ _ => Some s
  | _ => None
  end.

(** A response of [octokit.repos.get]: the data and the two rate-limit
    headers, each absent or parsed. *)
Record GetResponse := {
  data : GithubRepositoryStats;
  x_ratelimit_remaining : option Z;
  x_ratelimit_reset : option Z
}.

(** A response of [octokit.repos.listContributors] with [per_page: 1]: the
    number of entries, and the link header: absent, or present with the
    page number of its rel=last part when it has one. *)
Record ContributorsResponse := {
  data_length : Z;
  link_last_page : option (option Z)
}.

(** The world the client runs in.  The three scripts hold what the next
    calls to the API and to the rate limiter will answer, [cache_file] the
    cache entry of the resource (its mtime and parsed content); the rest is
    what the client does to the world. *)
Record World := {
  has_token : bool;
  now : Z;
  cache_file : option (Z * GithubRepositoryStats);
  get_script : list (Err + GetResponse);
  contributors_script : list (Err + ContributorsResponse);
  acquire_script : list (option Err);
  api_calls : nat;
  acquired : list string;
  slept : list Z;
  limits_reported : list (Z * Z);
  fetchCount : nat
}.

(** Computations that read and change the world and may throw. *)
Definition M (A : Type) : Type := World -> (Err + A) * World.

Definition ret {A} (a : A) : M A := fun w => (inr a, w).

Definition throw {A} (e : Err) : M A := fun w => (inl e, w).

Definition bind {A B} (m : M A) (k : A -> M B) : M B :=
  fun w =>
    match m w with
    | (inl e, w') => (inl e, w')
    | (inr a, w') => k a w'
    end.

(** [try { m } catch (error) { handler(error) }]. *)
Definition try_catch {A} (m : M A) (handler : Err -> M A) : M A :=
  fun w =>
    match m w with
    | (inl e, w') => handler e w'
    | (inr a, w') => (inr a, w')
    end.

Notation "x <- m ;; k" := (bind m (fun x => k))
  (at level 100, m at next level, right associativity).
Notation "m ;;; k" := (bind m (fun _ => k))
  (at level 100, right associativity).

Definition get_world : M World := fun w => (inr w, w).

(** [await new Promise((resolve) => setTimeout(resolve, ms))]. *)
Definition sleep (ms : Z) : M unit :=
  fun w =>
    (inr tt,
     {| has_token := has_token w; now := now w + ms; cache_file := cache_file w;
        get_script := get_script w; contributors_script := contributors_script w;
        acquire_script := acquire_script w; api_calls := api_calls w;
        acquired := acquired w; slept := slept w ++ [ms];
        limits_reported := limits_reported w; fetchCount := fetchCount w |}).

(** [rateLimiter.acquire(key)]: admitted, or rejected with the scripted
    error; with no script left the request is admitted. *)
Definition acquire (key : string) : M unit :=
  fun w =>
    let w' :=
      {| has_token := has_token w; now := now w; cache_file := cache_file w;
         get_script := get_script w; contributors_script := contributors_script w;
         acquire_script := tail (acquire_script w); api_calls := api_calls w;
         acquired := acquired w ++ [key]; slept := slept w;
         limits_reported := limits_reported w; fetchCount := fetchCount w |} in
    match acquire_script w with
    | Some e :: _ => (inl e, w')
    | _ => (inr tt, w')
    end.

(** [rateLimiter.updateLimits(remaining, reset)]. *)
Definition updateLimits (remaining reset : Z) : M unit :=
  fun w =>
    (inr tt,
     {| has_token := has_token w; now := now w; cache_file := cache_file w;
        get_script := get_script w; contributors_script := contributors_script w;
        acquire_script := acquire_script w; api_calls := api_calls w;
        acquired := acquired w; slept := slept w;
        limits_reported := limits_reported w ++ [(remaining, reset)];
        fetchCount := fetchCount w |}).

(** [octokit.repos.get({ owner, repo })]: the next scripted answer; a
    resource the script says nothing about is not found. *)
Definition octokit_repos_get : M GetResponse :=
  fun w =>
    let w' :=
      {| has_token := has_token w; now := now w; cache_file := cache_file w;
         get_script := tail (get_script w); contributors_script := contributors_script w;
         acquire_script := acquire_script w; api_calls := S (api_calls w);
         acquired := acquired w; slept := slept w;
         limits_reported := limits_reported w; fetchCount := fetchCount w |} in
    match get_script w with
    | inr r :: _ => (inr r, w')
    | inl e :: _ => (inl e, w')
    | [] => (inl (RequestError 404 false None), w')
    end.

Definition octokit_repos_listContributors : M ContributorsResponse :=
  fun w =>
    let w' :=
      {| has_token := has_token w; now := now w; cache_file := cache_file w;
         get_script := get_script w; contributors_script := tail (contributors_script w);
         acquire_script := acquire_script w; api_calls := S (api_calls w);
         acquired := acquired w; slept := slept w;
         limits_reported := limits_reported w; fetchCount := fetchCount w |} in
    match contributors_script w with
    | inr r :: _ => (inr r, w')
    | inl e :: _ => (inl e, w')
    | [] => (inl (RequestError 404 false None), w')
    end.

Definition incr_fetchCount : M unit :=
  fun w =>
    (inr tt,
     {| has_token := has_token w; now := now w; cache_file := cache_file w;
        get_script := get_script w; contributors_script := contributors_script w;
        acquire_script := acquire_script w; api_calls := api_calls w;
        acquired := acquired w; slept := slept w;
        limits_reported := limits_reported w; fetchCount := S (fetchCount w) |}).

(** [fs.writeFileSync(cacheFile, JSON.stringify(repoData))]. *)
Definition write_cache (d : GithubRepositoryStats) : M unit :=
  fun w =>
    (inr tt,
     {| has_token := has_token w; now := now w; cache_file := Some (now w, d);
        get_script := get_script w; contributors_script := contributors_script w;
        acquire_script := acquire_script w; api_calls := api_calls w;
        acquired := acquired w; slept := slept w;
        limits_reported := limits_reported w; fetchCount := fetchCount w |}).

(** The [for] loop of [retryWithBackoff], entered at index [i] with [n]
    turns left. *)
Fixpoint retry_loop {A} (operation : M A) (retries i n : nat) : M A :=
  match n with
  | O => throw (PlainError "Retry failed")
  | S n' =>
      try_catch operation
        (fun error =>
           if (i =? retries - 1)%nat then throw error
           else sleep (RETRY_DELAY * 2 ^ Z.of_nat i) ;;;
                retry_loop operation retries (S i) n')
  end.

Definition retryWithBackoff {A} (operation : M A) (retries : nat) : M A :=
  retry_loop operation retries 0 retries.

(** [x || undefined] on a string field. *)
Definition or_undefined (x : option string) : option string :=
  match x with
  | Some s => if bool_decide (s = EmptyString) then None else Some s
  | None => None
  end.

(** [parseInt(h || '0')] on a header that is absent or holds a number. *)
Definition header_or_zero (h : option Z) : Z := default 0 h.

Definition slash : string := String "/"%char EmptyString.

(** The operation [fetchRepository] hands to [retryWithBackoff]. *)
Definition operation (owner repo : string) : M GithubRepositoryStats :=
  r <- octokit_repos_get ;;
  updateLimits (header_or_zero (x_ratelimit_remaining r))
               (header_or_zero (x_ratelimit_reset r)) ;;;
  acquire (owner +:+ slash +:+ repo +:+ slash +:+ "contributors") ;;;
  c <- octokit_repos_listContributors ;;
  let contributorsCount :=
    match link_last_page c with
    | Some (Some p) => p
    | Some None => data_length c
    | None => data_length c
    end in
  let d := data r in
  ret {| id := id d; name := name d; full_name := full_name d;
         description := or_undefined (description d);
         html_url := html_url d;
         homepage := or_undefined (homepage d);
         language := or_undefined (language d);
         topics := Some (default [] (topics d));
         stargazers_count := stargazers_count d;
         watchers_count := watchers_count d;
         forks_count := forks_count d;
         contributors_count := Some contributorsCount;
         fork := fork d;
         owner_html_url := owner_html_url d;
         owner_login := owner_login d;
         created_at := created_at d;
         updated_at := updated_at d;
         pushed_at := or_undefined (pushed_at d);
         license_name := license_name d;
         languages_url := languages_url d |}.

(** The [catch] of [fetchRepository]. *)
Definition on_fetch_error (owner repo : string) (error : Err)
  : M (option GithubRepositoryStats) :=
  if bool_decide (err_status error = Some 404) then ret None
  else
    match error with
    | RequestError 403 true retry_after =>
        throw (RateLimitError ("Rate limit exceeded for " +:+ owner +:+ slash +:+ repo)
                              (Some (default 60 retry_after)))
    | _ =>
        let status :=
          match err_status error with
          | Some s => if bool_decide (s = 0) then 500 else s
          | None => 500
          end in
        throw (GitHubError ("Error fetching " +:+ owner +:+ slash +:+ repo) status)
    end.

(** The cache entry when it exists and is younger than the TTL. *)
Definition fresh_cache (w : World) : option GithubRepositoryStats :=
  match cache_file w with
  | Some (mtime, cached) =>
      if bool_decide (now w - mtime < CACHE_TTL) then Some cached else None
  | None => None
  end.

(** [fetchRepository(owner, repo)]; [None] is the [null] result. *)
Definition fetchRepository (owner repo : string) : M (option GithubRepositoryStats) :=
  w <- get_world ;;
  if negb (has_token w) then
    throw (GitHubError "GITHUB_TOKEN environment variable is not set" 401)
  else
    match fresh_cache w with
    | Some cached => ret (Some cached)
    | None =>
        acquire (owner +:+ slash +:+ repo) ;;;
        incr_fetchCount ;;;
        try_catch
          (repoData <- retryWithBackoff (operation owner repo) MAX_RETRIES ;;
           write_cache repoData ;;;
           ret (Some repoData))
          (on_fetch_error owner repo)
    end.

(** *** Scenario: a repository the API does not know

    A token is set, nothing is cached, the rate limiter admits every request
    and the API answers 404 to every call. *)
Definition not_found : Err := RequestError 404 false None.

Definition world_not_found : World :=
  {| has_token := true; now := 0; cache_file := None;
     get_script := [inl not_found; inl not_found; inl not_found; inl not_found];
     contributors_script := []; acquire_script := [];
     api_calls := 0; acquired := []; slept := [];
     limits_reported := []; fetchCount := 0 |}.

End Fetch.

(* ===================================================================== *)
(** ** Batch upsert writer: [RepositoryService]                           *)
(* ===================================================================== *)

Module Writer.

Definition BATCH_SIZE : nat := 50.
Definition MIN_BATCH_INTERVAL : Z := 5000.

(** *** Storage *)

(** A row of the [repositories] table, with the columns of the schema;
    timestamps of the database clock are in milliseconds. *)
Record Row := {
  r_id : Z;
  r_name : string;
  r_full_name : string;
  r_description : option string;
  r_html_url : string;
  r_homepage : option string;
  r_language : option string;
  r_stargazers_count : Z;
  r_watchers_count : Z;
  r_forks_count : Z;
  r_fork : bool;
  r_owner_html_url : string;
  r_created_at : string;
  r_updated_at : string;
  r_pushed_at : option string;
  r_license_name : option string;
  r_languages_url : string;
  r_ecosystem : string;
  r_category : string;
  r_contributors_count : option Z;
  r_created_in_db : Z;
  r_updated_in_db : Z
}.

(** The two tables the writer touches.  Rows are kept in a list, so that
    one row per identifier is a property of the statements and not of the
    representation. *)
Record Store := {
  repositories : list Row;
  repository_topics : list (Z * string)
}.

(** The row that [INSERT INTO repositories (...) VALUES (...)] adds for a
    record: the nineteen listed columns from the record, the others from
    their defaults. *)
Definition inserted_row (ts : Z) (repo : ExtendedRepositoryStats) : Row :=
  {| r_id := id repo;
     r_name := name repo;
     r_full_name := full_name repo;
     r_description := description repo;
     r_html_url := html_url repo;
     r_homepage := homepage repo;
     r_language := language repo;
     r_stargazers_count := stargazers_count repo;
     r_watchers_count := watchers_count repo;
     r_forks_count := forks_count repo;
     r_fork := fork repo;
     r_owner_html_url := owner_html_url repo;
     r_created_at := created_at repo;
     r_updated_at := updated_at repo;
     r_pushed_at := pushed_at repo;
     r_license_name := license_name repo;
     r_languages_url := languages_url repo;
     r_ecosystem := ecosystem repo;
     r_category := category repo;
     r_contributors_count := None;
     r_created_in_db := ts;
     r_updated_in_db := ts |}.

(** [ON CONFLICT (id) DO UPDATE SET ...]: the twelve assignments of the
    statement, every other column kept from the stored row. *)
Definition updated_row (ts : Z) (old : Row) (repo : ExtendedRepositoryStats) : Row :=
  {| r_id := r_id old;
     r_name := name repo;
     r_full_name := r_full_name old;
     r_description := description repo;
     r_html_url := html_url repo;
     r_homepage := homepage repo;
     r_language := language repo;
     r_stargazers_count := stargazers_count repo;
     r_watchers_count := watchers_count repo;
     r_forks_count := forks_count repo;
     r_fork := r_fork old;
     r_owner_html_url := r_owner_html_url old;
     r_created_at := r_created_at old;
     r_updated_at := updated_at repo;
     r_pushed_at := r_pushed_at old;
     r_license_name := r_license_name old;
     r_languages_url := r_languages_url old;
     r_ecosystem := ecosystem repo;
     r_category := category repo;
     r_contributors_count := r_contributors_count old;
     r_created_in_db := r_created_in_db old;
     r_updated_in_db := ts |}.

(** One row of the multi-row upsert. *)
Fixpoint upsert_row (ts : Z) (repo : ExtendedRepositoryStats) (table : list Row) : list Row :=
  match table with
  | [] => [inserted_row ts repo]
  | row :: rest =>
      if bool_decide (r_id row = id repo) then updated_row ts row repo :: rest
      else row :: upsert_row ts repo rest
  end.

Definition upsert_rows (ts : Z) (rows : list ExtendedRepositoryStats) (table : list Row)
  : list Row :=
  fold_left (fun t repo => upsert_row ts repo t) rows table.

(** [DELETE FROM repository_topics WHERE repository_id = $1]. *)
Definition delete_topics (i : Z) (table : list (Z * string)) : list (Z * string) :=
  filter (fun p => p.1 <> i) table.

(** [INSERT INTO repository_topics (repository_id, topic) VALUES ...]. *)
Definition insert_topics (i : Z) (ts : list string) (table : list (Z * string))
  : list (Z * string) :=
  table ++ map (pair i) ts.

(** The topic rows of a repository, in table order. *)
Definition topics_of (i : Z) (table : list (Z * string)) : list string :=
  map snd (filter (fun p => p.1 = i) table).

(** *** The [try] block of [processBatch]

    The awaited steps of the block, in the order they are issued.  The
    per-repository topic tasks are started together by [Promise.all]; each
    waits for its own admission, and the limiter admits in the order of the
    calls, so their steps are taken in batch order.  When a task throws,
    [Promise.all] rejects at once; the tasks still waiting are not followed
    further. *)
Inductive Stmt :=
| Acquire (key : string)
| Begin
| Upsert (rows : list ExtendedRepositoryStats)
| DeleteTopics (i : Z)
| InsertTopics (i : Z) (ts : list string)
| Commit.

Definition topic_stmts (repo : ExtendedRepositoryStats) : list Stmt :=
  match topics repo with
  | Some (t :: ts) =>
      [ Acquire ("topics-" +:+ full_name repo);
        DeleteTopics (id repo);
        InsertTopics (id repo) (t :: ts) ]
  | _ => []
  end.

Definition try_block (currentBatch : list ExtendedRepositoryStats) : list Stmt :=
  [ Acquire ("batch-" +:+ from_option (fun r : ExtendedRepositoryStats => full_name r) EmptyString
                            (head currentBatch));
    Begin;
    Upsert currentBatch ]
  ++ flat_map topic_stmts currentBatch
  ++ [ Commit ].

Definition exec_stmt (ts : Z) (s : Stmt) (work : Store) : Store :=
  match s with
  | Upsert rows =>
      {| repositories := upsert_rows ts rows (repositories work);
         repository_topics := repository_topics work |}
  | DeleteTopics i =>
      {| repositories := repositories work;
         repository_topics := delete_topics i (repository_topics work) |}
  | InsertTopics i l =>
      {| repositories := repositories work;
         repository_topics := insert_topics i l (repository_topics work) |}
  | Acquire _ | Begin | Commit => work
  end.

(** What goes wrong in a [processBatch] call that has taken its snapshot:
    step [k] of the [try] block throws (a rejected admission, a constraint
    violation) and [ROLLBACK] goes through; step [k] throws and [ROLLBACK]
    throws as well (the connection is lost); or no connection can be had
    from the pool. *)
Inductive Fault :=
| FailsAt (k : nat)
| ConnectionLostAt (k : nat)
| ConnectFails.

Definition fault_step (fault : option Fault) : option nat :=
  match fault with
  | Some (FailsAt k) => Some k
  | Some (ConnectionLostAt k) => Some k
  | Some ConnectFails => None
  | None => None
  end.

(** Running the steps on the transaction's working copy.  [fault] is the
    index of the step that throws, if any does; the result is the working
    copy and whether the block ran to its end. *)
Fixpoint run_stmts (ts : Z) (fault : option nat) (stmts : list Stmt) (work : Store)
  : Store * bool :=
  match stmts with
  | [] => (work, true)
  | s :: rest =>
      match fault with
      | Some O => (work, false)
      | Some (S k) => run_stmts ts (Some k) rest (exec_stmt ts s work)
      | None => run_stmts ts None rest (exec_stmt ts s work)
      end
  end.

(** *** The back-off delay

    [Math.min(5000 * Math.pow(2, n / 50), 30000)] as [setTimeout] takes it,
    truncated to whole milliseconds: the largest [d] up to 30000 with
    [d^50 <= 5000^50 * 2^n], found by bisection. *)
Fixpoint bisect (fuel : nat) (p : Z -> bool) (lo hi : Z) : Z :=
  match fuel with
  | O => lo
  | S f =>
      if hi <=? lo then lo
      else
        let mid := (lo + hi + 1) / 2 in
        if p mid then bisect f p mid hi else bisect f p lo (mid - 1)
  end.

Definition backoffDelay (n : nat) : Z :=
  bisect 16 (fun d => d ^ 50 <=? 5000 ^ 50 * 2 ^ Z.of_nat n) 5000 30000.

(** *** The service *)

(** The fields of [RepositoryService], the store and the clock.  [inflight]
    is the [currentBatch] of a [processBatch] call suspended on the
    database; [scheduled] counts the [setImmediate] callbacks not yet run;
    [flushes], [committed] and [raised] record the calls that passed the
    guard, the snapshots whose transaction committed and the errors that
    [processBatch] has let through to its caller. *)
Record World := {
  batch : list ExtendedRepositoryStats;
  processedRepos : gset string;
  processing : bool;
  lastProcessTime : Z;
  db : Store;
  clock : Z;
  inflight : option (list ExtendedRepositoryStats);
  scheduled : nat;
  flushes : nat;
  committed : list (list ExtendedRepositoryStats);
  raised : nat
}.

Definition initial (ts : Z) (store : Store) : World :=
  {| batch := []; processedRepos := ∅; processing := false; lastProcessTime := 0;
     db := store; clock := ts; inflight := None; scheduled := 0;
     flushes := 0; committed := []; raised := 0 |}.

(** [initialize(ecosystem)]. *)
Definition initialize (eco : string) (w : World) : World :=
  {| batch := batch w;
     processedRepos :=
       processedRepos w ∪
       list_to_set (map r_full_name
                      (filter (fun row => r_ecosystem row = eco) (repositories (db w))));
     processing := processing w; lastProcessTime := lastProcessTime w;
     db := db w; clock := clock w; inflight := inflight w;
     scheduled := scheduled w; flushes := flushes w; committed := committed w;
     raised := raised w |}.

(** [processBatch], from its guard to the point where it holds its snapshot
    and waits for the database: [None] when the guard returns at once. *)
Definition begin_batch (w : World) : option World :=
  if processing w || bool_decide (batch w = []) then None
  else
    let timeSinceLastProcess := clock w - lastProcessTime w in
    let wait :=
      if bool_decide (timeSinceLastProcess < MIN_BATCH_INTERVAL)
      then MIN_BATCH_INTERVAL - timeSinceLastProcess else 0 in
    Some {| batch := drop BATCH_SIZE (batch w);
            processedRepos := processedRepos w;
            processing := true;
            lastProcessTime := lastProcessTime w;
            db := db w; clock := clock w + wait;
            inflight := Some (take BATCH_SIZE (batch w));
            scheduled := scheduled w; flushes := S (flushes w);
            committed := committed w; raised := raised w |}.

(** The [finally] block. *)
Definition finally_batch (w : World) : World :=
  {| batch := batch w; processedRepos := processedRepos w;
     processing := false; lastProcessTime := lastProcessTime w;
     db := db w; clock := clock w; inflight := None;
     scheduled :=
       if (BATCH_SIZE <=? length (batch w))%nat then S (scheduled w) else scheduled w;
     flushes := flushes w; committed := committed w; raised := raised w |}.

(** [processBatch], from [pool.connect()] to its return. *)
Definition end_batch (fault : option Fault) (w : World) : World :=
  match inflight w with
  | None => w
  | Some currentBatch =>
      match fault with
      | Some ConnectFails =>
          (* thrown before the [try]: neither [catch] nor [finally] runs *)
          {| batch := batch w; processedRepos := processedRepos w;
             processing := processing w; lastProcessTime := lastProcessTime w;
             db := db w; clock := clock w; inflight := None;
             scheduled := scheduled w; flushes := flushes w;
             committed := committed w; raised := S (raised w) |}
      | _ =>
          match run_stmts (clock w) (fault_step fault) (try_block currentBatch) (db w) with
          | (work, true) =>
              finally_batch
                {| batch := batch w;
                   processedRepos :=
                     processedRepos w ∪
                     list_to_set (map (fun r : ExtendedRepositoryStats => full_name r)
                                      currentBatch);
                   processing := processing w; lastProcessTime := clock w;
                   db := work; clock := clock w; inflight := inflight w;
                   scheduled := scheduled w; flushes := flushes w;
                   committed := committed w ++ [currentBatch];
                   raised := raised w |}
          | (_, false) =>
              match fault with
              | Some (ConnectionLostAt _) =>
                  (* [ROLLBACK] throws: the rest of the [catch] is skipped *)
                  finally_batch
                    {| batch := batch w; processedRepos := processedRepos w;
                       processing := processing w; lastProcessTime := lastProcessTime w;
                       db := db w; clock := clock w; inflight := inflight w;
                       scheduled := scheduled w; flushes := flushes w;
                       committed := committed w; raised := S (raised w) |}
              | _ =>
                  (* [ROLLBACK]: the working copy is dropped *)
                  let requeued := currentBatch ++ batch w in
                  finally_batch
                    {| batch := requeued; processedRepos := processedRepos w;
                       processing := processing w; lastProcessTime := lastProcessTime w;
                       db := db w; clock := clock w + backoffDelay (length requeued);
                       inflight := inflight w; scheduled := scheduled w;
                       flushes := flushes w; committed := committed w;
                       raised := raised w |}
              end
          end
      end
  end.

(** A [processBatch] call that nothing interleaves with. *)
Definition processBatch (fault : option Fault) (w : World) : World :=
  match begin_batch w with
  | None => w
  | Some w' => end_batch fault w'
  end.

Definition push (repo : ExtendedRepositoryStats) (w : World) : World :=
  {| batch := batch w ++ [repo]; processedRepos := processedRepos w;
     processing := processing w; lastProcessTime := lastProcessTime w;
     db := db w; clock := clock w; inflight := inflight w;
     scheduled := scheduled w; flushes := flushes w; committed := committed w;
     raised := raised w |}.

(** [queueRepository(repo, ecosystem, category)]; [fault] is for the flush
    it may trigger. *)
Definition queueRepository (repo : GithubRepositoryStats) (eco cat : string)
    (fault : option Fault) (w : World) : World :=
  if bool_decide (full_name repo ∈ processedRepos w) then w
  else
    let extendedRepo := {| stats := repo; ecosystem := eco; category := cat |} in
    let w' := push extendedRepo w in
    if (BATCH_SIZE <=? length (batch w'))%nat then processBatch fault w' else w'.

(** [flush()]. *)
Definition flush (fault : option Fault) (w : World) : World :=
  if (0 <? length (batch w))%nat then processBatch fault w else w.

(** The same two calls, run only up to the point where their flush waits
    for the database, so that other calls can come in between. *)
Definition queueRepository_suspend (repo : GithubRepositoryStats) (eco cat : string)
    (w : World) : World :=
  if bool_decide (full_name repo ∈ processedRepos w) then w
  else
    let extendedRepo := {| stats := repo; ecosystem := eco; category := cat |} in
    let w' := push extendedRepo w in
    if (BATCH_SIZE <=? length (batch w'))%nat then from_option (fun x => x) w' (begin_batch w')
    else w'.

Definition flush_suspend (w : World) : World :=
  if (0 <? length (batch w))%nat then from_option (fun x => x) w (begin_batch w) else w.

(** A [setImmediate] callback of the [finally] block runs. *)
Definition run_immediate (fault : option Fault) (w : World) : World :=
  match scheduled w with
  | O => w
  | S k =>
      processBatch fault
        {| batch := batch w; processedRepos := processedRepos w;
           processing := processing w; lastProcessTime := lastProcessTime w;
           db := db w; clock := clock w; inflight := inflight w;
           scheduled := k; flushes := flushes w; committed := committed w; raised := raised w |}
  end.

(** Calls on the service, as a caller makes them one after the other. *)
Inductive Op :=
| OpInitialize (eco : string)
| OpQueue (repo : GithubRepositoryStats) (eco cat : string) (fault : option Fault)
| OpFlush (fault : option Fault)
| OpQueueSuspend (repo : GithubRepositoryStats) (eco cat : string)
| OpFlushSuspend
| OpResume (fault : option Fault)
| OpImmediate (fault : option Fault).

Definition run_op (w : World) (op : Op) : World :=
  match op with
  | OpInitialize eco => initialize eco w
  | OpQueue repo eco cat fault => queueRepository repo eco cat fault w
  | OpFlush fault => flush fault w
  | OpQueueSuspend repo eco cat => queueRepository_suspend repo eco cat w
  | OpFlushSuspend => flush_suspend w
  | OpResume fault => end_batch fault w
  | OpImmediate fault => run_immediate fault w
  end.

Definition run (ops : list Op) (w : World) : World := fold_left run_op ops w.

(** *** Vocabulary of the properties *)

Definition extend (eco cat : string) (repo : GithubRepositoryStats)
  : ExtendedRepositoryStats :=
  {| stats := repo; ecosystem := eco; category := cat |}.

(** The rows of the table that carry the identifier [i]. *)
Definition rows_with (i : Z) (table : list Row) : list Row :=
  filter (fun row => r_id row = i) table.

(** The store after the [try] block of a snapshot has run to its end. *)
Definition commit (ts : Z) (snapshot : list ExtendedRepositoryStats) (store : Store)
  : Store :=
  (run_stmts ts None (try_block snapshot) store).1.

(** The topic steps of a snapshot, run on a working copy. *)
Definition run_topic_stmts (ts : Z) (repos : list ExtendedRepositoryStats) (work : Store)
  : Store :=
  fold_left (fun acc s => exec_stmt ts s acc) (flat_map topic_stmts repos) work.

(** [row] carries the values of [repo] in the columns that the upsert
    writes on insert and on conflict alike. *)
Definition written (row : Row) (repo : ExtendedRepositoryStats) : Prop :=
  r_id row = id repo /\
  r_name row = name repo /\
  r_description row = description repo /\
  r_html_url row = html_url repo /\
  r_homepage row = homepage repo /\
  r_language row = language repo /\
  r_stargazers_count row = stargazers_count repo /\
  r_watchers_count row = watchers_count repo /\
  r_forks_count row = forks_count repo /\
  r_updated_at row = updated_at repo /\
  r_ecosystem row = ecosystem repo /\
  r_category row = category repo.

(** [row] carries the values of [old] in the columns that the conflict
    clause does not assign. *)
Definition kept (row old : Row) : Prop :=
  r_id row = r_id old /\
  r_full_name row = r_full_name old /\
  r_fork row = r_fork old /\
  r_owner_html_url row = r_owner_html_url old /\
  r_created_at row = r_created_at old /\
  r_pushed_at row = r_pushed_at old /\
  r_license_name row = r_license_name old /\
  r_languages_url row = r_languages_url old /\
  r_contributors_count row = r_contributors_count old /\
  r_created_in_db row = r_created_in_db old.

(** The steps of a snapshot's [try] block throw at some point. *)
Definition fails (ts : Z) (k : nat) (snapshot : list ExtendedRepositoryStats)
    (store : Store) : Prop :=
  (run_stmts ts (Some k) (try_block snapshot) store).2 = false.

Definition names (snapshot : list ExtendedRepositoryStats) : gset string :=
  list_to_set (map (fun r : ExtendedRepositoryStats => full_name r) snapshot).

(** Sample records: repository number [n], with the given push date and
    topics. *)
Definition two_digits (n : nat) : string :=
  String (ascii_of_nat (48 + n / 10)) (String (ascii_of_nat (48 + n mod 10)) EmptyString).

Definition sample (n : nat) (pushed : string) (tags : list string) : GithubRepositoryStats :=
  {| id := Z.of_nat n;
     name := "repo-" +:+ two_digits n;
     full_name := "owner/repo-" +:+ two_digits n;
     description := None;
     html_url := "https://github.com/owner/repo-" +:+ two_digits n;
     homepage := None;
     language := Some "Rust";
     topics := Some tags;
     stargazers_count := 10;
     watchers_count := 10;
     forks_count := 1;
     contributors_count := None;
     fork := false;
     owner_html_url := "https://github.com/owner";
     owner_login := "owner";
     created_at := "2020-01-01T00:00:00Z";
     updated_at := pushed;
     pushed_at := Some pushed;
     license_name := Some "MIT License";
     languages_url := "https://api.github.com/repos/owner/repo/languages" |}.

Definition samples (from count : nat) : list GithubRepositoryStats :=
  map (fun n => sample n "2024-01-01T00:00:00Z" []) (seq from count).

Definition queue_all (eco cat : string) (fault : option Fault)
    (repos : list GithubRepositoryStats) : list Op :=
  map (fun repo => OpQueue repo eco cat fault) repos.

Definition empty_store : Store := {| repositories := []; repository_topics := [] |}.

(** The service with [l] appended to its batch. *)
Definition push_all (l : list ExtendedRepositoryStats) (w : World) : World :=
  {| batch := batch w ++ l; processedRepos := processedRepos w;
     processing := processing w; lastProcessTime := lastProcessTime w;
     db := db w; clock := clock w; inflight := inflight w;
     scheduled := scheduled w; flushes := flushes w; committed := committed w;
     raised := raised w |}.

(** *** Two readings of the specification that the code does not meet

    [flush] as a barrier: whenever a call returns, from whatever state the
    service has been brought to, the batch is empty and every record that
    was pending is in the store. *)
Definition FlushBarrier : Prop :=
  forall (ops : list Op) (ts : Z) (store : Store) (fault : option Fault),
    let w := run ops (initial ts store) in
    let w' := flush fault w in
    batch w' = [] /\
    forall r, r ∈ batch w -> exists row, row ∈ repositories (db w') /\ written row r.

(** [row] carries the value of [repo] in every scalar column but the
    identifier and the creation timestamp. *)
Definition later_everywhere (row : Row) (repo : ExtendedRepositoryStats) : Prop :=
  written row repo /\
  r_full_name row = full_name repo /\
  r_fork row = fork repo /\
  r_owner_html_url row = owner_html_url repo /\
  r_pushed_at row = pushed_at repo /\
  r_license_name row = license_name repo /\
  r_languages_url row = languages_url repo.

(** Last write wins on every column, and the topic rows are replaced: a
    record is written and flushed in one run, a record with the same
    identifier in a later run over the same store. *)
Definition LastWriteWins : Prop :=
  forall (ts1 ts2 : Z) (store : Store) (r1 r2 : GithubRepositoryStats)
         (eco cat : string),
    id r1 = id r2 ->
    (length (rows_with (id r1) (repositories store)) <= 1)%nat ->
    let w1 := flush None (queueRepository r1 eco cat None (initial ts1 store)) in
    let w2 := flush None (queueRepository r2 eco cat None (initial ts2 (db w1))) in
    exists row,
      rows_with (id r2) (repositories (db w2)) = [row] /\
      later_everywhere row (extend eco cat r2) /\
      topics_of (id r2) (repository_topics (db w2)) = default [] (topics r2).

(** *** Scenarios *)

(** Fifty-one records queued while every transaction fails at its first
    step: the batch holds them all. *)
Definition ops_backlog : list Op :=
  queue_all "ethereum" "uncategorized" (Some (FailsAt 0)) (samples 1 51).

(** Forty-nine records queued, the fiftieth starts a flush that waits for
    the database, and one more record is queued meanwhile. *)
Definition ops_in_progress : list Op :=
  queue_all "ethereum" "uncategorized" None (samples 1 49)
  ++ [ OpQueueSuspend (sample 50 "2024-01-01T00:00:00Z" []) "ethereum" "uncategorized";
       OpQueue (sample 51 "2024-01-01T00:00:00Z" []) "ethereum" "uncategorized" None ].

(** A repository written with two topics, then again, pushed later and with
    no topics. *)
Definition repo_v1 : GithubRepositoryStats :=
  sample 7 "2024-01-01T00:00:00Z" ["defi"; "wallet"].
Definition repo_v2 : GithubRepositoryStats :=
  sample 7 "2025-06-01T00:00:00Z" [].
Definition repo_v3 : GithubRepositoryStats :=
  sample 7 "2025-06-01T00:00:00Z" ["bridge"].

(** The first run holds [repo_v1] in the snapshot of a flush; a later run
    over the store it leaves holds [repo_v3]. *)
Definition world_first : World :=
  run [ OpQueue repo_v1 "ethereum" "uncategorized" None; OpFlushSuspend ]
      (initial 100000 empty_store).

Definition world_second : World :=
  run [ OpQueue repo_v3 "ethereum" "defi" None; OpFlushSuspend ]
      (initial 200000 (db (end_batch None world_first))).

(** A service that holds a snapshot of two records, one with topics, and
    one record queued behind it. *)
Definition world_inflight : World :=
  run [ OpQueue repo_v1 "ethereum" "uncategorized" None;
        OpQueue (sample 8 "2024-01-01T00:00:00Z" []) "ethereum" "uncategorized" None;
        OpFlushSuspend;
        OpQueue (sample 9 "2024-01-01T00:00:00Z" []) "ethereum" "uncategorized" None ]
      (initial 100000 empty_store).

Definition snapshot_inflight : list ExtendedRepositoryStats :=
  [ extend "ethereum" "uncategorized" repo_v1;
    extend "ethereum" "uncategorized" (sample 8 "2024-01-01T00:00:00Z" []) ].

End Writer.

(* ===================================================================== *)
(** ** Rate limiter: [RateLimiter]                                        *)
(* ===================================================================== *)

Module Limiter.

Definition MAX_RETRIES : nat := 3.
Definition RETRY_DELAY : Z := 5000.
Definition REQUEST_TIMEOUT : Z := 30000.
Definition BASE_DELAY : Z := 1000.
Definition MAX_DELAY : Z := 5000.
Definition BURST_SIZE : Z := 10.
Definition BURST_DELAY : Z := 10000.
Definition HOURLY_LIMIT : Z := 4500.
Definition STATUS_LOG_INTERVAL : Z := 30000.
Definition HOUR : Z := 3600000.

(** The persisted state, [failedPromises] flattened into two fields. *)
Record RateLimiterState := {
  tokens : Z;
  resetTime : Z;
  totalRequestsThisHour : Z;
  lastRequestTime : Z;
  lastStatusLog : Z;
  lastError : option (string * Z);
  failedPromises_count : Z;
  failedPromises_lastReset : Z
}.

(** A queue item.  [uid] stands for the identity of the object (the
    [queueItem === item] test of [handleTimeout]); it is given out in the
    order of the [acquire] calls.  The promise and the timer of the item are
    kept in the limiter: see [trace] and [timers] below. *)
Record QueueItem := {
  uid : nat;
  repoName : string;
  queuedAt : Z;
  retryCount : nat
}.

(** What a promise is rejected with. *)
Inductive Err :=
| RequestTimedOut      (* RateLimitError('Request timed out', 408) *)
| SaveStateFailed.     (* DatabaseError('Failed to save rate limiter state') *)

(** What happens to the promises, newest first: [Resolved u t r] is
    [item.resolve()] at time [t] for the item [u], on its attempt number
    [r] (0 for the first); [Rejected u t e] is [item.reject(e)]. *)
Inductive Event :=
| Resolved (u : nat) (t : Z) (r : nat)
| Rejected (u : nat) (t : Z) (e : Err).

(** The outcome of the [saveState] call that precedes [item.resolve()]: the
    write succeeds; it throws and the write that records the error
    succeeds; or both throw. *)
Inductive SaveOutcome := SaveOk | SaveFails | SaveFailsTwice.

(** Where the drain loop of [processQueue] stands while it sleeps: not
    running; at the head of its [while]; or in the [for] of a burst, about
    to take turn [i] of [burst], with its local [state] object. *)
Inductive Loop :=
| Idle
| AtHead
| InBurst (i burst : nat) (state : RateLimiterState).

(** The limiter with its surroundings: the clock [now], the time [wake] at
    which the sleeping loop goes on, the armed time-out timers (item and
    deadline), and [disk], what the next admission writes will meet. *)
Record Limiter := {
  queue : list QueueItem;
  processing : bool;
  file : RateLimiterState;
  now : Z;
  loop : Loop;
  wake : Z;
  timers : list (nat * Z);
  next_uid : nat;
  disk : list SaveOutcome;
  trace : list Event
}.

(** [getDefaultState()]. *)
Definition getDefaultState (ts : Z) : RateLimiterState :=
  {| tokens := 5000; resetTime := ts + 3600000; totalRequestsThisHour := 0;
     lastRequestTime := 0; lastStatusLog := 0; lastError := None;
     failedPromises_count := 0; failedPromises_lastReset := ts |}.

(** A limiter just constructed at time [ts] over the state file [f]. *)
Definition initial (ts : Z) (f : RateLimiterState) (script : list SaveOutcome) : Limiter :=
  {| queue := []; processing := false; file := f; now := ts; loop := Idle;
     wake := ts; timers := []; next_uid := 0; disk := script; trace := [] |}.

Definition set_file (f : RateLimiterState) (l : Limiter) : Limiter :=
  {| queue := queue l; processing := processing l; file := f; now := now l;
     loop := loop l; wake := wake l; timers := timers l; next_uid := next_uid l;
     disk := disk l; trace := trace l |}.

Definition set_queue (q : list QueueItem) (l : Limiter) : Limiter :=
  {| queue := q; processing := processing l; file := file l; now := now l;
     loop := loop l; wake := wake l; timers := timers l; next_uid := next_uid l;
     disk := disk l; trace := trace l |}.

Definition set_timers (ts : list (nat * Z)) (l : Limiter) : Limiter :=
  {| queue := queue l; processing := processing l; file := file l; now := now l;
     loop := loop l; wake := wake l; timers := ts; next_uid := next_uid l;
     disk := disk l; trace := trace l |}.

Definition set_disk (d : list SaveOutcome) (l : Limiter) : Limiter :=
  {| queue := queue l; processing := processing l; file := file l; now := now l;
     loop := loop l; wake := wake l; timers := timers l; next_uid := next_uid l;
     disk := d; trace := trace l |}.

Definition record (e : Event) (l : Limiter) : Limiter :=
  {| queue := queue l; processing := processing l; file := file l; now := now l;
     loop := loop l; wake := wake l; timers := timers l; next_uid := next_uid l;
     disk := disk l; trace := e :: trace l |}.

(** The loop goes to sleep for [ms] and will go on at [pc]. *)
Definition sleep (ms : Z) (pc : Loop) (l : Limiter) : Limiter :=
  {| queue := queue l; processing := processing l; file := file l; now := now l;
     loop := pc; wake := now l + ms; timers := timers l; next_uid := next_uid l;
     disk := disk l; trace := trace l |}.

(** The [finally] of [processQueue]. *)
Definition exit_loop (l : Limiter) : Limiter :=
  {| queue := queue l; processing := false; file := file l; now := now l;
     loop := Idle; wake := wake l; timers := timers l; next_uid := next_uid l;
     disk := disk l; trace := trace l |}.

(** [updateFailedPromises()]. *)
Definition updateFailedPromises (l : Limiter) : Limiter :=
  let f := file l in
  set_file
    {| tokens := tokens f; resetTime := resetTime f;
       totalRequestsThisHour := totalRequestsThisHour f;
       lastRequestTime := lastRequestTime f; lastStatusLog := lastStatusLog f;
       lastError := lastError f;
       failedPromises_count := failedPromises_count f + 1;
       failedPromises_lastReset := failedPromises_lastReset f |} l.

(** [calculateDelay()]: the ratio tests [usageRatio > 0.8], [> 0.9] and
    [> 0.95] are taken on the integers. *)
Definition calculateDelay (l : Limiter) : Z :=
  let state := file l in
  let timeSinceLastRequest := now l - lastRequestTime state in
  let total := totalRequestsThisHour state in
  let d1 := if 4 * HOURLY_LIMIT <? 5 * total then BASE_DELAY * 3 / 2 else BASE_DELAY in
  let d2 := if 9 * HOURLY_LIMIT <? 10 * total then d1 * 2 else d1 in
  let d3 := if 19 * HOURLY_LIMIT <? 20 * total then MAX_DELAY else d2 in
  Z.max d3 (BASE_DELAY - timeSinceLastRequest).

(** [Math.min(BURST_SIZE, queue.length, Math.ceil((tokens / 100) * BURST_SIZE))],
    the ceiling taken on the exact quotient. *)
Definition currentBurst (state : RateLimiterState) (l : Limiter) : Z :=
  Z.min BURST_SIZE
    (Z.min (Z.of_nat (length (queue l)))
           (- ((- (tokens state * BURST_SIZE)) / 100))).

(** [Math.min(BURST_DELAY * (queue.length / 100), BURST_DELAY * 2)], in whole
    milliseconds. *)
Definition burstDelay (l : Limiter) : Z :=
  Z.min (BURST_DELAY * Z.of_nat (length (queue l)) / 100) (BURST_DELAY * 2).

(** The local [state] after [state.totalRequestsThisHour++] and
    [state.lastRequestTime = Date.now()]. *)
Definition count_request (ts : Z) (state : RateLimiterState) : RateLimiterState :=
  {| tokens := tokens state; resetTime := resetTime state;
     totalRequestsThisHour := totalRequestsThisHour state + 1;
     lastRequestTime := ts; lastStatusLog := lastStatusLog state;
     lastError := lastError state;
     failedPromises_count := failedPromises_count state;
     failedPromises_lastReset := failedPromises_lastReset state |}.

Definition with_lastError (msg : string) (ts : Z) (state : RateLimiterState)
  : RateLimiterState :=
  {| tokens := tokens state; resetTime := resetTime state;
     totalRequestsThisHour := totalRequestsThisHour state;
     lastRequestTime := lastRequestTime state; lastStatusLog := lastStatusLog state;
     lastError := Some (msg, ts);
     failedPromises_count := failedPromises_count state;
     failedPromises_lastReset := failedPromises_lastReset state |}.

Definition save_error_message : string := "Failed to save rate limiter state".

(** The emergency drain of the outer [catch]: the error is recorded, every
    queued item is rejected with it, and the loop ends. *)
Definition emergency (l : Limiter) : Limiter :=
  let l1 := set_file (with_lastError save_error_message (now l) (file l)) l in
  let l2 :=
    fold_left
      (fun acc item =>
         updateFailedPromises (record (Rejected (uid item) (now l) SaveStateFailed) acc))
      (queue l1) l1 in
  exit_loop (set_queue [] l2).

Definition retried (item : QueueItem) : QueueItem :=
  {| uid := uid item; repoName := repoName item; queuedAt := queuedAt item;
     retryCount := S (retryCount item) |}.

(** What follows the [for] of a burst: the burst pause when items are left,
    the end of the [while] otherwise. *)
Definition after_burst (l : Limiter) : Limiter :=
  match queue l with
  | [] => exit_loop l
  | _ :: _ => sleep (burstDelay l) AtHead l
  end.

(** The [for] of a burst from turn [i], with [n] turns left, up to the next
    sleep or to the end of the loop. *)
Fixpoint burst_from (n i burst : nat) (state : RateLimiterState) (l : Limiter) : Limiter :=
  match n with
  | O => after_burst l
  | S n' =>
      match queue l with
      | [] => burst_from n' (S i) burst state l
      | item :: rest =>
          (* queue.shift() and clearTimeout(item.timeout) *)
          let l1 := set_timers (filter (fun p => p.1 <> uid item) (timers l))
                               (set_queue rest l) in
          let state1 := count_request (now l) state in
          let l2 := set_disk (tail (disk l)) l1 in
          match head (disk l) with
          | None | Some SaveOk =>
              let l3 := record (Resolved (uid item) (now l) (retryCount item))
                               (set_file state1 l2) in
              sleep (calculateDelay l3) (InBurst (S i) burst state1) l3
          | Some SaveFails =>
              if (retryCount item <? MAX_RETRIES)%nat then
                let state2 := with_lastError save_error_message (now l) state1 in
                let l3 := set_file state2 (set_queue (rest ++ [retried item]) l2) in
                sleep RETRY_DELAY (InBurst (S i) burst state2) l3
              else
                let l3 := updateFailedPromises
                            (record (Rejected (uid item) (now l) SaveStateFailed) l2) in
                burst_from n' (S i) burst state1 l3
          | Some SaveFailsTwice =>
              if (retryCount item <? MAX_RETRIES)%nat then
                emergency (set_queue (rest ++ [retried item]) l2)
              else
                emergency (record (Rejected (uid item) (now l) SaveStateFailed) l2)
          end
      end
  end.

(** The head of the [while]. *)
Definition at_head (l : Limiter) : Limiter :=
  match queue l with
  | [] => exit_loop l
  | _ :: _ =>
      let state := file l in
      let b := currentBurst state l in
      if b =? 0 then sleep MAX_DELAY AtHead l
      else burst_from (Z.to_nat b) 0 (Z.to_nat b) state l
  end.

(** The sleeping loop goes on. *)
Definition wake_loop (l : Limiter) : Limiter :=
  match loop l with
  | Idle => l
  | AtHead => at_head l
  | InBurst i burst state => burst_from (burst - i) i burst state l
  end.

(** [processQueue()] as its callers start it: a running loop is left alone,
    an empty queue ends the new loop at once. *)
Definition processQueue (l : Limiter) : Limiter :=
  if processing l then l
  else
    match queue l with
    | [] => l
    | _ :: _ =>
        {| queue := queue l; processing := true; file := file l; now := now l;
           loop := AtHead; wake := now l; timers := timers l;
           next_uid := next_uid l; disk := disk l; trace := trace l |}
    end.

(** [acquire(key)]. *)
Definition acquire (key : string) (l : Limiter) : Limiter :=
  let queueItem :=
    {| uid := next_uid l; repoName := key; queuedAt := now l; retryCount := 0 |} in
  processQueue
    {| queue := queue l ++ [queueItem]; processing := processing l; file := file l;
       now := now l; loop := loop l; wake := wake l;
       timers := timers l ++ [(next_uid l, now l + REQUEST_TIMEOUT)];
       next_uid := S (next_uid l); disk := disk l; trace := trace l |}.

(** [handleTimeout(item)], for the item [u]. *)
Definition handleTimeout (u : nat) (l : Limiter) : Limiter :=
  if bool_decide (u ∈ map uid (queue l)) then
    updateFailedPromises
      (record (Rejected u (now l) RequestTimedOut)
              (set_queue (filter (fun item => uid item <> u) (queue l)) l))
  else l.

(** The timer of the item [u] fires. *)
Definition fire (u : nat) (l : Limiter) : Limiter :=
  handleTimeout u (set_timers (filter (fun p => p.1 <> u) (timers l)) l).

(** [updateLimits(remaining, resetTime)]. *)
Definition updateLimits (remaining reset : Z) (l : Limiter) : Limiter :=
  let state := file l in
  let shouldLog :=
    (STATUS_LOG_INTERVAL <? now l - lastStatusLog state) || (remaining <? 1000) in
  let l1 :=
    set_file
      {| tokens := remaining; resetTime := reset * 1000;
         totalRequestsThisHour := totalRequestsThisHour state;
         lastRequestTime := lastRequestTime state;
         lastStatusLog := if shouldLog then now l else lastStatusLog state;
         lastError := lastError state;
         failedPromises_count := failedPromises_count state;
         failedPromises_lastReset := failedPromises_lastReset state |} l in
  if (0 <? remaining) && negb (processing l1) then processQueue l1 else l1.

(** The hourly timer of the constructor. *)
Definition hourly_reset (l : Limiter) : Limiter :=
  let state := file l in
  set_file
    {| tokens := tokens state; resetTime := resetTime state;
       totalRequestsThisHour := 0;
       lastRequestTime := lastRequestTime state; lastStatusLog := lastStatusLog state;
       lastError := None;
       failedPromises_count := 0; failedPromises_lastReset := now l |} l.

Definition tick (d : Z) (l : Limiter) : Limiter :=
  {| queue := queue l; processing := processing l; file := file l; now := now l + d;
     loop := loop l; wake := wake l; timers := timers l; next_uid := next_uid l;
     disk := disk l; trace := trace l |}.

(** *** Runs

    What happens to a limiter, one thing at a time: calls from outside at
    the current instant, time passing, the sleeping loop going on, a timer
    firing. *)
Inductive Ev :=
| EAcquire (key : string)
| EUpdateLimits (remaining reset : Z)
| EHourlyReset
| ETick (d : Z)
| EWake
| EFire (u : nat).

(** Time does not pass beyond a sleep that ends or a timer that is due. *)
Definition may_pass (d : Z) (l : Limiter) : bool :=
  (0 <=? d)
  && (negb (processing l) || (now l + d <=? wake l))
  && forallb (fun p => now l + d <=? p.2) (timers l).

Definition step (l : Limiter) (e : Ev) : option Limiter :=
  match e with
  | EAcquire key => Some (acquire key l)
  | EUpdateLimits remaining reset => Some (updateLimits remaining reset l)
  | EHourlyReset => Some (hourly_reset l)
  | ETick d => if may_pass d l then Some (tick d l) else None
  | EWake => if processing l && (wake l <=? now l) then Some (wake_loop l) else None
  | EFire u =>
      if bool_decide (Exists (fun p => p.1 = u /\ p.2 <= now l) (timers l))
      then Some (fire u l) else None
  end.

Fixpoint run (evs : list Ev) (l : Limiter) : option Limiter :=
  match evs with
  | [] => Some l
  | e :: rest =>
      match step l e with
      | Some l' => run rest l'
      | None => None
      end
  end.

(** The times of the admissions recorded in a trace, newest first, and the
    number of those that fall in the hour that starts at [from]. *)
Definition grant_times (tr : list Event) : list Z :=
  flat_map (fun e => match e with Resolved _ t _ => [t] | Rejected _ _ _ => [] end) tr.

Definition granted_within (from : Z) (tr : list Event) : nat :=
  length (filter (fun t => from <= t /\ t < from + HOUR) (grant_times tr)).

(** *** Vocabulary of the properties *)

Definition event_time (e : Event) : Z :=
  match e with
  | Resolved _ t _ => t
  | Rejected _ t _ => t
  end.

(** Times, newest first, each at least [BASE_DELAY] after all the earlier
    ones. *)
Fixpoint spaced (l : list Z) : Prop :=
  match l with
  | [] => True
  | t :: l' => Forall (fun t' => t' + BASE_DELAY <= t) l' /\ spaced l'
  end.

(** The instant before which the drain loop admits nothing more: the end
    of its sleep when it runs, the present when it does not. *)
Definition horizon (l : Limiter) : Z := if processing l then wake l else now l.

Definition Paced (l : Limiter) : Prop :=
  spaced (grant_times (trace l)) /\
  Forall (fun t => t + BASE_DELAY <= horizon l) (grant_times (trace l)).

(** The loop is about to go on at the present instant. *)
Definition run_ready (l : Limiter) : Prop :=
  processing l = true /\
  spaced (grant_times (trace l)) /\
  Forall (fun t => t + BASE_DELAY <= now l) (grant_times (trace l)).

(** The item [u] was admitted before this event. *)
Definition granted_below (bound : nat) (e : Event) : Prop :=
  match e with
  | Resolved u _ _ => (u < bound)%nat
  | Rejected _ _ _ => True
  end.

(** In the queue, an item that has never been taken out is behind older
    items only. *)
Fixpoint fresh_behind (q : list QueueItem) : Prop :=
  match q with
  | [] => True
  | y :: q' =>
      Forall (fun x => retryCount x = 0%nat -> (uid y < uid x)%nat) q' /\ fresh_behind q'
  end.

(** In the trace, an admission on the first attempt comes after admissions
    of older items only; and the trace is in the order of time. *)
Fixpoint first_attempts_in_order (tr : list Event) : Prop :=
  match tr with
  | [] => True
  | e :: tr' =>
      match e with
      | Resolved u _ O => Forall (granted_below u) tr'
      | _ => True
      end /\ first_attempts_in_order tr'
  end.

Fixpoint chronological (tr : list Event) : Prop :=
  match tr with
  | [] => True
  | e :: tr' => Forall (fun e' => event_time e' <= event_time e) tr' /\ chronological tr'
  end.

Definition Ordered (q : list QueueItem) (tr : list Event) (next : nat) (t : Z) : Prop :=
  Forall (fun x => (uid x < next)%nat) q /\
  Forall (granted_below next) tr /\
  fresh_behind q /\
  Forall (fun x => retryCount x = 0%nat -> Forall (granted_below (uid x)) tr) q /\
  first_attempts_in_order tr /\
  chronological tr /\
  Forall (fun e => event_time e <= t) tr.

(** Queue and timers: the queued items are distinct objects made by
    earlier [acquire] calls, an item that has never been taken out of the
    queue has its timer armed, and no armed timer is overdue. *)
Definition Timed (q : list QueueItem) (tm : list (nat * Z)) (next : nat) (t : Z) : Prop :=
  NoDup (map uid q) /\
  Forall (fun x => (uid x < next)%nat) q /\
  Forall (fun x => retryCount x = 0%nat -> (uid x, queuedAt x + REQUEST_TIMEOUT) ∈ tm) q /\
  Forall (fun p => t <= p.2) tm.

Definition Tmd (l : Limiter) : Prop :=
  Timed (queue l) (timers l) (next_uid l) (now l).

(** The item [u] has left the queue for good: it is not queued, its
    identity will not be given out again, and it has been granted only if
    [before] says so. *)
Definition Gone (u : nat) (before : list Event)
    (q : list QueueItem) (tr : list Event) (next : nat) : Prop :=
  (u ∉ map uid q) /\
  (u < next)%nat /\
  (forall t r, Resolved u t r ∈ tr -> Resolved u t r ∈ before) /\
  (forall e, e ∈ before -> e ∈ tr).

Definition Gn (u : nat) (before : list Event) (l : Limiter) : Prop :=
  Gone u before (queue l) (trace l) (next_uid l).

Definition Ord (l : Limiter) : Prop :=
  Ordered (queue l) (trace l) (next_uid l) (now l).

(** *** A reading of the specification that the code does not meet

    Admission in the order of the [acquire] calls: of two requests that are
    both admitted, the one made first is admitted no later. *)
Definition FifoAdmission : Prop :=
  forall evs ts f script l (a b : nat) ta tb ra rb,
    run evs (initial ts f script) = Some l ->
    (a < b)%nat ->
    Resolved a ta ra ∈ trace l ->
    Resolved b tb rb ∈ trace l ->
    ta <= tb.

(** *** Scenarios *)

(** Two requests in the same instant; the write for the first one fails
    once. *)
Definition run_overtaken : list Ev :=
  [ EAcquire "a/a"; EAcquire "b/b"; EWake;
    ETick 5000; EWake;
    ETick 1000; EWake;
    ETick 100; EWake;
    ETick 1000; EWake ].

Definition overtaken_end : Limiter :=
  default (initial 0 (getDefaultState 0) [])
          (run run_overtaken (initial 0 (getDefaultState 0) [SaveFails])).

(** Two requests, one second apart, and no failure. *)
Definition run_in_order : list Ev :=
  [ ETick 1000; EAcquire "a/a"; EWake; EAcquire "b/b";
    ETick 1000; EWake; ETick 100; EWake ].

Definition in_order_end : Limiter :=
  default (initial 0 (getDefaultState 0) [])
          (run run_in_order (initial 0 (getDefaultState 0) [])).

(** One request; the write of its first attempt fails, then the API
    reports that no budget is left, for forty seconds. *)
Definition run_starved : list Ev :=
  [ EAcquire "a/a"; EWake;
    ETick 1000; EUpdateLimits 0 7200;
    ETick 4000; EWake;
    ETick 100; EWake;
    ETick 5000; EWake;
    ETick 5000; EWake;
    ETick 5000; EWake;
    ETick 5000; EWake;
    ETick 5000; EWake;
    ETick 5000; EWake ].

Definition run_replenished : list Ev :=
  [ ETick 1000; EUpdateLimits 100 7200;
    ETick 4000; EWake;
    ETick 1000; EWake ].

Definition starved_end : Limiter :=
  default (initial 0 (getDefaultState 0) [])
          (run run_starved (initial 0 (getDefaultState 0) [SaveFails])).

Definition replenished_end : Limiter :=
  default starved_end (run run_replenished starved_end).

(** One request while no budget is left: its timer fires after thirty
    seconds. *)
Definition run_timed_out : list Ev :=
  [ EUpdateLimits 0 7200; EAcquire "a/a"; EWake;
    ETick 5000; EWake; ETick 5000; EWake; ETick 5000; EWake;
    ETick 5000; EWake; ETick 5000; EWake; ETick 5000; EFire 0 ].

Definition timed_out_end : Limiter :=
  default (initial 0 (getDefaultState 0) [])
          (run run_timed_out (initial 0 (getDefaultState 0) [])).

End Limiter.

(* ===================================================================== *)
(** ** Further code: clients, import script, reader, limiter vocabulary     *)
(* ===================================================================== *)

(** *** Ecosystem files as they are written *)

Module ParserMore.
Import Parser.

(** A line that holds one url entry: indentation, the key, the quoted
    value, and whatever follows the closing quote. *)
Definition entry (indent v post : jstring) : jstring :=
  indent ++ lit "url = " ++ [dquote] ++ v ++ [dquote] ++ post.

Record Entry := { e_indent : jstring; e_value : jstring; e_rest : jstring }.

Definition entry_line (e : Entry) : jstring := entry (e_indent e) (e_value e) (e_rest e).

Definition well_formed (e : Entry) : Prop :=
  all_space (e_indent e) /\ quote_free (e_value e) /\
  includes (lit "github.com") (e_value e) = true.

(** Two entries, the first indented and followed by a remark. *)
Definition entries_sample : list Entry :=
  [ {| e_indent := lit "  "; e_value := lit "https://github.com/foo/bar";
       e_rest := lit " # main" |};
    {| e_indent := []; e_value := lit "https://github.com/baz/qux.git"; e_rest := [] |} ].

End ParserMore.

(** *** Fetch client: the work of a call *)

Module FetchMore.
Import Fetch.

(** The delays of [retryWithBackoff] after its turns [i], ..., [i+k-1]. *)
Definition delays (i k : nat) : list Z :=
  map (fun j => RETRY_DELAY * 2 ^ Z.of_nat j) (seq i k).

Definition sum_list (l : list Z) : Z := fold_right Z.add 0 l.

(** A repository the API knows, after one answer 502: one contributor on
    the page, and a link header whose last page is 17. *)
Definition found : GetResponse :=
  {| data := Writer.repo_v1; x_ratelimit_remaining := Some 4000;
     x_ratelimit_reset := Some 7200 |}.

Definition world_found : World :=
  {| has_token := true; now := 0; cache_file := None;
     get_script := [inl (RequestError 502 false None); inr found];
     contributors_script := [inr {| data_length := 1; link_last_page := Some (Some 17) |}];
     acquire_script := [];
     api_calls := 0; acquired := []; slept := [];
     limits_reported := []; fetchCount := 0 |}.

Definition found_stats : GithubRepositoryStats :=
  match (fetchRepository "foo" "bar" world_found).1 with
  | inr (Some d) => d
  | _ => Writer.repo_v1
  end.

Definition found_end : World := (fetchRepository "foo" "bar" world_found).2.

(** The API answers 503 to every call. *)
Definition unavailable : Err := RequestError 503 false None.

Definition world_down : World :=
  {| has_token := true; now := 0; cache_file := None;
     get_script := [inl unavailable; inl unavailable; inl unavailable; inl unavailable];
     contributors_script := []; acquire_script := [];
     api_calls := 0; acquired := []; slept := [];
     limits_reported := []; fetchCount := 0 |}.

End FetchMore.

(** *** Fetch client: [fetchRepositoryFromUrl] *)

Module Url.
Import Parser.

(** The letters of the expression are compared without regard to case
    (the [i] flag); on ASCII text that is a comparison of lower-cased
    characters. *)
Definition to_lower (c : ascii) : ascii :=
  let n := nat_of_ascii c in
  if ((65 <=? n) && (n <=? 90))%nat then ascii_of_nat (n + 32) else c.

Fixpoint startsWith_ci (p s : jstring) : bool :=
  match p, s with
  | [], _ => true
  | _ :: _, [] => false
  | a :: p', b :: s' => ascii_eqb a (to_lower b) && startsWith_ci p' s'
  end.

Definition slash : ascii := "/"%char.

(** The longest run of characters other than the slash: what a greedy
    [[^/]+] takes, the next character being a slash or the end. *)
Fixpoint take_nonslash (s : jstring) : jstring * jstring :=
  match s with
  | [] => ([], [])
  | c :: s' =>
      if ascii_eqb c slash then ([], s)
      else let '(v, r) := take_nonslash s' in (c :: v, r)
  end.

(** A match of [github\.com\/([^\/]+)\/([^\/]+)] that starts at the head
    of [s]: capture groups 1 and 2. *)
Definition match_repo_here (s : jstring) : option (jstring * jstring) :=
  if startsWith_ci (lit "github.com/") s then
    match take_nonslash (drop 11 s) with
    | ((_ :: _) as owner, _ :: r) =>
        match take_nonslash r with
        | ((_ :: _) as repo, _) => Some (owner, repo)
        | _ => None
        end
    | _ => None
    end
  else None.

(** [url.match(...)]: the leftmost match. *)
Fixpoint match_repo (s : jstring) : option (jstring * jstring) :=
  match match_repo_here s with
  | Some m => Some m
  | None =>
      match s with
      | [] => None
      | _ :: s' => match_repo s'
      end
  end.

(** [s.replace(pat, '')] with a string pattern: the first occurrence is
    removed. *)
Fixpoint remove_first (pat s : jstring) : jstring :=
  if startsWith pat s then drop (length pat) s
  else
    match s with
    | [] => []
    | c :: s' => c :: remove_first pat s'
    end.

(** The expression has a match only where its literal part occurs. *)
Fixpoint includes_ci (p s : jstring) : bool :=
  startsWith_ci p s ||
  match s with
  | [] => false
  | _ :: s' => includes_ci p s'
  end.

Inductive Err :=
| ValidationError (message : jstring)
| FetchError (e : Fetch.Err).

Definition str (s : jstring) : string := string_of_list_ascii s.

(** [fetchRepositoryFromUrl(url)]. *)
Definition fetchRepositoryFromUrl (url : jstring) (w : Fetch.World)
  : (Err + option GithubRepositoryStats) * Fetch.World :=
  match match_repo url with
  | None => (inl (ValidationError (lit "Invalid GitHub URL: " ++ url)), w)
  | Some (owner, repo) =>
      let cleanRepo := remove_first (lit ".git") repo in
      match Fetch.fetchRepository (str owner) (str cleanRepo) w with
      | (inl e, w') => (inl (FetchError e), w')
      | (inr r, w') => (inr r, w')
      end
  end.

(** *** Vocabulary *)

Definition slash_free (s : jstring) : Prop := Forall (fun c => c <> slash) s.

(** No match of the expression can start in [s]: it has no letter g. *)
Definition g_free (s : jstring) : Prop :=
  Forall (fun c => to_lower c <> "g"%char) s.

(** The text ends here or goes on with a slash. *)
Definition ends_segment (rest : jstring) : Prop :=
  rest = [] \/ exists r, rest = slash :: r.

(** [pat] occurs in [s] at offset [n] and nowhere before. *)
Definition first_at (pat s : jstring) (n : nat) : Prop :=
  startsWith pat (drop n s) = true /\
  forall m, (m < n)%nat -> startsWith pat (drop m s) = false.

(** The result of [fetchRepository] as [fetchRepositoryFromUrl] passes it
    on. *)
Definition lift (r : (Fetch.Err + option GithubRepositoryStats) * Fetch.World)
  : (Err + option GithubRepositoryStats) * Fetch.World :=
  match r with
  | (inl e, w') => (inl (FetchError e), w')
  | (inr x, w') => (inr x, w')
  end.

Definition repo_url : jstring := lit "https://github.com/ethereum/go-ethereum.git".

End Url.

(** *** Fetch client: [fetchRepositoryContributors] *)

Module Contributors.

Definition CACHE_TTL : Z := 24 * 60 * 60 * 1000.
Definition maxRetries : nat := 5.
Definition baseDelay : Z := 10000.

Record GitHubContributor := {
  login : string;
  avatar_url : string;
  html_url : string;
  contributions : Z
}.

(** An entry of a response page, each field present or not. *)
Record RawContributor := {
  raw_login : option string;
  raw_avatar_url : option string;
  raw_html_url : option string;
  raw_contributions : option Z
}.

(** A page of [octokit.repos.listContributors]: the entries, the headers
    the client reads (each absent or holding a number) and whether the
    link header has a rel=next part. *)
Record PageResponse := {
  data : list RawContributor;
  x_ratelimit_remaining : option Z;
  x_ratelimit_reset : option Z;
  retry_after : option Z;
  link_next : bool
}.

(** The world of the client: the clock, the cache entry of the resource
    (its mtime and its content, [None] when it does not parse), what the
    next calls to the API and to the rate limiter will answer, whether the
    cache directory can be written, and what the client has done. *)
Record World := {
  now : Z;
  cache_file : option (Z * option (list GitHubContributor));
  pages : list (Fetch.Err + PageResponse);
  admissions : list (option Fetch.Err);
  cache_writable : bool;
  api_calls : nat;
  acquired : nat;
  slept : list Z
}.

Definition sleep (ms : Z) (w : World) : World :=
  {| now := now w + ms; cache_file := cache_file w; pages := pages w;
     admissions := admissions w; cache_writable := cache_writable w;
     api_calls := api_calls w; acquired := acquired w; slept := slept w ++ [ms] |}.

(** One call to the API has been made and [rest] is what the next calls
    will meet. *)
Definition called (rest : list (Fetch.Err + PageResponse)) (w : World) : World :=
  {| now := now w; cache_file := cache_file w; pages := rest;
     admissions := admissions w; cache_writable := cache_writable w;
     api_calls := S (api_calls w); acquired := acquired w; slept := slept w |}.

(** [rateLimiter.acquire(...)]: admitted unless the script rejects. *)
Definition acquire (w : World) : option Fetch.Err * World :=
  (match admissions w with
   | Some e :: _ => Some e
   | _ => None
   end,
   {| now := now w; cache_file := cache_file w; pages := pages w;
      admissions := tail (admissions w); cache_writable := cache_writable w;
      api_calls := api_calls w; acquired := S (acquired w); slept := slept w |}).

(** [fs.writeFileSync(cacheFile, ...)] inside its own [try]. *)
Definition write_cache (all : list GitHubContributor) (w : World) : World :=
  if cache_writable w then
    {| now := now w; cache_file := Some (now w, Some all); pages := pages w;
       admissions := admissions w; cache_writable := cache_writable w;
       api_calls := api_calls w; acquired := acquired w; slept := slept w |}
  else w.

(** The [map] and [filter] over a page. *)
Definition parse_entry (c : RawContributor) : GitHubContributor :=
  {| login := default EmptyString (raw_login c);
     avatar_url := default EmptyString (raw_avatar_url c);
     html_url := default EmptyString (raw_html_url c);
     contributions := default 0 (raw_contributions c) |}.

Definition nonempty (s : string) : bool := negb (bool_decide (s = EmptyString)).

Definition parse_page (entries : list RawContributor) : list GitHubContributor :=
  filter (fun c => nonempty (login c) && nonempty (html_url c) = true)
         (map parse_entry entries).

(** The [while (hasNextPage)] loop, over what the API will answer; a call
    the script has no answer for fails as a missing resource does. *)
Fixpoint page_loop (script : list (Fetch.Err + PageResponse))
    (allContributors : list GitHubContributor) (w : World)
  : (Fetch.Err + list GitHubContributor) * World :=
  match script with
  | [] => (inl (Fetch.RequestError 404 false None), called [] w)
  | inl e :: rest => (inl e, called rest w)
  | inr response :: rest =>
      let w1 := called rest w in
      let all := allContributors ++ parse_page (data response) in
      let remaining := default 0 (x_ratelimit_remaining response) in
      let resetTime := default 0 (x_ratelimit_reset response) * 1000 in
      let w2 :=
        if (remaining <? 10) && (now w1 <? resetTime)
        then sleep (resetTime - now w1 + 1000) w1 else w1 in
      let w3 :=
        match retry_after response with
        | Some seconds => sleep (seconds * 1000) w2
        | None => w2
        end in
      if link_next response && (length (data response) =? 100)%nat
      then page_loop rest all (sleep 5000 w3)
      else (inr all, w3)
  end.

(** The body of the [try] of one attempt. *)
Definition attempt (w : World) : (Fetch.Err + list GitHubContributor) * World :=
  match acquire w with
  | (Some e, w1) => (inl e, w1)
  | (None, w1) =>
      match page_loop (pages w1) [] w1 with
      | (inl e, w2) => (inl e, w2)
      | (inr all, w2) => (inr all, write_cache all w2)
      end
  end.

Definition failed_message (owner repo : string) : string :=
  "Failed to fetch contributors for " +:+ owner +:+ "/" +:+ repo +:+ " after 5 retries".

(** The [while (retryCount < maxRetries)] loop with [n] turns left. *)
Fixpoint attempts (owner repo : string) (n retryCount : nat) (w : World)
  : (Fetch.Err + list GitHubContributor) * World :=
  match n with
  | O => (inl (Fetch.PlainError (failed_message owner repo)), w)
  | S n' =>
      match attempt w with
      | (inr all, w') => (inr all, w')
      | (inl error, w') =>
          if bool_decide (Fetch.err_status error = Some 403) then
            let retryCount' := S retryCount in
            attempts owner repo n' retryCount'
                     (sleep (baseDelay * 2 ^ Z.of_nat retryCount') w')
          else (inl error, w')
      end
  end.

Definition fresh_cache (w : World) : option (list GitHubContributor) :=
  match cache_file w with
  | Some (mtime, Some cached) =>
      if bool_decide (now w - mtime < CACHE_TTL) then Some cached else None
  | _ => None
  end.

(** [fetchRepositoryContributors(owner, repo)]. *)
Definition fetchRepositoryContributors (owner repo : string) (w : World)
  : (Fetch.Err + list GitHubContributor) * World :=
  match fresh_cache w with
  | Some cached => (inr cached, w)
  | None => attempts owner repo maxRetries 0 w
  end.

(** *** Vocabulary and sample worlds *)

(** A page that is followed by another one: a hundred entries and a next
    link, and nothing that makes the client wait. *)
Definition full_page (p : PageResponse) : Prop :=
  link_next p = true /\ length (data p) = 100%nat /\
  10 <= default 0 (x_ratelimit_remaining p) /\ retry_after p = None.

(** A page the loop stops at. *)
Definition last_page (p : PageResponse) : Prop :=
  (link_next p = false \/ length (data p) <> 100%nat) /\
  10 <= default 0 (x_ratelimit_remaining p) /\ retry_after p = None.

Definition valid (c : GitHubContributor) : Prop :=
  login c <> EmptyString /\ html_url c <> EmptyString.

(** The rate limiter admits every request. *)
Definition admitting (w : World) : Prop := Forall (fun a => a = None) (admissions w).

Definition forbidden : Fetch.Err := Fetch.RequestError 403 true None.

(** The back-off delays before the attempts 2, ..., k+1. *)
Definition backoffs (k : nat) : list Z :=
  map (fun j => baseDelay * 2 ^ Z.of_nat (S j)) (seq 0 k).

Definition raw (l h : string) (n : Z) : RawContributor :=
  {| raw_login := Some l; raw_avatar_url := None; raw_html_url := Some h;
     raw_contributions := Some n |}.

Definition short_page : PageResponse :=
  {| data := [ raw "alice" "https://github.com/alice" 12;
               raw "" "https://github.com/ghost" 3;
               raw "bob" "https://github.com/bob" 1 ];
     x_ratelimit_remaining := Some 4000; x_ratelimit_reset := Some 7200;
     retry_after := None; link_next := false |}.

Definition world_contributors : World :=
  {| now := 0; cache_file := None;
     pages := [inl forbidden; inr short_page];
     admissions := []; cache_writable := true;
     api_calls := 0; acquired := 0; slept := [] |}.

Definition world_forbidden : World :=
  {| now := 0; cache_file := None;
     pages := replicate 7 (inl forbidden);
     admissions := []; cache_writable := true;
     api_calls := 0; acquired := 0; slept := [] |}.

(** A page of a hundred entries that announces a next one. *)
Definition long_page : PageResponse :=
  {| data := replicate 100 (raw "carol" "https://github.com/carol" 1);
     x_ratelimit_remaining := Some 4000; x_ratelimit_reset := Some 7200;
     retry_after := None; link_next := true |}.

Definition world_paged : World :=
  {| now := 0; cache_file := None;
     pages := [inr long_page; inr short_page];
     admissions := []; cache_writable := true;
     api_calls := 0; acquired := 0; slept := [] |}.

End Contributors.

(** *** The import script: [importEcosystemReposInChunks] and
    [importEcosystemReposDirectly] *)

Module Importer.

(** *** [importEcosystemReposInChunks]: the loop over the chunks

    What the loop does: the [--skip] values of the child processes it has
    spawned (newest first), the number of three-second pauses it has made,
    and whether it is still going. *)
Record Chunks := {
  spawned : list Z;
  pauses : nat;
  ok : bool
}.

(** The [for (let i = startChunk; i < totalChunks; i++)] loop from [i], on
    integers; [results] holds, for the children to come, whether the
    process exits with status 0 (a child the list says nothing about
    does). *)
Fixpoint chunk_loop (fuel : nat) (i totalChunks chunkSize skip : Z)
    (results : list bool) (acc : Chunks) : Chunks :=
  match fuel with
  | O => acc
  | S fuel' =>
      if i <? totalChunks then
        let chunkStart := i * chunkSize in
        if chunkStart <? skip then
          chunk_loop fuel' (i + 1) totalChunks chunkSize skip results acc
        else
          let acc1 := {| spawned := chunkStart :: spawned acc;
                         pauses := pauses acc; ok := ok acc |} in
          match results with
          | false :: _ =>
              {| spawned := spawned acc1; pauses := pauses acc1; ok := false |}
          | _ =>
              let acc2 :=
                if i <? totalChunks - 1
                then {| spawned := spawned acc1; pauses := S (pauses acc1); ok := ok acc1 |}
                else acc1 in
              chunk_loop fuel' (i + 1) totalChunks chunkSize skip (tail results) acc2
          end
      else acc
  end.

(** [Math.ceil(totalRepos / chunkSize)] and [Math.floor(skip / chunkSize)]
    for a positive chunk size. *)
Definition totalChunks (totalRepos chunkSize : Z) : Z := - ((- totalRepos) / chunkSize).

Definition startChunk (skip chunkSize : Z) : Z := skip / chunkSize.

(** The first chunk that does not start before [skip]. *)
Definition firstChunk (skip chunkSize : Z) : Z := - ((- skip) / chunkSize).

Definition importEcosystemReposInChunks (totalRepos chunkSize skip : Z)
    (results : list bool) : Chunks :=
  let total := totalChunks totalRepos chunkSize in
  let start := startChunk skip chunkSize in
  chunk_loop (Z.to_nat (total - start)) start total chunkSize skip results
             {| spawned := []; pauses := 0; ok := true |}.

(** *** [importEcosystemReposDirectly]: the loop over the URLs

    The URLs a run in direct mode walks: [allUrls.slice(skip)] when [skip]
    is positive. *)
Definition urls_to_process {A} (skip : Z) (allUrls : list A) : list A :=
  if 0 <? skip then drop (Z.to_nat skip) allUrls else allUrls.

(** What the loop does with the service, in order. *)
Inductive Step (A : Type) :=
| FetchAll (batch : list A)
| Flush.
Arguments FetchAll {A} batch.
Arguments Flush {A}.

(** [urls.slice(i, j)]: a negative index counts from the end, and both
    are brought into the bounds of the array. *)
Definition clamp (len k : Z) : Z :=
  if k <? 0 then Z.max (len + k) 0 else Z.min k len.

Definition slice {A} (i j : Z) (urls : list A) : list A :=
  let len := Z.of_nat (length urls) in
  let from := clamp len i in
  let to := clamp len j in
  take (Z.to_nat (to - from)) (drop (Z.to_nat from) urls).

(** The [for (let i = 0; i < urls.length; i += concurrency)] loop from [i],
    followed by the final [flush]; [None] when [fuel] turns do not bring
    the loop to its end. *)
Fixpoint url_loop {A} (fuel : nat) (i concurrency batchSize processedInBatch : Z)
    (urls : list A) : option (list (Step A)) :=
  if i <? Z.of_nat (length urls) then
    match fuel with
    | O => None
    | S fuel' =>
        let batch := slice i (i + concurrency) urls in
        let processed := processedInBatch + Z.of_nat (length batch) in
        if batchSize <=? processed then
          option_map (fun plan => FetchAll batch :: Flush :: plan)
                     (url_loop fuel' (i + concurrency) concurrency batchSize 0 urls)
        else
          option_map (fun plan => FetchAll batch :: plan)
                     (url_loop fuel' (i + concurrency) concurrency batchSize processed urls)
    end
  else Some [Flush].

Definition importEcosystemReposDirectly {A} (fuel : nat) (skip concurrency batchSize : Z)
    (allUrls : list A) : option (list (Step A)) :=
  url_loop fuel 0 concurrency batchSize 0 (urls_to_process skip allUrls).

Definition fetched {A} (plan : list (Step A)) : list A :=
  flat_map (fun s => match s with FetchAll batch => batch | Flush => [] end) plan.

(** A step of the plan is the final flush or a batch of one to
    [concurrency] URLs. *)
Definition step_ok {A} (concurrency : Z) (s : Step A) : Prop :=
  match s with
  | FetchAll batch => (1 <= length batch)%nat /\ Z.of_nat (length batch) <= concurrency
  | Flush => True
  end.

Definition urls_sample : list string :=
  [ "https://github.com/a/a"; "https://github.com/b/b"; "https://github.com/c/c";
    "https://github.com/d/d"; "https://github.com/e/e" ]%string.

End Importer.

(** *** Language service: the primary language *)

Module Languages.

(** [LanguageStats]: language name to bytes of code, in the order in
    which [Object.entries] lists the keys. *)
Definition LanguageStats := list (string * Z).

(** [languages.sort(([, a], [, b]) => b - a)]: by falling byte count, and
    stable, so that entries with the same count keep their order. *)
Fixpoint insert_desc (x : string * Z) (l : list (string * Z)) : list (string * Z) :=
  match l with
  | [] => [x]
  | y :: l' => if x.2 <? y.2 then y :: insert_desc x l' else x :: y :: l'
  end.

Definition sort_desc (l : list (string * Z)) : list (string * Z) :=
  foldr insert_desc [] l.

(** The [primaryLanguage] and [primaryBytes] that [storeLanguageStats]
    writes. *)
Definition primary (stats : LanguageStats) : option string * Z :=
  match sort_desc stats with
  | [] => (None, 0)
  | (language, bytes) :: _ => (Some language, bytes)
  end.

(** What [fetchPrimaryLanguage] returns for the statistics it has
    fetched, [None] standing for the failed fetch. *)
Definition fetchPrimaryLanguage (stats : option LanguageStats) : option string :=
  match stats with
  | None => None
  | Some s => (primary s).1
  end.

End Languages.

(** *** Repository service: further vocabulary and scenarios *)

Module WriterMore.
Import Writer.

(** The records the service is answerable for: those of the committed
    snapshots, those of the snapshot in flight and those pending. *)
Definition held (w : World) : list ExtendedRepositoryStats :=
  concat (committed w) ++ default [] (inflight w) ++ batch w.

(** A fault after which [ROLLBACK] goes through. *)
Definition rolls_back (fault : option Fault) : Prop :=
  match fault with
  | None | Some (FailsAt _) => True
  | Some (ConnectionLostAt _) | Some ConnectFails => False
  end.

Definition gentle (op : Op) : Prop :=
  match op with
  | OpQueue _ _ _ fault | OpFlush fault | OpResume fault | OpImmediate fault =>
      rolls_back fault
  | OpInitialize _ | OpQueueSuspend _ _ _ | OpFlushSuspend => True
  end.

(** A snapshot is in flight only while [processing] is set. *)
Definition consistent (w : World) : Prop :=
  inflight w <> None -> processing w = true.

Definition ids (store : Store) : list Z := map r_id (repositories store).

(** Three records queued in an idle service. *)
Definition world_queued : World :=
  run (queue_all "ethereum" "uncategorized" None (samples 1 3)) (initial 100000 empty_store).

(** A repository written twice, with a flush after each. *)
Definition ops_rewrite : list Op :=
  [ OpQueue repo_v1 "ethereum" "uncategorized" None; OpFlush None;
    OpQueue repo_v2 "ethereum" "uncategorized" None; OpFlush None ].

(** Repository 8 is in the store and repository 7 is queued. *)
Definition world_other : World :=
  run [ OpQueue (sample 8 "2024-01-01T00:00:00Z" ["defi"]) "ethereum" "uncategorized" None;
        OpFlush None;
        OpQueue repo_v1 "ethereum" "uncategorized" None ]
      (initial 100000 empty_store).

(** Flushes whose transaction fails and is rolled back, and a record
    queued after them. *)
Definition ops_failing : list Op :=
  [ OpQueue repo_v1 "ethereum" "uncategorized" (Some (FailsAt 0));
    OpFlush (Some (FailsAt 0));
    OpQueue (sample 8 "2024-01-01T00:00:00Z" []) "ethereum" "uncategorized" None ].

End WriterMore.

(** *** Repository service: [getRepository] *)

Module Reader.
Import Writer.

(** What [getRepository] returns for a stored repository: the columns of
    its row, the [owner] and [license] objects made from two of them, and
    its topics.  [array_agg(DISTINCT t.topic)] gives the topics in no
    stated order, so they are kept as a set. *)
Record Found := {
  found_row : Row;
  found_owner_html_url : string;
  found_license : option string;
  found_topics : gset string
}.

(** [repo.license_name ? { name: repo.license_name } : undefined]. *)
Definition license_of (name : option string) : option string :=
  match name with
  | Some s => if bool_decide (s = EmptyString) then None else Some s
  | None => None
  end.

(** [repo.topics.filter(Boolean)]: the null of a repository without
    topics and the empty topic are dropped. *)
Definition truthy (t : string) : Prop := t <> EmptyString.

Definition found (row : Row) (table : list (Z * string)) : Found :=
  {| found_row := row;
     found_owner_html_url := r_owner_html_url row;
     found_license := license_of (r_license_name row);
     found_topics := list_to_set (filter truthy (topics_of (r_id row) table)) |}.

(** [getRepository(id)]: [None] when the admission request or the query
    throws (the error is thrown again), [Some None] for [null]. *)
Definition getRepository (throws : bool) (i : Z) (store : Store) : option (option Found) :=
  if throws then None
  else
    match rows_with i (repositories store) with
    | [] => Some None
    | row :: _ => Some (Some (found row (repository_topics store)))
    end.

(** One record queued in an idle service over an empty store. *)
Definition record_v1 : ExtendedRepositoryStats := extend "ethereum" "uncategorized" repo_v1.

Definition world_one : World :=
  run [ OpQueue repo_v1 "ethereum" "uncategorized" None ] (initial 100000 empty_store).

End Reader.

(** *** Rate limiter: further vocabulary and scenarios *)

Module LimiterMore.
Import Limiter.

(** The request an event settles. *)
Definition event_uid (e : Event) : nat :=
  match e with
  | Resolved u _ _ => u
  | Rejected u _ _ => u
  end.

(** Every request made so far is either queued or settled, and only one
    of the two, once. *)
Definition Accounted (l : Limiter) : Prop :=
  map uid (queue l) ++ map event_uid (trace l) ≡ₚ seq 0 (next_uid l).

(** No item has been put back more than [MAX_RETRIES] times. *)
Definition attempt_of (e : Event) : nat :=
  match e with
  | Resolved _ _ r => r
  | Rejected _ _ _ => 0
  end.

Definition Bounded (l : Limiter) : Prop :=
  Forall (fun x => (retryCount x <= MAX_RETRIES)%nat) (queue l) /\
  Forall (fun e => (attempt_of e <= MAX_RETRIES)%nat) (trace l).

(** The recorded budget is used up and the loop is not in a burst. *)
Definition Starved (l : Limiter) : Prop :=
  tokens (file l) <= 0 /\
  match loop l with InBurst _ _ _ => False | _ => True end.

(** The API keeps reporting that nothing is left. *)
Definition no_refill (e : Ev) : Prop :=
  match e with
  | EUpdateLimits remaining _ => remaining <= 0
  | _ => True
  end.

(** A request made while the API reports that no budget is left. *)
Definition item_waiting : QueueItem :=
  {| uid := 0; repoName := "a/a"; queuedAt := 0; retryCount := 0 |}.

Definition run_waiting : list Ev := [ EUpdateLimits 0 7200; EAcquire "a/a" ].

Definition waiting_end : Limiter :=
  default (initial 0 (getDefaultState 0) [])
          (run run_waiting (initial 0 (getDefaultState 0) [])).

(** The same, followed by two turns of the loop, five seconds apart. *)
Definition run_no_budget : list Ev := [ EAcquire "a/a"; EWake; ETick 5000; EWake ].

Definition no_budget_start : Limiter := updateLimits 0 7200 (initial 0 (getDefaultState 0) []).

Definition no_budget_end : Limiter := default no_budget_start (run run_no_budget no_budget_start).

(** Two requests are waiting and the state file cannot be written. *)
Definition unwritable : Limiter :=
  set_disk [SaveFailsTwice]
           (acquire "b/b" (acquire "a/a" (updateLimits 0 7200 (initial 0 (getDefaultState 0) [])))).

End LimiterMore.

(* ===================================================================== *)
(** * Properties                                                          *)
(* ===================================================================== *)

Module FetchFacts.
Import Fetch.

(** A failing operation is run again after a sleep, whatever the error. *)
Lemma retry_loop_failure {A} (operation : M A) retries i n e w w' :
  operation w = (inl e, w') ->
  (i <> retries - 1)%nat ->
  retry_loop operation retries i (S n) w =
  (sleep (RETRY_DELAY * 2 ^ Z.of_nat i) ;;; retry_loop operation retries (S i) n) w'.
Proof.
  intros Hop Hi. cbn [retry_loop]. unfold try_catch. rewrite Hop.
  apply Nat.eqb_neq in Hi. by rewrite Hi.
Qed.

(** On the last turn the error is thrown to the caller. *)
Lemma retry_loop_last {A} (operation : M A) retries n e w w' :
  operation w = (inl e, w') ->
  retry_loop operation retries (retries - 1) (S n) w = (inl e, w').
Proof.
  intros Hop. cbn [retry_loop]. unfold try_catch. rewrite Hop.
  by rewrite Nat.eqb_refl.
Qed.

(** C7, on the code.  For a repository that the API reports as not found on
    every call, [fetchRepository] returns null and does not raise; but the
    not-found answer goes through [retryWithBackoff] like any failure: the
    API is called three times, the retry index is stepped twice and the
    client sleeps 5000 ms and then 10000 ms before null is returned. *)
Theorem fetchRepository_not_found_retried :
  fst (fetchRepository "foo" "bar" world_not_found) = inr None /\
  api_calls (snd (fetchRepository "foo" "bar" world_not_found)) = 3%nat /\
  slept (snd (fetchRepository "foo" "bar" world_not_found)) = [5000; 10000] /\
  now (snd (fetchRepository "foo" "bar" world_not_found)) = 15000.
Proof. vm_compute. done. Qed.

End FetchFacts.

Module WriterFacts.
Import Writer.

(** **** The transaction *)

Lemma run_stmts_no_fault ts stmts work :
  run_stmts ts None stmts work =
  (fold_left (fun acc s => exec_stmt ts s acc) stmts work, true).
Proof. revert work. induction stmts as [|s stmts IH]; intros work; simpl; [done | apply IH]. Qed.

Lemma commit_unfold ts snapshot store :
  commit ts snapshot store =
  fold_left (fun acc s => exec_stmt ts s acc) (try_block snapshot) store.
Proof. unfold commit. by rewrite run_stmts_no_fault. Qed.

(** No step of the block touches a table other than through the three
    statements; the repositories table is written once, by the upsert. *)
Lemma topic_stmts_repositories ts repos work :
  repositories (fold_left (fun acc s => exec_stmt ts s acc) (flat_map topic_stmts repos) work)
  = repositories work.
Proof.
  revert work. induction repos as [|r repos IH]; intros work; simpl; [done |].
  rewrite fold_left_app, IH. unfold topic_stmts.
  destruct (topics r) as [[|t l]|]; done.
Qed.

Lemma commit_repositories ts snapshot store :
  repositories (commit ts snapshot store) =
  upsert_rows ts snapshot (repositories store).
Proof.
  rewrite commit_unfold. unfold try_block.
  rewrite !fold_left_app. simpl. by rewrite topic_stmts_repositories.
Qed.

(** **** The upsert, one identifier at a time *)

Lemma rows_with_upsert_other ts (repo : ExtendedRepositoryStats) table i :
  i <> id repo ->
  rows_with i (upsert_row ts repo table) = rows_with i table.
Proof.
  intros Hi. unfold rows_with. induction table as [|row table IH]; simpl.
  - rewrite filter_cons. simpl. case_decide; [congruence | done].
  - case_bool_decide as Hrow.
    + rewrite !filter_cons. simpl. rewrite Hrow.
      case_decide; [congruence |]. done.
    + rewrite !filter_cons. by rewrite IH.
Qed.

Lemma rows_with_upsert_new ts (repo : ExtendedRepositoryStats) table :
  rows_with (id repo) table = [] ->
  rows_with (id repo) (upsert_row ts repo table) = [inserted_row ts repo].
Proof.
  unfold rows_with. induction table as [|row table IH]; simpl; intros H.
  - rewrite filter_cons. simpl. by case_decide.
  - rewrite filter_cons in H. case_decide as Hrow; [done |].
    rewrite bool_decide_eq_false_2 by done.
    rewrite filter_cons. case_decide; [done |]. by apply IH.
Qed.

Lemma rows_with_upsert_old ts (repo : ExtendedRepositoryStats) table old :
  rows_with (id repo) table = [old] ->
  rows_with (id repo) (upsert_row ts repo table) = [updated_row ts old repo].
Proof.
  unfold rows_with. induction table as [|row table IH]; simpl; intros H; [done |].
  rewrite filter_cons in H. case_decide as Hrow.
  - injection H as -> Hrest. rewrite bool_decide_eq_true_2 by done.
    rewrite filter_cons. simpl. rewrite Hrow. case_decide; [|done]. by rewrite Hrest.
  - rewrite bool_decide_eq_false_2 by done.
    rewrite filter_cons. case_decide; [done |]. by apply IH.
Qed.

Lemma rows_with_upsert_rows_other ts repos table i :
  Forall (fun r : ExtendedRepositoryStats => id r <> i) repos ->
  rows_with i (upsert_rows ts repos table) = rows_with i table.
Proof.
  unfold upsert_rows. intros H. revert table.
  induction H as [|r repos Hr _ IH]; intros table; simpl; [done |].
  rewrite IH. by apply rows_with_upsert_other.
Qed.

Lemma written_inserted ts repo : written (inserted_row ts repo) repo.
Proof. by repeat split. Qed.

Lemma written_updated ts old (repo : ExtendedRepositoryStats) :
  r_id old = id repo -> written (updated_row ts old repo) repo.
Proof. intros H. by repeat split. Qed.

Lemma kept_updated ts old repo : kept (updated_row ts old repo) old.
Proof. by repeat split. Qed.

Lemma rows_with_id i table row : row ∈ rows_with i table -> r_id row = i.
Proof. unfold rows_with. rewrite list_elem_of_filter. tauto. Qed.

(** A table with at most one row for an identifier has exactly one after
    the upsert of a record with that identifier: the inserted row when
    there was none, the stored row updated otherwise. *)
Lemma rows_with_upsert ts (repo : ExtendedRepositoryStats) table :
  (length (rows_with (id repo) table) <= 1)%nat ->
  exists row,
    rows_with (id repo) (upsert_row ts repo table) = [row] /\
    written row repo /\
    match rows_with (id repo) table with
    | old :: _ => row = updated_row ts old repo
    | [] => row = inserted_row ts repo
    end.
Proof.
  intros Hlen. destruct (rows_with (id repo) table) as [|old [|? ?]] eqn:E.
  - exists (inserted_row ts repo). split_and!; [by apply rows_with_upsert_new | | done].
    apply written_inserted.
  - exists (updated_row ts old repo).
    split_and!; [by apply rows_with_upsert_old | | done].
    apply written_updated. apply (rows_with_id _ table). rewrite E. by left.
  - simpl in Hlen. lia.
Qed.

Lemma snapshot_split (snapshot : list ExtendedRepositoryStats) r :
  r ∈ snapshot ->
  NoDup (map (fun x : ExtendedRepositoryStats => id x) snapshot) ->
  exists pre post,
    snapshot = pre ++ r :: post /\
    Forall (fun x : ExtendedRepositoryStats => id x <> id r) pre /\
    Forall (fun x : ExtendedRepositoryStats => id x <> id r) post.
Proof.
  intros Hin Hnd. apply list_elem_of_split in Hin as (pre & post & ->).
  exists pre, post. split; [done |].
  rewrite map_app in Hnd. simpl in Hnd.
  apply NoDup_app in Hnd as (_ & Hpre & Hpost).
  apply NoDup_cons in Hpost as [Hpost _].
  split; apply Forall_forall; intros x Hx Heq.
  - apply (Hpre (id x)); [apply list_elem_of_fmap; by exists x |].
    rewrite Heq. by left.
  - apply Hpost. rewrite <- Heq. apply list_elem_of_fmap. by exists x.
Qed.

(** The same for a whole snapshot in which the record is the only one with
    its identifier. *)
Lemma rows_with_commit ts snapshot store (r : ExtendedRepositoryStats) :
  r ∈ snapshot ->
  NoDup (map (fun x : ExtendedRepositoryStats => id x) snapshot) ->
  (length (rows_with (id r) (repositories store)) <= 1)%nat ->
  exists row,
    rows_with (id r) (repositories (commit ts snapshot store)) = [row] /\
    written row r /\
    match rows_with (id r) (repositories store) with
    | old :: _ => row = updated_row ts old r
    | [] => row = inserted_row ts r
    end.
Proof.
  intros Hin Hnd Hlen.
  destruct (snapshot_split snapshot r Hin Hnd) as (pre & post & -> & Hpre & Hpost).
  rewrite commit_repositories. unfold upsert_rows.
  rewrite fold_left_app. simpl.
  fold (upsert_rows ts pre (repositories store)).
  fold (upsert_rows ts post
          (upsert_row ts r (upsert_rows ts pre (repositories store)))).
  rewrite rows_with_upsert_rows_other by done.
  rewrite <- (rows_with_upsert_rows_other ts pre (repositories store) (id r)) in Hlen |- * by done.
  by apply rows_with_upsert.
Qed.

(** **** The topic rows *)

Lemma topics_of_app i (t1 t2 : list (Z * string)) :
  topics_of i (t1 ++ t2) = topics_of i t1 ++ topics_of i t2.
Proof. unfold topics_of. by rewrite filter_app, map_app. Qed.

Lemma topics_of_delete_self i table : topics_of i (delete_topics i table) = [].
Proof.
  unfold topics_of, delete_topics. induction table as [|p table IH]; [done |].
  rewrite filter_cons. case_decide as H1; [|done].
  rewrite filter_cons. by case_decide.
Qed.

Lemma topics_of_delete_other i j table :
  i <> j -> topics_of i (delete_topics j table) = topics_of i table.
Proof.
  intros Hij. unfold topics_of, delete_topics. induction table as [|p table IH]; [done |].
  rewrite (filter_cons (fun p => p.1 <> j)). case_decide as H1.
  - rewrite !(filter_cons (fun p => p.1 = i)). case_decide; simpl; by rewrite IH.
  - rewrite (filter_cons (fun p => p.1 = i)). case_decide as H2; [|done].
    congruence.
Qed.

Lemma topics_of_pairs_self i (l : list string) : topics_of i (map (pair i) l) = l.
Proof.
  unfold topics_of. induction l as [|t l IH]; [done |].
  simpl. rewrite filter_cons. simpl. case_decide; [|done]. simpl. by rewrite IH.
Qed.

Lemma topics_of_pairs_other i j (l : list string) :
  i <> j -> topics_of i (map (pair j) l) = [].
Proof.
  intros Hij. unfold topics_of. induction l as [|t l IH]; [done |].
  simpl. rewrite filter_cons. simpl. case_decide; [congruence | done].
Qed.

Lemma run_topic_stmts_cons ts r repos work :
  run_topic_stmts ts (r :: repos) work =
  run_topic_stmts ts repos
    (fold_left (fun acc s => exec_stmt ts s acc) (topic_stmts r) work).
Proof. unfold run_topic_stmts. simpl. by rewrite fold_left_app. Qed.

Lemma run_topic_stmts_app ts pre post work :
  run_topic_stmts ts (pre ++ post) work =
  run_topic_stmts ts post (run_topic_stmts ts pre work).
Proof. unfold run_topic_stmts. by rewrite flat_map_app, fold_left_app. Qed.

(** The topic steps of one record replace its topic rows when it has
    topics, and do nothing when it has none. *)
Lemma topic_stmts_self ts (r : ExtendedRepositoryStats) work :
  topics_of (id r)
    (repository_topics (fold_left (fun acc s => exec_stmt ts s acc) (topic_stmts r) work))
  = match topics r with
    | Some (t :: l) => t :: l
    | _ => topics_of (id r) (repository_topics work)
    end.
Proof.
  unfold topic_stmts. destruct (topics r) as [[|t l]|]; simpl; [done | | done].
  unfold insert_topics. rewrite topics_of_app, topics_of_delete_self.
  by rewrite (topics_of_pairs_self (id r) (t :: l)).
Qed.

Lemma topic_stmts_other ts (r : ExtendedRepositoryStats) work i :
  id r <> i ->
  topics_of i
    (repository_topics (fold_left (fun acc s => exec_stmt ts s acc) (topic_stmts r) work))
  = topics_of i (repository_topics work).
Proof.
  intros Hi. unfold topic_stmts. destruct (topics r) as [[|t l]|]; simpl; [done | | done].
  unfold insert_topics. rewrite topics_of_app, topics_of_delete_other by done.
  rewrite (topics_of_pairs_other i (id r) (t :: l)) by done. by rewrite app_nil_r.
Qed.

Lemma run_topic_stmts_other ts repos work i :
  Forall (fun x : ExtendedRepositoryStats => id x <> i) repos ->
  topics_of i (repository_topics (run_topic_stmts ts repos work))
  = topics_of i (repository_topics work).
Proof.
  intros H. revert work. induction H as [|r repos Hr _ IH]; intros work; [done |].
  rewrite run_topic_stmts_cons, IH. by apply topic_stmts_other.
Qed.

Lemma commit_topics ts snapshot store :
  repository_topics (commit ts snapshot store) =
  repository_topics (run_topic_stmts ts snapshot store).
Proof.
  rewrite commit_unfold. unfold try_block, run_topic_stmts.
  rewrite !fold_left_app. simpl.
  set (f := fold_left _ (flat_map topic_stmts snapshot)).
  assert (forall w1 w2, repository_topics w1 = repository_topics w2 ->
                        repository_topics (f w1) = repository_topics (f w2)) as Hf.
  { subst f. induction (flat_map topic_stmts snapshot) as [|s l IH]; intros w1 w2 H; [done |].
    simpl. apply IH. destruct s; simpl; congruence. }
  by apply Hf.
Qed.

Lemma topics_of_commit ts snapshot store (r : ExtendedRepositoryStats) :
  r ∈ snapshot ->
  NoDup (map (fun x : ExtendedRepositoryStats => id x) snapshot) ->
  topics_of (id r) (repository_topics (commit ts snapshot store))
  = match topics r with
    | Some (t :: l) => t :: l
    | _ => topics_of (id r) (repository_topics store)
    end.
Proof.
  intros Hin Hnd.
  destruct (snapshot_split snapshot r Hin Hnd) as (pre & post & -> & Hpre & Hpost).
  rewrite commit_topics, run_topic_stmts_app, run_topic_stmts_cons.
  rewrite run_topic_stmts_other by done.
  rewrite topic_stmts_self.
  by rewrite (run_topic_stmts_other ts pre store (id r)) by done.
Qed.

(** **** The service *)

Lemma begin_batch_guard w :
  processing w = true \/ batch w = [] -> begin_batch w = None.
Proof.
  intros [H | H]; unfold begin_batch; rewrite H; [done |].
  by rewrite orb_true_r.
Qed.

Lemma processBatch_in_progress fault w : processing w = true -> processBatch fault w = w.
Proof. intros H. unfold processBatch. by rewrite begin_batch_guard by auto. Qed.

Lemma end_batch_committed w snapshot :
  inflight w = Some snapshot ->
  let w' := end_batch None w in
  batch w' = batch w /\
  processedRepos w' = processedRepos w ∪ names snapshot /\
  processing w' = false /\
  lastProcessTime w' = clock w /\
  db w' = commit (clock w) snapshot (db w) /\
  clock w' = clock w /\
  inflight w' = None /\
  flushes w' = flushes w /\
  committed w' = committed w ++ [snapshot].
Proof.
  intros H. unfold end_batch. rewrite H. cbn [fault_step]. rewrite run_stmts_no_fault.
  rewrite <- commit_unfold. by repeat split.
Qed.

Lemma end_batch_failed w snapshot k :
  inflight w = Some snapshot ->
  fails (clock w) k snapshot (db w) ->
  let w' := end_batch (Some (FailsAt k)) w in
  batch w' = snapshot ++ batch w /\
  processedRepos w' = processedRepos w /\
  processing w' = false /\
  lastProcessTime w' = lastProcessTime w /\
  db w' = db w /\
  clock w' = clock w + backoffDelay (length (snapshot ++ batch w)) /\
  inflight w' = None /\
  flushes w' = flushes w /\
  committed w' = committed w.
Proof.
  intros H Hf. unfold end_batch, fails in *. rewrite H. cbn [fault_step].
  destruct (run_stmts _ _ _ _) as [work ok]. simpl in Hf. subst ok.
  by repeat split.
Qed.

(** When [ROLLBACK] throws as well, the [catch] block is left before it
    has put the snapshot back: the snapshot is in neither the batch nor the
    store, and the error goes to the caller. *)
Lemma end_batch_connection_lost w snapshot k :
  inflight w = Some snapshot ->
  fails (clock w) k snapshot (db w) ->
  let w' := end_batch (Some (ConnectionLostAt k)) w in
  batch w' = batch w /\
  processedRepos w' = processedRepos w /\
  processing w' = false /\
  db w' = db w /\
  clock w' = clock w /\
  committed w' = committed w /\
  raised w' = S (raised w).
Proof.
  intros H Hf. unfold end_batch, fails in *. rewrite H. cbn [fault_step].
  destruct (run_stmts _ _ _ _) as [work ok]. simpl in Hf. subst ok.
  by repeat split.
Qed.

(** Whatever the fault, the block either fails or runs as without fault. *)
Lemma run_stmts_outcome ts fault stmts work :
  (run_stmts ts fault stmts work).2 = false \/
  run_stmts ts fault stmts work = run_stmts ts None stmts work.
Proof.
  revert fault work. induction stmts as [|s stmts IH]; intros fault work; simpl; [by right |].
  destruct fault as [[|k]|]; [by left | | by right].
  destruct (IH (Some k) (exec_stmt ts s work)) as [H | H]; [by left | right].
  rewrite H. by rewrite !run_stmts_no_fault.
Qed.

(** **** The back-off delay *)

Lemma bisect_spec fuel (p : Z -> bool) lo hi :
  lo <= hi -> hi - lo < 2 ^ Z.of_nat fuel -> p lo = true ->
  (forall d d', lo <= d' <= d -> d <= hi -> p d = true -> p d' = true) ->
  lo <= bisect fuel p lo hi <= hi /\
  p (bisect fuel p lo hi) = true /\
  forall d, bisect fuel p lo hi < d <= hi -> p d = false.
Proof.
  revert lo hi. induction fuel as [|fuel IH]; intros lo hi Hle Hfuel Hlo Hanti.
  - simpl in *. assert (hi = lo) as -> by lia. split_and!; [lia | lia | done | intros; lia].
  - cbn [bisect]. destruct (hi <=? lo) eqn:E.
    + apply Z.leb_le in E. assert (hi = lo) as -> by lia.
      split_and!; [lia | lia | done | intros; lia].
    + apply Z.leb_gt in E.
      rewrite Nat2Z.inj_succ, Z.pow_succ_r in Hfuel by lia.
      pose proof (Z.div_mod (lo + hi + 1) 2 ltac:(lia)) as Hdm.
      pose proof (Z.mod_pos_bound (lo + hi + 1) 2 ltac:(lia)) as Hmb.
      set (mid := (lo + hi + 1) / 2) in *.
      destruct (p mid) eqn:Hmid.
      * destruct (IH mid hi) as (H1 & H2 & H3); [lia | lia | done | |].
        { intros d d' Hd Hhi. apply Hanti; lia. }
        split_and!; [lia | lia | done | done].
      * destruct (IH lo (mid - 1)) as (H1 & H2 & H3); [lia | lia | done | |].
        { intros d d' Hd Hhi. apply Hanti; lia. }
        split_and!; [lia | lia | done |].
        intros d Hd. destruct (Z_le_gt_dec d (mid - 1)) as [Hs | Hs]; [apply H3; lia |].
        destruct (p d) eqn:Hpd; [|done].
        rewrite (Hanti d mid) in Hmid; [done | lia | lia | done].
Qed.

(** The delay is the truncation of [min (5000 * 2^(n/50)) 30000]: between
    5000 and 30000, with [d^50 <= 5000^50 * 2^n], and the next integer
    above that bound unless the cap is reached. *)
Lemma backoffDelay_spec n :
  5000 <= backoffDelay n <= 30000 /\
  backoffDelay n ^ 50 <= 5000 ^ 50 * 2 ^ Z.of_nat n /\
  (backoffDelay n < 30000 -> 5000 ^ 50 * 2 ^ Z.of_nat n < (backoffDelay n + 1) ^ 50).
Proof.
  unfold backoffDelay.
  set (p := fun d => d ^ 50 <=? 5000 ^ 50 * 2 ^ Z.of_nat n).
  assert (0 < 2 ^ Z.of_nat n) as Hpow by (apply Z.pow_pos_nonneg; lia).
  assert (0 < 5000 ^ 50) as Hc by (apply Z.pow_pos_nonneg; lia).
  destruct (bisect_spec 16 p 5000 30000) as (H1 & H2 & H3).
  - lia.
  - change (2 ^ Z.of_nat 16) with 65536. lia.
  - unfold p. apply Z.leb_le. generalize dependent (5000 ^ 50). intros; nia.
  - intros d d' Hd Hhi. unfold p. rewrite !Z.leb_le. intros Hpd.
    etransitivity; [|exact Hpd]. apply Z.pow_le_mono_l. lia.
  - split_and!; [lia | lia | by apply Z.leb_le |].
    intros Hlt. apply Z.lt_nge. rewrite <- Z.leb_nle. apply H3. lia.
Qed.

(** A longer backlog never shortens the delay. *)
Lemma backoffDelay_mono n m : (n <= m)%nat -> backoffDelay n <= backoffDelay m.
Proof.
  intros Hnm.
  destruct (backoffDelay_spec n) as (Hb & Hp & _).
  destruct (backoffDelay_spec m) as (Hb' & _ & Hq).
  destruct (Z_le_gt_dec (backoffDelay n) (backoffDelay m)) as [|Hgt]; [done | exfalso].
  assert (backoffDelay m < 30000) as Hlt by (clear Hp Hq; lia). specialize (Hq Hlt).
  assert ((backoffDelay m + 1) ^ 50 <= backoffDelay n ^ 50) as Hmono.
  { apply Z.pow_le_mono_l. clear Hp Hq. lia. }
  assert (5000 ^ 50 * 2 ^ Z.of_nat n <= 5000 ^ 50 * 2 ^ Z.of_nat m) as Hexp.
  { apply Z.mul_le_mono_nonneg_l; [by apply Z.pow_nonneg |].
    apply Z.pow_le_mono_r; lia. }
  remember (backoffDelay n ^ 50) as A. remember ((backoffDelay m + 1) ^ 50) as B.
  remember (5000 ^ 50 * 2 ^ Z.of_nat n) as C. remember (5000 ^ 50 * 2 ^ Z.of_nat m) as D.
  clear - Hp Hq Hmono Hexp. lia.
Qed.

Lemma begin_batch_idle w :
  processing w = false -> batch w <> [] ->
  exists w1,
    begin_batch w = Some w1 /\
    batch w1 = drop BATCH_SIZE (batch w) /\
    inflight w1 = Some (take BATCH_SIZE (batch w)) /\
    processedRepos w1 = processedRepos w /\
    db w1 = db w /\
    committed w1 = committed w /\
    flushes w1 = S (flushes w) /\
    scheduled w1 = scheduled w /\
    clock w <= clock w1.
Proof.
  intros Hp Hb. unfold begin_batch. rewrite Hp. simpl.
  rewrite bool_decide_eq_false_2 by done.
  eexists. split; [reflexivity |]. simpl. split_and!; try done.
  case_bool_decide; unfold MIN_BATCH_INTERVAL in *; lia.
Qed.

Lemma flush_idle w :
  processing w = false -> batch w <> [] ->
  exists w1,
    begin_batch w = Some w1 /\ flush None w = end_batch None w1.
Proof.
  intros Hp Hb. destruct (begin_batch_idle w Hp Hb) as (w1 & H1 & _).
  exists w1. split; [done |]. unfold flush, processBatch.
  destruct (batch w) as [|r l] eqn:E; [done |]. simpl. by rewrite H1.
Qed.

Lemma upsert_row_written ts (repo : ExtendedRepositoryStats) table :
  exists row, row ∈ upsert_row ts repo table /\ written row repo.
Proof.
  induction table as [|old table (row & Hin & Hw)]; simpl.
  - exists (inserted_row ts repo). split; [by left | apply written_inserted].
  - case_bool_decide as Hid.
    + exists (updated_row ts old repo). split; [by left | by apply written_updated].
    + exists row. split; [by right | done].
Qed.

Lemma elem_of_rows_with i table row : row ∈ rows_with i table <-> row ∈ table /\ r_id row = i.
Proof. unfold rows_with. rewrite list_elem_of_filter. tauto. Qed.

Lemma commit_written ts snapshot store (r : ExtendedRepositoryStats) :
  r ∈ snapshot ->
  NoDup (map (fun x : ExtendedRepositoryStats => id x) snapshot) ->
  exists row, row ∈ repositories (commit ts snapshot store) /\ written row r.
Proof.
  intros Hin Hnd.
  destruct (snapshot_split snapshot r Hin Hnd) as (pre & post & -> & Hpre & Hpost).
  rewrite commit_repositories. unfold upsert_rows. rewrite fold_left_app. simpl.
  set (t1 := fold_left _ pre _).
  destruct (upsert_row_written ts r t1) as (row & Hrow & Hw).
  exists row. split; [|done].
  assert (row ∈ rows_with (id r) (upsert_row ts r t1)) as Hr.
  { apply elem_of_rows_with. split; [done |]. by destruct Hw. }
  rewrite <- (rows_with_upsert_rows_other ts post _ (id r)) in Hr by done.
  by apply elem_of_rows_with in Hr as [Hr _].
Qed.

(** What holds when [ROLLBACK] goes through.  If a step of the [try] block
    throws, then when [processBatch] returns the store is as it was before
    the transaction began (no row or topic of the snapshot is visible),
    every record of the snapshot is back at the front of the pending batch
    in its original order, ahead of what was queued meanwhile, nothing has
    been marked as processed, and the clock has moved by the back-off delay
    computed from the backlog: between 5 and 30 seconds, doubling every
    fifty records and never shorter for a longer backlog.  Whatever the
    fault, the store after the call is either the store before it or the
    store with the whole snapshot applied. *)
Lemma processBatch_failure_rolls_back w snapshot k :
  inflight w = Some snapshot ->
  fails (clock w) k snapshot (db w) ->
  let w' := end_batch (Some (FailsAt k)) w in
  db w' = db w /\
  batch w' = snapshot ++ batch w /\
  processedRepos w' = processedRepos w /\
  committed w' = committed w /\
  processing w' = false /\
  clock w' = clock w + backoffDelay (length (batch w')) /\
  5000 <= backoffDelay (length (batch w')) <= 30000 /\
  backoffDelay (length (batch w')) ^ 50 <= 5000 ^ 50 * 2 ^ Z.of_nat (length (batch w')) /\
  (forall n, (n <= length (batch w'))%nat -> backoffDelay n <= backoffDelay (length (batch w'))) /\
  (forall f, db (end_batch f w) = db w \/
             db (end_batch f w) = commit (clock w) snapshot (db w)).
Proof.
  intros Hin Hf.
  destruct (end_batch_failed w snapshot k Hin Hf)
    as (Hb & Hp & Hpr & _ & Hdb & Hc & _ & _ & Hco).
  cbv zeta. rewrite Hb.
  destruct (backoffDelay_spec (length (snapshot ++ batch w))) as ([Hlo Hhi] & Hpow & _).
  split_and!; try done.
  - intros n Hn. by apply backoffDelay_mono.
  - intros f. destruct f as [[j | j |]|].
    + destruct (run_stmts_outcome (clock w) (Some j) (try_block snapshot) (db w)) as [H | H].
      * left. by destruct (end_batch_failed w snapshot j Hin H) as (_ & _ & _ & _ & ? & _).
      * right. unfold end_batch. rewrite Hin. cbn [fault_step].
        rewrite H, run_stmts_no_fault. by rewrite <- commit_unfold.
    + destruct (run_stmts_outcome (clock w) (Some j) (try_block snapshot) (db w)) as [H | H].
      * left. by destruct (end_batch_connection_lost w snapshot j Hin H) as (_ & _ & _ & ? & _).
      * right. unfold end_batch. rewrite Hin. cbn [fault_step].
        rewrite H, run_stmts_no_fault. by rewrite <- commit_unfold.
    + left. unfold end_batch. by rewrite Hin.
    + right. by destruct (end_batch_committed w snapshot Hin) as (_ & _ & _ & _ & ? & _).
Qed.

(** The fault falls on the insertion of the topics of the first record:
    the working copy already holds the upserted rows. *)
Lemma processBatch_failure_rolls_back_example :
  fails (clock world_inflight) 5 snapshot_inflight (db world_inflight) /\
  db (end_batch (Some (FailsAt 5)) world_inflight) = db world_inflight /\
  batch (end_batch (Some (FailsAt 5)) world_inflight)
  = snapshot_inflight ++ batch world_inflight.
Proof.
  split; [vm_compute; reflexivity |].
  destruct (processBatch_failure_rolls_back world_inflight snapshot_inflight 5)
    as (H1 & H2 & _); [vm_compute; reflexivity | vm_compute; reflexivity |].
  by split.
Qed.

(** C2, on the code.  The service holds a snapshot of two records, with a
    third record queued behind it; the connection is lost while the
    multi-row upsert runs, so the upsert throws and the [ROLLBACK] of the
    [catch] block throws too.  When [processBatch] ends, with the error
    going to its caller and no back-off delay, the two records of the
    snapshot are in neither the store nor the pending batch. *)
Theorem processBatch_connection_lost_drops_snapshot :
  inflight world_inflight = Some snapshot_inflight /\
  fails (clock world_inflight) 2 snapshot_inflight (db world_inflight) /\
  let w' := end_batch (Some (ConnectionLostAt 2)) world_inflight in
  batch w' = batch world_inflight /\
  length (batch w') = 1%nat /\
  repositories (db w') = [] /\
  committed w' = [] /\
  clock w' = clock world_inflight /\
  raised w' = 1%nat /\
  processing w' = false.
Proof. vm_compute. by repeat split. Qed.

(** The same for a call that nothing interleaves with: the batch is as it
    was before the call. *)
Lemma processBatch_failure_restores w k :
  processing w = false -> batch w <> [] ->
  (forall ts, fails ts k (take BATCH_SIZE (batch w)) (db w)) ->
  batch (processBatch (Some (FailsAt k)) w) = batch w /\
  db (processBatch (Some (FailsAt k)) w) = db w.
Proof.
  intros Hp Hb Hf. destruct (begin_batch_idle w Hp Hb) as (w1 & H1 & Hb1 & Hi1 & _ & Hd1 & _).
  unfold processBatch. rewrite H1.
  assert (fails (clock w1) k (take BATCH_SIZE (batch w)) (db w1)) as Hf1
    by (rewrite Hd1; apply Hf).
  destruct (end_batch_failed w1 _ k Hi1 Hf1) as (Hb2 & _ & _ & _ & Hd2 & _).
  rewrite Hb2, Hd2, Hb1, Hd1. by rewrite take_drop.
Qed.


Lemma flush_in_progress_example :
  let w := run ops_in_progress (initial 100000 empty_store) in
  processing w = true /\
  length (batch w) = 1%nat /\
  flush None w = w /\
  committed (flush None w) = [] /\
  repositories (db (flush None w)) = [].
Proof. vm_compute. done. Qed.

(** The same with no flush in progress, when more than fifty records are
    pending (here fifty-one, after two failed automatic flushes): the
    transaction of the call commits, and when it returns one record is
    still pending and is not in the store. *)
Lemma flush_backlog_example :
  let w := run ops_backlog (initial 100000 empty_store) in
  processing w = false /\
  length (batch w) = 51%nat /\
  length (batch (flush None w)) = 1%nat /\
  length (repositories (db (flush None w))) = 50%nat.
Proof. vm_compute. done. Qed.

(** A [flush] with no flush in progress, on a non-empty batch, whose
    transaction commits. *)
Lemma flush_commits_one_snapshot_aux w :
  processing w = false -> batch w <> [] ->
  batch (flush None w) = drop BATCH_SIZE (batch w) /\
  committed (flush None w) = committed w ++ [take BATCH_SIZE (batch w)] /\
  db (flush None w) = commit (clock (flush None w)) (take BATCH_SIZE (batch w)) (db w) /\
  processedRepos (flush None w) = processedRepos w ∪ names (take BATCH_SIZE (batch w)) /\
  flushes (flush None w) = S (flushes w).
Proof.
  intros Hp Hb.
  destruct (flush_idle w Hp Hb) as (w1 & H1 & ->).
  destruct (begin_batch_idle w Hp Hb) as (w1' & H1' & Hb1 & Hi1 & Hp1 & Hd1 & Hc1 & Hf1 & _).
  assert (w1' = w1) as -> by congruence.
  destruct (end_batch_committed w1 _ Hi1) as (Hb2 & Hp2 & _ & _ & Hd2 & Hcl2 & _ & Hf2 & Hc2).
  rewrite Hb2, Hp2, Hd2, Hc2, Hcl2, Hf2, Hb1, Hp1, Hd1, Hc1, Hf1. by split_and!.
Qed.



(** C4, the reading of the specification, refuted.  A repository is
    written with a push date and two topics, and written again in a later
    run with a later push date and no topics: the stored push date and the
    two topic rows are still those of the first record. *)
Lemma last_write_wins_refuted : ~ LastWriteWins.
Proof.
  intros H.
  destruct (H 100000 200000 empty_store repo_v1 repo_v2 "ethereum" "uncategorized")
    as (row & Hrows & Hlater & Htopics); [reflexivity | simpl; lia |].
  vm_compute in Htopics. discriminate Htopics.
Qed.

(** The push date alone already differs. *)
Lemma last_write_wins_pushed_at_example :
  let w1 := flush None (queueRepository repo_v1 "ethereum" "uncategorized" None
                          (initial 100000 empty_store)) in
  let w2 := flush None (queueRepository repo_v2 "ethereum" "uncategorized" None
                          (initial 200000 (db w1))) in
  map r_pushed_at (repositories (db w2)) = [pushed_at repo_v1] /\
  map r_updated_at (repositories (db w2)) = [updated_at repo_v2] /\
  pushed_at repo_v1 <> pushed_at repo_v2 /\
  topics_of 7 (repository_topics (db w2)) = ["defi"; "wallet"].
Proof. vm_compute. split_and!; done. Qed.

(** C4, as the code has it.  Two snapshots are committed one after the
    other, each with one record for an identifier that the store holds at
    most once.  The store then has exactly one row for the identifier.  In
    that row the columns name, description, html_url, homepage, language,
    the three counts, updated_at, ecosystem and category hold the later
    record's values and updated_in_db the time of the later transaction;
    the identifier, full_name, fork, owner_html_url, created_at, pushed_at,
    license_name, languages_url, contributors_count and created_in_db are
    those of the row as the first transaction left it.  The topic rows of
    the identifier are the later record's topics when it has any, and are
    left as they were when it has none. *)
Theorem upsert_conflict_semantics w1 w2 b1 b2 (r1 r2 : ExtendedRepositoryStats) :
  inflight w1 = Some b1 ->
  inflight w2 = Some b2 ->
  db w2 = db (end_batch None w1) ->
  r1 ∈ b1 -> r2 ∈ b2 -> id r1 = id r2 ->
  NoDup (map (fun x : ExtendedRepositoryStats => id x) b1) ->
  NoDup (map (fun x : ExtendedRepositoryStats => id x) b2) ->
  (length (rows_with (id r1) (repositories (db w1))) <= 1)%nat ->
  let s1 := db (end_batch None w1) in
  let s2 := db (end_batch None w2) in
  exists row1 row2,
    rows_with (id r1) (repositories s1) = [row1] /\
    rows_with (id r2) (repositories s2) = [row2] /\
    written row2 r2 /\
    kept row2 row1 /\
    r_updated_in_db row2 = clock w2 /\
    topics_of (id r2) (repository_topics s2) =
      match topics r2 with
      | Some (t :: l) => t :: l
      | _ => topics_of (id r1) (repository_topics s1)
      end.
Proof.
  intros Hi1 Hi2 Hdb Hr1 Hr2 Hid Hnd1 Hnd2 Hlen. cbv zeta.
  destruct (end_batch_committed w1 b1 Hi1) as (_ & _ & _ & _ & Hd1 & _).
  destruct (end_batch_committed w2 b2 Hi2) as (_ & _ & _ & _ & Hd2 & _).
  rewrite Hd2, Hdb, Hd1.
  destruct (rows_with_commit (clock w1) b1 (db w1) r1 Hr1 Hnd1 Hlen) as (row1 & Hrow1 & _ & _).
  destruct (rows_with_commit (clock w2) b2 (commit (clock w1) b1 (db w1)) r2 Hr2 Hnd2)
    as (row2 & Hrow2 & Hw2 & Hold).
  { rewrite <- Hid, Hrow1. simpl. lia. }
  rewrite <- Hid, Hrow1 in Hold. subst row2.
  exists row1, (updated_row (clock w2) row1 r2).
  split; [exact Hrow1 | split; [exact Hrow2 | split; [exact Hw2 |]]].
  split; [apply kept_updated | split; [done |]].
  rewrite topics_of_commit by done. by rewrite Hid.
Qed.

Lemma upsert_conflict_witness :
  exists row1 row2,
    rows_with 7 (repositories (db (end_batch None world_first))) = [row1] /\
    rows_with 7 (repositories (db (end_batch None world_second))) = [row2] /\
    r_pushed_at row2 = pushed_at repo_v1 /\
    r_category row2 = "defi" /\
    topics_of 7 (repository_topics (db (end_batch None world_second))) = ["bridge"].
Proof.
  destruct (upsert_conflict_semantics world_first world_second
              [extend "ethereum" "uncategorized" repo_v1]
              [extend "ethereum" "defi" repo_v3]
              (extend "ethereum" "uncategorized" repo_v1)
              (extend "ethereum" "defi" repo_v3))
    as (row1 & row2 & H1 & H2 & Hw & Hk & _ & Ht).
  - vm_compute; reflexivity.
  - vm_compute; reflexivity.
  - vm_compute; reflexivity.
  - by left.
  - by left.
  - reflexivity.
  - apply NoDup_singleton.
  - apply NoDup_singleton.
  - vm_compute. lia.
  - exists row1, row2.
    split; [exact H1 | split; [exact H2 | split; [| split; [| exact Ht]]]].
    + destruct Hk as (_ & _ & _ & _ & _ & Hp & _). rewrite Hp.
      vm_compute in H1. injection H1 as <-. reflexivity.
    + by destruct Hw as (_ & _ & _ & _ & _ & _ & _ & _ & _ & _ & _ & ?).
Defined.

(** **** Queueing *)

Lemma push_push_all r w : push r w = push_all [r] w.
Proof. reflexivity. Qed.

Lemma push_all_nil w : push_all [] w = w.
Proof. destruct w. unfold push_all. simpl. by rewrite app_nil_r. Qed.

Lemma push_all_app l1 l2 w : push_all l2 (push_all l1 w) = push_all (l1 ++ l2) w.
Proof. unfold push_all. simpl. by rewrite app_assoc. Qed.

(** A record that is not marked as processed and does not fill the batch
    is appended, and that is all. *)
Lemma queueRepository_below repo eco cat fault w :
  full_name repo ∉ processedRepos w ->
  (length (batch w) + 1 < BATCH_SIZE)%nat ->
  queueRepository repo eco cat fault w = push_all [extend eco cat repo] w.
Proof.
  intros Hn Hlen. unfold queueRepository.
  rewrite bool_decide_eq_false_2 by done. cbv zeta.
  replace (BATCH_SIZE <=? _)%nat with false; [done |].
  symmetry. apply Nat.leb_gt. unfold push. simpl. rewrite length_app. simpl. lia.
Qed.

Lemma queue_all_below eco cat fault repos w :
  Forall (fun r : GithubRepositoryStats => full_name r ∉ processedRepos w) repos ->
  (length (batch w) + length repos < BATCH_SIZE)%nat ->
  run (queue_all eco cat fault repos) w = push_all (map (extend eco cat) repos) w.
Proof.
  intros H. revert w H. induction repos as [|r repos IH]; intros w H Hlen.
  - simpl. by rewrite push_all_nil.
  - apply Forall_cons in H as [Hr H]. simpl in *.
    rewrite queueRepository_below by (done || lia).
    rewrite IH; [by rewrite push_all_app | done | simpl; rewrite length_app; simpl; lia].
Qed.

(** What a call to [queueRepository] does to the set of processed names:
    nothing, unless the flush it triggers commits a snapshot, whose names
    are then added. *)
Lemma queueRepository_processed repo eco cat fault w :
  (processedRepos (queueRepository repo eco cat fault w) = processedRepos w /\
   committed (queueRepository repo eco cat fault w) = committed w) \/
  (exists snapshot,
      committed (queueRepository repo eco cat fault w) = committed w ++ [snapshot] /\
      processedRepos (queueRepository repo eco cat fault w)
      = processedRepos w ∪ names snapshot).
Proof.
  unfold queueRepository. case_bool_decide; [by left |]. cbv zeta.
  destruct (BATCH_SIZE <=? _)%nat; [|by left].
  unfold processBatch. destruct (begin_batch (push _ w)) as [w1|] eqn:E; [|by left].
  assert (processedRepos w1 = processedRepos w /\ committed w1 = committed w
          /\ exists snapshot, inflight w1 = Some snapshot) as (Hp & Hc & snapshot & Hi).
  { unfold begin_batch in E. destruct (_ || _); [done |]. injection E as <-. simpl. eauto. }
  assert (forall j, run_stmts (clock w1) (Some j) (try_block snapshot) (db w1)
                    = run_stmts (clock w1) None (try_block snapshot) (db w1) ->
                    forall f, fault_step f = Some j -> f <> Some ConnectFails ->
                              end_batch f w1 = end_batch None w1) as Hsame.
  { intros j Hj f Hfs Hne. unfold end_batch. rewrite Hi.
    destruct f as [[| |]|]; simpl in Hfs; try done; injection Hfs as ->;
      cbn [fault_step]; rewrite Hj, run_stmts_no_fault; done. }
  assert (exists snap,
             committed (end_batch None w1) = committed w ++ [snap] /\
             processedRepos (end_batch None w1) = processedRepos w ∪ names snap) as Hcommit.
  { exists snapshot.
    destruct (end_batch_committed w1 snapshot Hi) as (_ & ? & _ & _ & _ & _ & _ & _ & ?).
    split; congruence. }
  destruct fault as [[k | k |]|].
  - destruct (run_stmts_outcome (clock w1) (Some k) (try_block snapshot) (db w1)) as [Hf | Hok].
    + left. destruct (end_batch_failed w1 snapshot k Hi Hf) as (_ & ? & _ & _ & _ & _ & _ & _ & ?).
      split; congruence.
    + right. by rewrite (Hsame k Hok).
  - destruct (run_stmts_outcome (clock w1) (Some k) (try_block snapshot) (db w1)) as [Hf | Hok].
    + left. destruct (end_batch_connection_lost w1 snapshot k Hi Hf) as (_ & ? & _ & _ & _ & ? & _).
      split; congruence.
    + right. by rewrite (Hsame k Hok).
  - left. unfold end_batch. rewrite Hi. simpl. by split.
  - by right.
Qed.

(** C10.  [queueRepository] does not add the name of the record it queues
    to the set of processed names: a call changes that set only by the
    names of a snapshot that its flush has committed.  So a record whose
    name is not in the set, queued twice while the batch stays below its
    size, is in the batch twice, and no flush has run. *)
Theorem queueRepository_marks_nothing repo eco cat f1 f2 w :
  full_name repo ∉ processedRepos w ->
  (length (batch w) + 2 < BATCH_SIZE)%nat ->
  let w1 := queueRepository repo eco cat f1 w in
  let w2 := queueRepository repo eco cat f2 w1 in
  processedRepos w1 = processedRepos w /\
  processedRepos w2 = processedRepos w /\
  batch w2 = batch w ++ [extend eco cat repo; extend eco cat repo] /\
  flushes w2 = flushes w /\
  committed w2 = committed w /\
  (forall r e c f w0,
      committed (queueRepository r e c f w0) = committed w0 ->
      processedRepos (queueRepository r e c f w0) = processedRepos w0).
Proof.
  intros Hn Hlen. cbv zeta.
  rewrite (queueRepository_below repo eco cat f1 w) by (done || lia).
  rewrite (queueRepository_below repo eco cat f2)
    by (done || simpl; rewrite length_app; simpl; lia).
  rewrite push_all_app. simpl. split_and!; try done.
  intros r e c f w0 Hc.
  destruct (queueRepository_processed r e c f w0) as [[? _] | (snapshot & Hc' & _)]; [done |].
  rewrite Hc in Hc'. apply (f_equal length) in Hc'. rewrite length_app in Hc'. simpl in Hc'. lia.
Qed.

Lemma queueRepository_marks_nothing_witness :
  batch (queueRepository repo_v1 "ethereum" "defi" None
           (queueRepository repo_v1 "ethereum" "defi" None (initial 100000 empty_store)))
  = [extend "ethereum" "defi" repo_v1; extend "ethereum" "defi" repo_v1].
Proof.
  refine (proj1 (proj2 (proj2 (queueRepository_marks_nothing repo_v1 "ethereum" "defi" None None
                   (initial 100000 empty_store) _ _)))).
  - apply not_elem_of_empty.
  - vm_compute. lia.
Defined.

Lemma names_spec (snapshot : list ExtendedRepositoryStats) n :
  n ∈ names snapshot <-> exists r : ExtendedRepositoryStats, r ∈ snapshot /\ full_name r = n.
Proof.
  unfold names. rewrite elem_of_list_to_set, list_elem_of_fmap. split.
  - intros (r & -> & Hr). eauto.
  - intros (r & Hr & <-). eauto.
Qed.

(** The fiftieth record fills the batch: the call flushes, and when its
    transaction commits the batch is empty. *)
Lemma queueRepository_fills repo eco cat w :
  full_name repo ∉ processedRepos w ->
  processing w = false ->
  (length (batch w) + 1 = BATCH_SIZE)%nat ->
  let snapshot := batch w ++ [extend eco cat repo] in
  let w' := queueRepository repo eco cat None w in
  batch w' = [] /\
  flushes w' = S (flushes w) /\
  committed w' = committed w ++ [snapshot] /\
  processedRepos w' = processedRepos w ∪ names snapshot /\
  processing w' = false.
Proof.
  intros Hn Hp Hlen. cbv zeta. unfold queueRepository.
  rewrite bool_decide_eq_false_2 by done. cbv zeta.
  replace (BATCH_SIZE <=? _)%nat with true
    by (symmetry; apply Nat.leb_le; unfold push; simpl; rewrite length_app; simpl; lia).
  change {| stats := repo; ecosystem := eco; category := cat |} with (extend eco cat repo).
  set (w0 := push (extend eco cat repo) w).
  assert (batch w0 <> []) as Hne by (unfold w0, push; simpl; by destruct (batch w)).
  destruct (begin_batch_idle w0 Hp Hne) as (w1 & H1 & Hb1 & Hi1 & Hp1 & _ & Hc1 & Hf1 & _).
  unfold processBatch. rewrite H1.
  destruct (end_batch_committed w1 _ Hi1) as (Hb2 & Hp2 & Hpr2 & _ & _ & _ & _ & Hf2 & Hc2).
  assert (take BATCH_SIZE (batch w0) = batch w ++ [extend eco cat repo]) as Htake.
  { unfold w0, push. simpl. apply take_ge. rewrite length_app. simpl. lia. }
  assert (drop BATCH_SIZE (batch w0) = []) as Hdrop.
  { unfold w0, push. simpl. apply drop_ge. rewrite length_app. simpl. lia. }
  rewrite Hb2, Hp2, Hf2, Hc2, Hb1, Hp1, Hc1, Hf1, Htake, Hdrop. by split_and!.
Qed.



End WriterFacts.

Module LimiterFacts.
Import Limiter.

(** Projections of the updated limiter. *)
Ltac proj_simpl :=
  cbn [trace now processing wake queue next_uid loop file timers disk
       set_file set_queue set_timers set_disk record sleep exit_loop
       updateFailedPromises tick grant_times flat_map app] in *.

(** **** Delays *)

Lemma calculateDelay_min l : BASE_DELAY <= calculateDelay l.
Proof.
  unfold calculateDelay, BASE_DELAY, MAX_DELAY, HOURLY_LIMIT.
  change (1000 * 3 / 2) with 1500.
  repeat match goal with |- context [if ?c then _ else _] => destruct c end; lia.
Qed.

Lemma burstDelay_nonneg l : 0 <= burstDelay l.
Proof.
  unfold burstDelay, BURST_DELAY. apply Z.min_glb; [|lia].
  apply Z.div_pos; lia.
Qed.

(** **** Pacing: admissions are at least one second apart *)

Lemma reject_all_facts (q : list QueueItem) ts a :
  let r := fold_left
             (fun acc item =>
                updateFailedPromises (record (Rejected (uid item) ts SaveStateFailed) acc))
             q a in
  grant_times (trace r) = grant_times (trace a) /\
  now r = now a /\ processing r = processing a /\ wake r = wake a /\
  next_uid r = next_uid a.
Proof.
  revert a. induction q as [|x q IH]; intros a; [done |].
  simpl fold_left. cbv zeta in *.
  destruct (IH (updateFailedPromises (record (Rejected (uid x) ts SaveStateFailed) a)))
    as (H1 & H2 & H3 & H4 & H5).
  rewrite H1, H2, H3, H4, H5. done.
Qed.

Lemma emergency_facts l :
  grant_times (trace (emergency l)) = grant_times (trace l) /\
  processing (emergency l) = false /\
  now (emergency l) = now l.
Proof.
  unfold emergency. cbv zeta.
  set (l1 := set_file _ l).
  destruct (reject_all_facts (queue l1) (now l) l1) as (H1 & H2 & _).
  cbv zeta in *. unfold exit_loop, set_queue. cbn [trace processing now].
  rewrite H1, H2. by unfold l1.
Qed.

Lemma run_ready_same l l' :
  processing l' = processing l ->
  grant_times (trace l') = grant_times (trace l) ->
  now l' = now l ->
  run_ready l -> run_ready l'.
Proof. unfold run_ready. intros -> -> ->. done. Qed.

Lemma paced_exit l : run_ready l -> Paced (exit_loop l).
Proof. intros (Hp & Hs & Hf). unfold Paced, horizon. proj_simpl. done. Qed.

Lemma paced_sleep ms pc l : run_ready l -> 0 <= ms -> Paced (sleep ms pc l).
Proof.
  intros (Hp & Hs & Hf) Hms. unfold Paced, horizon. proj_simpl. rewrite Hp.
  split; [done |]. eapply Forall_impl; [exact Hf |]. intros t Ht. simpl in Ht. lia.
Qed.

Lemma paced_emergency l : run_ready l -> Paced (emergency l).
Proof.
  intros (Hp & Hs & Hf). destruct (emergency_facts l) as (H1 & H2 & H3).
  unfold Paced, horizon. by rewrite H1, H2, H3.
Qed.

Lemma paced_grant (item : QueueItem) pc l0 l :
  run_ready l ->
  processing l0 = processing l -> now l0 = now l -> trace l0 = trace l ->
  let l3 := record (Resolved (uid item) (now l) (retryCount item)) l0 in
  Paced (sleep (calculateDelay l3) pc l3).
Proof.
  intros (Hp & Hs & Hf) Hp0 Hn0 Ht0. cbv zeta.
  pose proof (calculateDelay_min
                (record (Resolved (uid item) (now l) (retryCount item)) l0)) as Hd.
  unfold Paced, horizon. proj_simpl. rewrite Hp0, Hp, Ht0, Hn0.
  split.
  - split; [exact Hf | exact Hs].
  - constructor; [lia |]. eapply Forall_impl; [exact Hf |]. intros t Ht. simpl in Ht.
    unfold BASE_DELAY in *. lia.
Qed.

(** A burst, from any of its turns, leaves the admissions paced. *)
Lemma burst_from_paced n i b st l : run_ready l -> Paced (burst_from n i b st l).
Proof.
  revert i st l. induction n as [|n IH]; intros i st l Hr; cbn [burst_from].
  - unfold after_burst. destruct (queue l); [by apply paced_exit |].
    apply paced_sleep; [done | apply burstDelay_nonneg].
  - destruct (queue l) as [|item rest] eqn:Hq; [by apply IH |].
    destruct (head (disk l)) as [[| |]|].
    + by apply paced_grant.
    + destruct (retryCount item <? MAX_RETRIES)%nat.
      * apply paced_sleep; [|unfold RETRY_DELAY; lia].
        by apply (run_ready_same l).
      * apply IH. by apply (run_ready_same l).
    + destruct (retryCount item <? MAX_RETRIES)%nat;
        apply paced_emergency; by apply (run_ready_same l).
    + by apply paced_grant.
Qed.

Lemma at_head_paced l : run_ready l -> Paced (at_head l).
Proof.
  intros Hr. unfold at_head. destruct (queue l); [by apply paced_exit |].
  destruct (_ =? 0).
  - apply paced_sleep; [done | unfold MAX_DELAY; lia].
  - by apply burst_from_paced.
Qed.

Lemma wake_loop_paced l :
  Paced l -> processing l = true -> wake l <= now l -> Paced (wake_loop l).
Proof.
  intros [Hs Hf] Hp Hw.
  assert (run_ready l) as Hr.
  { split_and!; [done | done |]. unfold horizon in Hf. rewrite Hp in Hf.
    eapply Forall_impl; [exact Hf |]. intros t Ht. simpl in Ht. lia. }
  unfold wake_loop. destruct (loop l).
  - by split.
  - by apply at_head_paced.
  - by apply burst_from_paced.
Qed.

Lemma processQueue_paced l : Paced l -> Paced (processQueue l).
Proof.
  intros [Hs Hf]. unfold processQueue. destruct (processing l) eqn:Hp; [by split |].
  destruct (queue l); [by split |].
  unfold Paced, horizon in *. rewrite Hp in Hf. by simpl.
Qed.

Lemma paced_same l l' :
  processing l' = processing l -> trace l' = trace l ->
  now l' = now l -> wake l' = wake l ->
  Paced l -> Paced l'.
Proof. unfold Paced, horizon. intros -> -> -> ->. done. Qed.

Lemma handleTimeout_paced u l : Paced l -> Paced (handleTimeout u l).
Proof.
  intros H. unfold handleTimeout. case_bool_decide; [|done].
  destruct H as [Hs Hf]. unfold Paced, horizon in *. by proj_simpl.
Qed.

Lemma step_paced l e l' : Paced l -> step l e = Some l' -> Paced l'.
Proof.
  intros H. destruct e as [key | remaining reset | | d | | u]; simpl.
  - intros [= <-]. unfold acquire. apply processQueue_paced. by apply (paced_same l).
  - intros [= <-]. unfold updateLimits. cbv zeta.
    destruct (_ && _).
    + apply processQueue_paced. by apply (paced_same l).
    + by apply (paced_same l).
  - intros [= <-]. by apply (paced_same l).
  - destruct (may_pass d l) eqn:Hm; [|done]. intros [= <-].
    unfold may_pass in Hm. apply andb_prop in Hm as [Hm _]. apply andb_prop in Hm as [Hd _].
    apply Z.leb_le in Hd. destruct H as [Hs Hf]. unfold Paced, horizon in *. proj_simpl.
    split; [done |]. destruct (processing l); [done |].
    eapply Forall_impl; [exact Hf |]. intros t Ht. simpl in Ht. lia.
  - destruct (processing l) eqn:Hp; [|done]. simpl.
    destruct (wake l <=? now l) eqn:Hw; [|done]. intros [= <-].
    apply wake_loop_paced; [done | done | by apply Z.leb_le].
  - case_bool_decide; [|done]. intros [= <-]. unfold fire.
    apply handleTimeout_paced. by apply (paced_same l).
Qed.

Lemma run_paced evs l l' : Paced l -> run evs l = Some l' -> Paced l'.
Proof.
  revert l. induction evs as [|e evs IH]; intros l H; simpl.
  - by intros [= <-].
  - destruct (step l e) as [l1|] eqn:E; [|done]. intros Hrun.
    apply (IH l1); [by apply (step_paced l e) | done].
Qed.

Lemma initial_paced ts f script : Paced (initial ts f script).
Proof. split; [done | constructor]. Qed.

(** **** Counting the admissions of an hour *)

Lemma spaced_filter (P : Z -> Prop) `{!forall t, Decision (P t)} l :
  spaced l -> spaced (filter P l).
Proof.
  induction l as [|t l IH]; [done |]. intros [Hf Hs].
  rewrite filter_cons. destruct (decide (P t)); [|by apply IH].
  split; [|by apply IH].
  apply Forall_forall. intros t' Ht'. apply list_elem_of_filter in Ht' as [_ Ht'].
  by apply (proj1 (Forall_forall _ _) Hf).
Qed.

Lemma spaced_count lo l :
  spaced l ->
  forall hi, Forall (fun t => t < hi) l ->
  BASE_DELAY * Z.of_nat (length (filter (fun t => lo <= t) l))
  <= Z.max 0 (hi - lo + BASE_DELAY - 1).
Proof.
  unfold BASE_DELAY. induction l as [|t l IH]; intros Hs hi Hhi.
  - simpl. lia.
  - destruct Hs as [Hf Hs]. apply Forall_cons in Hhi as [Ht Hhi].
    rewrite filter_cons. destruct (decide (lo <= t)) as [Hlo | Hlo].
    + simpl length. specialize (IH Hs (t - 999)).
      assert (Forall (fun t' => t' < t - 999) l) as Hbelow.
      { eapply Forall_impl; [exact Hf |]. intros t' Ht'. simpl in Ht'.
        unfold BASE_DELAY in Ht'. lia. }
      specialize (IH Hbelow). lia.
    + specialize (IH Hs hi Hhi). lia.
Qed.

(** At most 3600 admissions fall in any hour. *)
Lemma spaced_within_hour from tr :
  spaced (grant_times tr) -> (granted_within from tr <= 3600)%nat.
Proof.
  intros Hs. unfold granted_within.
  rewrite <- (list_filter_filter (fun t => from <= t) (fun t => t < from + HOUR)).
  pose proof (spaced_count from (filter (fun t => t < from + HOUR) (grant_times tr))
                (spaced_filter _ _ Hs) (from + HOUR)) as H.
  unfold HOUR, BASE_DELAY in *.
  assert (Forall (fun t => t < from + 3600000)
                 (filter (fun t => t < from + 3600000) (grant_times tr))) as Hall.
  { apply Forall_forall. intros t Ht. by apply list_elem_of_filter in Ht as [Ht _]. }
  specialize (H Hall). lia.
Qed.

(** C3.  Whatever calls are made on a limiter and whenever they are made,
    the admissions it has granted within any hour (the instants from
    [from] up to, and without, [from] + 3,600,000 ms) are at most
    [HOURLY_LIMIT] = 4500: two admissions are never less than [BASE_DELAY]
    apart, which leaves room for 3600 of them in an hour. *)
Theorem hourly_ceiling evs ts f script l from :
  run evs (initial ts f script) = Some l ->
  Z.of_nat (granted_within from (trace l)) <= HOURLY_LIMIT /\
  spaced (grant_times (trace l)).
Proof.
  intros Hrun. destruct (run_paced evs _ l (initial_paced ts f script) Hrun) as [Hs _].
  split; [|done]. pose proof (spaced_within_hour from (trace l) Hs).
  unfold HOURLY_LIMIT. lia.
Qed.

Lemma hourly_ceiling_witness :
  Z.of_nat (granted_within 0 (trace overtaken_end)) <= HOURLY_LIMIT.
Proof.
  refine (proj1 (hourly_ceiling run_overtaken 0 (getDefaultState 0) [SaveFails]
                   overtaken_end 0 _)).
  vm_compute. reflexivity.
Defined.

(** **** Order: queue and trace *)

Lemma ordered_tail h rest tr n t : Ordered (h :: rest) tr n t -> Ordered rest tr n t.
Proof.
  intros (HA & HB & HC & HD & HE & HF & HG).
  apply Forall_cons in HA as [_ HA]. destruct HC as [_ HC]. apply Forall_cons in HD as [_ HD].
  by split_and!.
Qed.

Lemma ordered_grant h rest tr n t :
  Ordered (h :: rest) tr n t ->
  Ordered rest (Resolved (uid h) t (retryCount h) :: tr) n t.
Proof.
  intros (HA & HB & HC & HD & HE & HF & HG).
  apply Forall_cons in HA as [Hh HA]. destruct HC as [Hfresh HC].
  apply Forall_cons in HD as [Hhd HD].
  split_and!.
  - done.
  - by constructor.
  - done.
  - apply Forall_forall. intros x Hx Hfx. constructor.
    + simpl. by apply (proj1 (Forall_forall _ _) Hfresh).
    + by apply (proj1 (Forall_forall _ _) HD).
  - simpl. split; [|done]. destruct (retryCount h) eqn:Hr; [by apply Hhd | done].
  - simpl. by split.
  - constructor; [simpl; lia | done].
Qed.

Lemma ordered_reject q tr n t u e :
  Ordered q tr n t -> Ordered q (Rejected u t e :: tr) n t.
Proof.
  intros (HA & HB & HC & HD & HE & HF & HG). split_and!.
  - done.
  - by constructor.
  - done.
  - eapply Forall_impl; [exact HD |]. intros x Hx Hfx. constructor; [done | by apply Hx].
  - simpl. by split.
  - simpl. by split.
  - constructor; [simpl; lia | done].
Qed.

Lemma fresh_behind_snoc q x :
  fresh_behind q ->
  (retryCount x = 0%nat -> Forall (fun y => (uid y < uid x)%nat) q) ->
  fresh_behind (q ++ [x]).
Proof.
  induction q as [|y q IH]; intros Hq Hx; simpl.
  - by split.
  - destruct Hq as [Hy Hq]. split.
    + apply Forall_app. split; [done |]. constructor; [|done].
      intros Hf. specialize (Hx Hf). apply Forall_cons in Hx as [Hx1 _]. exact Hx1.
    + apply IH; [done |]. intros Hf. specialize (Hx Hf).
      apply Forall_cons in Hx as [_ Hx2]. exact Hx2.
Qed.

Lemma ordered_retry h rest tr n t :
  Ordered (h :: rest) tr n t -> Ordered (rest ++ [retried h]) tr n t.
Proof.
  intros (HA & HB & HC & HD & HE & HF & HG).
  apply Forall_cons in HA as [Hh HA]. destruct HC as [_ HC].
  apply Forall_cons in HD as [_ HD].
  split_and!; try done.
  - apply Forall_app. split; [done |]. by constructor.
  - apply fresh_behind_snoc; [done |]. simpl. done.
  - apply Forall_app. split; [done |]. constructor; [|done]. simpl. done.
Qed.

Lemma fresh_behind_filter (P : QueueItem -> Prop) `{!forall x, Decision (P x)} q :
  fresh_behind q -> fresh_behind (filter P q).
Proof.
  induction q as [|y q IH]; [done |]. intros [Hy Hq].
  rewrite filter_cons. destruct (decide (P y)); [|by apply IH].
  split; [|by apply IH].
  apply Forall_forall. intros x Hx. apply list_elem_of_filter in Hx as [_ Hx].
  by apply (proj1 (Forall_forall _ _) Hy).
Qed.

Lemma Forall_filter_weaken {A} (Q P : A -> Prop) `{!forall x, Decision (P x)} l :
  Forall Q l -> Forall Q (filter P l).
Proof.
  intros HQ. apply Forall_forall. intros x Hx. apply list_elem_of_filter in Hx as [_ Hx].
  by apply (proj1 (Forall_forall _ _) HQ).
Qed.

Lemma ordered_filter (P : QueueItem -> Prop) `{!forall x, Decision (P x)} q tr n t :
  Ordered q tr n t -> Ordered (filter P q) tr n t.
Proof.
  intros (HA & HB & HC & HD & HE & HF & HG). split_and!; try done.
  - by apply Forall_filter_weaken.
  - by apply fresh_behind_filter.
  - by apply Forall_filter_weaken.
Qed.

Lemma ordered_nil q tr n t : Ordered q tr n t -> Ordered [] tr n t.
Proof. intros (HA & HB & HC & HD & HE & HF & HG). by split_and!. Qed.

Lemma ordered_acquire q tr n t key ts :
  Ordered q tr n t ->
  Ordered (q ++ [{| uid := n; repoName := key; queuedAt := ts; retryCount := 0 |}])
          tr (S n) t.
Proof.
  intros (HA & HB & HC & HD & HE & HF & HG). split_and!; try done.
  - apply Forall_app. split.
    + eapply Forall_impl; [exact HA |]. intros x Hx. simpl in Hx. lia.
    + constructor; [simpl; lia | done].
  - eapply Forall_impl; [exact HB |]. intros [u ? ?|? ? ?] Hu; simpl in *; [lia | done].
  - apply fresh_behind_snoc; [done |]. intros _. done.
  - apply Forall_app. split; [done |]. constructor; [|done]. intros _. done.
Qed.

Lemma ordered_tick q tr n t d : 0 <= d -> Ordered q tr n t -> Ordered q tr n (t + d).
Proof.
  intros Hd (HA & HB & HC & HD & HE & HF & HG). split_and!; try done.
  eapply Forall_impl; [exact HG |]. intros e He. simpl in He. lia.
Qed.

Lemma reject_all_ord (q Q : list QueueItem) ts a :
  ts = now a ->
  Ordered Q (trace a) (next_uid a) (now a) ->
  let r := fold_left
             (fun acc item =>
                updateFailedPromises (record (Rejected (uid item) ts SaveStateFailed) acc))
             q a in
  Ordered Q (trace r) (next_uid r) (now r).
Proof.
  revert a. induction q as [|x q IH]; intros a Hts H; [done |].
  simpl fold_left. cbv zeta in *. apply IH; [by proj_simpl |].
  proj_simpl. subst ts. by apply ordered_reject.
Qed.

Lemma emergency_ord l : Ordered [] (trace l) (next_uid l) (now l) -> Ord (emergency l).
Proof.
  intros H. unfold emergency. cbv zeta.
  set (l1 := set_file _ l).
  pose proof (reject_all_ord (queue l1) [] (now l) l1 eq_refl H) as Hr.
  cbv zeta in Hr. unfold Ord, exit_loop, set_queue. cbn [queue trace next_uid now]. exact Hr.
Qed.

(** A burst, from any of its turns, keeps queue and trace in order. *)
Lemma burst_from_ord n i b st l : Ord l -> Ord (burst_from n i b st l).
Proof.
  revert i st l. induction n as [|n IH]; intros i st l Ho; cbn [burst_from].
  - unfold after_burst. destruct (queue l); exact Ho.
  - destruct (queue l) as [|item rest] eqn:Hq; [by apply IH |].
    unfold Ord in Ho. rewrite Hq in Ho.
    destruct (head (disk l)) as [[| |]|].
    + unfold Ord. proj_simpl. by apply ordered_grant.
    + destruct (retryCount item <? MAX_RETRIES)%nat.
      * unfold Ord. proj_simpl. by apply ordered_retry.
      * apply IH. unfold Ord. proj_simpl. apply ordered_reject. by apply (ordered_tail item).
    + destruct (retryCount item <? MAX_RETRIES)%nat; apply emergency_ord; proj_simpl.
      * by apply (ordered_nil (item :: rest)).
      * apply ordered_reject. by apply (ordered_nil (item :: rest)).
    + unfold Ord. proj_simpl. by apply ordered_grant.
Qed.

Lemma wake_loop_ord l : Ord l -> Ord (wake_loop l).
Proof.
  intros Ho. unfold wake_loop. destruct (loop l); [done | | by apply burst_from_ord].
  unfold at_head. destruct (queue l) eqn:Hq; [exact Ho |].
  destruct (_ =? 0); [exact Ho |]. by apply burst_from_ord.
Qed.

Lemma processQueue_ord l : Ord l -> Ord (processQueue l).
Proof.
  intros Ho. unfold processQueue. destruct (processing l); [done |].
  destruct (queue l) eqn:Hq; [done |]. unfold Ord in *. simpl. by rewrite Hq in Ho.
Qed.

Lemma step_ord l e l' : Ord l -> step l e = Some l' -> Ord l'.
Proof.
  intros Ho. destruct e as [key | remaining reset | | d | | u]; simpl.
  - intros [= <-]. unfold acquire. apply processQueue_ord.
    unfold Ord. simpl. by apply ordered_acquire.
  - intros [= <-]. unfold updateLimits. cbv zeta.
    destruct (_ && _); [apply processQueue_ord |]; exact Ho.
  - intros [= <-]. exact Ho.
  - destruct (may_pass d l) eqn:Hm; [|done]. intros [= <-].
    unfold may_pass in Hm. apply andb_prop in Hm as [Hm _]. apply andb_prop in Hm as [Hd _].
    apply Z.leb_le in Hd. unfold Ord. simpl. by apply ordered_tick.
  - destruct (processing l && (wake l <=? now l)); [|done]. intros [= <-].
    by apply wake_loop_ord.
  - case_bool_decide; [|done]. intros [= <-]. unfold fire, handleTimeout.
    case_bool_decide; [|exact Ho].
    unfold Ord. proj_simpl. apply ordered_reject. by apply ordered_filter.
Qed.

Lemma run_ord evs l l' : Ord l -> run evs l = Some l' -> Ord l'.
Proof.
  revert l. induction evs as [|e evs IH]; intros l H; simpl.
  - by intros [= <-].
  - destruct (step l e) as [l1|] eqn:E; [|done]. intros Hrun.
    apply (IH l1); [by apply (step_ord l e) | done].
Qed.

Lemma initial_ord ts f script : Ord (initial ts f script).
Proof. unfold Ord. simpl. by split_and!. Qed.

(** In a trace in order, a first-attempt admission of an older item is
    never later than an admission of a newer one. *)
Lemma first_attempt_no_later tr (a b : nat) ta tb rb :
  first_attempts_in_order tr -> chronological tr ->
  Resolved a ta 0 ∈ tr -> Resolved b tb rb ∈ tr ->
  (a < b)%nat -> ta <= tb.
Proof.
  intros Hfa Hch Ha Hb Hab. induction tr as [|e tr IH]; [by apply elem_of_nil in Ha |].
  destruct Hfa as [He Hfa]. destruct Hch as [Hce Hch].
  apply elem_of_cons in Ha as [Ha | Ha]; apply elem_of_cons in Hb as [Hb | Hb].
  - rewrite <- Ha in Hb. injection Hb as -> _ _. lia.
  - subst e. simpl in He.
    pose proof (proj1 (Forall_forall _ _) He _ Hb) as Hlt. simpl in Hlt. lia.
  - subst e. pose proof (proj1 (Forall_forall _ _) Hce _ Ha) as Hle. simpl in Hle. lia.
  - by apply IH.
Qed.

(** C6, the reading of the specification, refuted.  Two requests are made
    in the same instant; the state write for the first one fails once, so
    it goes to the back of the queue: the second request is admitted at
    5000 ms, the first at 6100 ms. *)
Lemma fifo_admission_refuted : ~ FifoAdmission.
Proof.
  intros H.
  specialize (H run_overtaken 0 (getDefaultState 0) [SaveFails] overtaken_end
                0%nat 1%nat 6100 5000 1%nat 0%nat).
  assert (6100 <= 5000) as Habs; [|lia].
  apply H.
  - vm_compute. reflexivity.
  - lia.
  - vm_compute. by left.
  - vm_compute. right. by left.
Qed.

(** C6, as the code has it.  Of two requests that are both admitted, the
    one made first is admitted no later than the other, provided it is
    admitted on its first attempt, that is, it has not been put back at
    the tail of the queue after an error. *)
Theorem fifo_admission_first_attempt evs ts f script l (a b : nat) ta tb rb :
  run evs (initial ts f script) = Some l ->
  (a < b)%nat ->
  Resolved a ta 0 ∈ trace l ->
  Resolved b tb rb ∈ trace l ->
  ta <= tb.
Proof.
  intros Hrun Hab Ha Hb.
  destruct (run_ord evs _ l (initial_ord ts f script) Hrun) as (_ & _ & _ & _ & Hfa & Hch & _).
  by apply (first_attempt_no_later (trace l) a b ta tb rb).
Qed.

Lemma fifo_admission_first_attempt_witness : 1000 <= 2100.
Proof.
  refine (fifo_admission_first_attempt run_in_order 0 (getDefaultState 0) []
            in_order_end 0%nat 1%nat 1000 2100 0%nat _ _ _ _).
  - vm_compute. reflexivity.
  - lia.
  - vm_compute. right. by left.
  - vm_compute. by left.
Defined.

(** **** Time-outs *)

Lemma timed_shift h rest tm n t :
  Timed (h :: rest) tm n t ->
  Timed rest (filter (fun p => p.1 <> uid h) tm) n t.
Proof.
  intros (Hnd & Hlt & Harm & Hdue). simpl in Hnd.
  apply NoDup_cons in Hnd as [Hh Hnd]. apply Forall_cons in Hlt as [_ Hlt].
  apply Forall_cons in Harm as [_ Harm]. split_and!; [done | done | |].
  - apply Forall_forall. intros x Hx Hf. apply list_elem_of_filter. split.
    + simpl. intros Heq. apply Hh. rewrite <- Heq. apply list_elem_of_fmap. eauto.
    + by apply (proj1 (Forall_forall _ _) Harm).
  - apply Forall_forall. intros p Hp. apply list_elem_of_filter in Hp as [_ Hp].
    by apply (proj1 (Forall_forall _ _) Hdue).
Qed.

Lemma timed_retry h rest tm n t :
  Timed (h :: rest) tm n t ->
  Timed (rest ++ [retried h]) (filter (fun p => p.1 <> uid h) tm) n t.
Proof.
  intros H. pose proof (timed_shift h rest tm n t H) as (Hnd' & Hlt' & Harm' & Hdue').
  destruct H as (Hnd & Hlt & _ & _). simpl in Hnd.
  apply NoDup_cons in Hnd as [Hh _]. apply Forall_cons in Hlt as [Hhn _].
  split_and!; [| | | done].
  - rewrite map_app. simpl. apply NoDup_app. split_and!; [done | | apply NoDup_singleton].
    intros u Hu Hu'. apply list_elem_of_singleton in Hu'. subst u. by apply Hh.
  - apply Forall_app. split; [done |]. by constructor.
  - apply Forall_app. split; [done |]. constructor; [|done]. simpl. done.
Qed.

Lemma timed_nil q tm n t : Timed q tm n t -> Timed [] tm n t.
Proof. intros (_ & _ & _ & Hdue). split_and!; [apply NoDup_nil_2 | done | done | done]. Qed.

Lemma timed_less_timers (P : nat * Z -> Prop) `{!forall p, Decision (P p)} tm n t :
  Timed [] tm n t -> Timed [] (filter P tm) n t.
Proof.
  intros (Hnd & Hlt & Harm & Hdue). split_and!; [done | done | done |].
  apply Forall_forall. intros p Hp. apply list_elem_of_filter in Hp as [_ Hp].
  by apply (proj1 (Forall_forall _ _) Hdue).
Qed.

Lemma timed_acquire q tm n t key :
  Timed q tm n t ->
  Timed (q ++ [{| uid := n; repoName := key; queuedAt := t; retryCount := 0 |}])
        (tm ++ [(n, t + REQUEST_TIMEOUT)]) (S n) t.
Proof.
  intros (Hnd & Hlt & Harm & Hdue). split_and!.
  - rewrite map_app. simpl. apply NoDup_app. split_and!; [done | | apply NoDup_singleton].
    intros u Hu Hu'. apply list_elem_of_singleton in Hu'. subst u.
    apply list_elem_of_fmap in Hu as (x & Hx & Hin).
    pose proof (proj1 (Forall_forall _ _) Hlt x Hin) as Hlt'. simpl in Hlt'. lia.
  - apply Forall_app. split.
    + eapply Forall_impl; [exact Hlt |]. intros x Hx. simpl in Hx. lia.
    + constructor; [simpl; lia | done].
  - apply Forall_app. split.
    + eapply Forall_impl; [exact Harm |]. intros x Hx Hf. apply elem_of_app. left. by apply Hx.
    + constructor; [|done]. intros _. simpl. apply elem_of_app. right. by left.
  - apply Forall_app. split; [done |]. constructor; [|done]. simpl. unfold REQUEST_TIMEOUT. lia.
Qed.

Lemma timed_fire q tm n t u :
  Timed q tm n t ->
  Timed (filter (fun x => uid x <> u) q) (filter (fun p => p.1 <> u) tm) n t.
Proof.
  intros (Hnd & Hlt & Harm & Hdue). split_and!.
  - induction q as [|x q IH]; [done |]. simpl in Hnd. apply NoDup_cons in Hnd as [Hx Hnd].
    apply Forall_cons in Hlt as [_ Hlt]. apply Forall_cons in Harm as [_ Harm].
    rewrite filter_cons. destruct (decide (uid x <> u)); [|by apply IH].
    simpl. apply NoDup_cons. split; [|by apply IH].
    intros Hin. apply Hx. apply list_elem_of_fmap in Hin as (y & Hy & Hin).
    apply list_elem_of_filter in Hin as [_ Hin]. apply list_elem_of_fmap. eauto.
  - by apply Forall_filter_weaken.
  - apply Forall_forall. intros x Hx Hf. apply list_elem_of_filter in Hx as [Hne Hx].
    apply list_elem_of_filter. split; [done |].
    by apply (proj1 (Forall_forall _ _) Harm).
  - by apply Forall_filter_weaken.
Qed.

Lemma timed_fire_absent q tm n t u :
  u ∉ map uid q ->
  Timed q tm n t -> Timed q (filter (fun p => p.1 <> u) tm) n t.
Proof.
  intros Hu. intros (Hnd & Hlt & Harm & Hdue). split_and!; [done | done | |].
  - apply Forall_forall. intros x Hx Hf. apply list_elem_of_filter. split.
    + simpl. intros Heq. apply Hu. rewrite <- Heq. apply list_elem_of_fmap. eauto.
    + by apply (proj1 (Forall_forall _ _) Harm).
  - by apply Forall_filter_weaken.
Qed.

Lemma reject_all_timers (q : list QueueItem) ts a :
  let r := fold_left
             (fun acc item =>
                updateFailedPromises (record (Rejected (uid item) ts SaveStateFailed) acc))
             q a in
  timers r = timers a.
Proof.
  revert a. induction q as [|x q IH]; intros a; [done |].
  simpl fold_left. cbv zeta in *. by rewrite IH.
Qed.

Lemma emergency_tmd l :
  Timed [] (timers l) (next_uid l) (now l) -> Tmd (emergency l).
Proof.
  intros H. unfold emergency. cbv zeta. set (l1 := set_file _ l).
  destruct (reject_all_facts (queue l1) (now l) l1) as (_ & H2 & _ & _ & H5).
  pose proof (reject_all_timers (queue l1) (now l) l1) as H6.
  cbv zeta in *. unfold Tmd, exit_loop, set_queue. cbn [queue timers next_uid now].
  by rewrite H2, H5, H6.
Qed.

Lemma burst_from_tmd n i b st l : Tmd l -> Tmd (burst_from n i b st l).
Proof.
  revert i st l. induction n as [|n IH]; intros i st l Ht; cbn [burst_from].
  - unfold after_burst. destruct (queue l); exact Ht.
  - destruct (queue l) as [|item rest] eqn:Hq; [by apply IH |].
    unfold Tmd in Ht. rewrite Hq in Ht.
    destruct (head (disk l)) as [[| |]|].
    + unfold Tmd. proj_simpl. by apply timed_shift.
    + destruct (retryCount item <? MAX_RETRIES)%nat.
      * unfold Tmd. proj_simpl. by apply timed_retry.
      * apply IH. unfold Tmd. proj_simpl. by apply timed_shift.
    + destruct (retryCount item <? MAX_RETRIES)%nat; apply emergency_tmd; proj_simpl;
        apply (timed_nil rest); by apply timed_shift.
    + unfold Tmd. proj_simpl. by apply timed_shift.
Qed.

Lemma wake_loop_tmd l : Tmd l -> Tmd (wake_loop l).
Proof.
  intros Ht. unfold wake_loop. destruct (loop l); [done | | by apply burst_from_tmd].
  unfold at_head. destruct (queue l) eqn:Hq; [exact Ht |].
  destruct (_ =? 0); [exact Ht |]. by apply burst_from_tmd.
Qed.

Lemma processQueue_tmd l : Tmd l -> Tmd (processQueue l).
Proof.
  intros Ht. unfold processQueue. destruct (processing l); [done |].
  destruct (queue l) eqn:Hq; [done |]. unfold Tmd in *. simpl. by rewrite Hq in Ht.
Qed.

Lemma step_tmd l e l' : Tmd l -> step l e = Some l' -> Tmd l'.
Proof.
  intros Ht. destruct e as [key | remaining reset | | d | | u]; simpl.
  - intros [= <-]. unfold acquire. apply processQueue_tmd.
    unfold Tmd. simpl. by apply timed_acquire.
  - intros [= <-]. unfold updateLimits. cbv zeta.
    destruct (_ && _); [apply processQueue_tmd |]; exact Ht.
  - intros [= <-]. exact Ht.
  - destruct (may_pass d l) eqn:Hm; [|done]. intros [= <-].
    unfold may_pass in Hm. apply andb_prop in Hm as [_ Hm].
    destruct Ht as (Hnd & Hlt & Harm & _). unfold Tmd. simpl. split_and!; try done.
    apply Forall_forall. intros p Hp.
    rewrite forallb_forall in Hm. apply Z.leb_le. apply Hm. by apply list_elem_of_In.
  - destruct (processing l && (wake l <=? now l)); [|done]. intros [= <-].
    by apply wake_loop_tmd.
  - case_bool_decide; [|done]. intros [= <-]. unfold fire, handleTimeout. proj_simpl.
    case_bool_decide as Hu.
    + unfold Tmd. proj_simpl. by apply timed_fire.
    + unfold Tmd. proj_simpl. by apply timed_fire_absent.
Qed.

Lemma run_tmd evs l l' : Tmd l -> run evs l = Some l' -> Tmd l'.
Proof.
  revert l. induction evs as [|e evs IH]; intros l H; simpl.
  - by intros [= <-].
  - destruct (step l e) as [l1|] eqn:E; [|done]. intros Hrun.
    apply (IH l1); [by apply (step_tmd l e) | done].
Qed.

Lemma initial_tmd ts f script : Tmd (initial ts f script).
Proof. unfold Tmd. simpl. split_and!; [apply NoDup_nil_2 | done | done | done]. Qed.

(** A request that the loop has never taken out of the queue has its timer
    armed and is never queued beyond its deadline: time does not pass a
    timer that is due. *)
Lemma queued_request_within_timeout evs ts f script l x :
  run evs (initial ts f script) = Some l ->
  x ∈ queue l -> retryCount x = 0%nat ->
  (uid x, queuedAt x + REQUEST_TIMEOUT) ∈ timers l /\
  now l <= queuedAt x + REQUEST_TIMEOUT.
Proof.
  intros Hrun Hx Hf.
  destruct (run_tmd evs _ l (initial_tmd ts f script) Hrun) as (_ & _ & Harm & Hdue).
  pose proof (proj1 (Forall_forall _ _) Harm x Hx Hf) as Hin. split; [done |].
  by apply (proj1 (Forall_forall _ _) Hdue _ Hin).
Qed.

(** When the timer of a queued item fires, the item leaves the queue and
    its promise is rejected with the time-out error, at that instant. *)
Lemma fire_rejects u l :
  u ∈ map uid (queue l) ->
  trace (fire u l) = Rejected u (now l) RequestTimedOut :: trace l /\
  u ∉ map uid (queue (fire u l)).
Proof.
  intros Hu. unfold fire, handleTimeout. proj_simpl.
  rewrite bool_decide_eq_true_2 by done. proj_simpl. split; [done |].
  intros Hin. apply list_elem_of_fmap in Hin as (x & -> & Hx).
  by apply list_elem_of_filter in Hx as [Hne _].
Qed.

Lemma gone_grant u before h rest tr n t r :
  Gone u before (h :: rest) tr n -> Gone u before rest (Resolved (uid h) t r :: tr) n.
Proof.
  intros (Hq & Hn & Hres & Hsub). simpl in Hq. apply not_elem_of_cons in Hq as [Hne Hq].
  split_and!; [done | done | |].
  - intros t' r' [Heq | Hin]%elem_of_cons; [congruence | by apply Hres].
  - intros e He. right. by apply Hsub.
Qed.

Lemma gone_reject u before q tr n v t e :
  Gone u before q tr n -> Gone u before q (Rejected v t e :: tr) n.
Proof.
  intros (Hq & Hn & Hres & Hsub). split_and!; [done | done | |].
  - intros t' r' [Heq | Hin]%elem_of_cons; [done | by apply Hres].
  - intros e' He. right. by apply Hsub.
Qed.

Lemma gone_tail u before h rest tr n :
  Gone u before (h :: rest) tr n -> Gone u before rest tr n.
Proof.
  intros (Hq & Hn & Hres & Hsub). simpl in Hq. apply not_elem_of_cons in Hq as [_ Hq].
  by split_and!.
Qed.

Lemma gone_retry u before h rest tr n :
  Gone u before (h :: rest) tr n -> Gone u before (rest ++ [retried h]) tr n.
Proof.
  intros (Hq & Hn & Hres & Hsub). simpl in Hq. apply not_elem_of_cons in Hq as [Hne Hq].
  split_and!; [| done | done | done].
  rewrite map_app. simpl. intros [Hin | Hin]%elem_of_app; [done |].
  apply list_elem_of_singleton in Hin. done.
Qed.

Lemma gone_nil u before q tr n : Gone u before q tr n -> Gone u before [] tr n.
Proof.
  intros (Hq & Hn & Hres & Hsub). split_and!; [apply not_elem_of_nil | done | done | done].
Qed.

Lemma gone_filter u before (P : QueueItem -> Prop) `{!forall x, Decision (P x)} q tr n :
  Gone u before q tr n -> Gone u before (filter P q) tr n.
Proof.
  intros (Hq & Hn & Hres & Hsub). split_and!; [| done | done | done].
  intros Hin. apply Hq. apply list_elem_of_fmap in Hin as (x & Hx & Hin).
  apply list_elem_of_filter in Hin as [_ Hin]. apply list_elem_of_fmap. eauto.
Qed.

Lemma gone_acquire u before q tr n key ts :
  Gone u before q tr n ->
  Gone u before (q ++ [{| uid := n; repoName := key; queuedAt := ts; retryCount := 0 |}])
       tr (S n).
Proof.
  intros (Hq & Hn & Hres & Hsub). split_and!; [| lia | done | done].
  rewrite map_app. simpl. intros [Hin | Hin]%elem_of_app; [done |].
  apply list_elem_of_singleton in Hin. lia.
Qed.

Lemma reject_all_gone u before (q Q : list QueueItem) ts a :
  Gone u before Q (trace a) (next_uid a) ->
  let r := fold_left
             (fun acc item =>
                updateFailedPromises (record (Rejected (uid item) ts SaveStateFailed) acc))
             q a in
  Gone u before Q (trace r) (next_uid r).
Proof.
  revert a. induction q as [|x q IH]; intros a H; [done |].
  simpl fold_left. cbv zeta in *. apply IH. proj_simpl. by apply gone_reject.
Qed.

Lemma emergency_gn u before l :
  Gone u before [] (trace l) (next_uid l) -> Gn u before (emergency l).
Proof.
  intros H. unfold emergency. cbv zeta. set (l1 := set_file _ l).
  pose proof (reject_all_gone u before (queue l1) [] (now l) l1 H) as Hr.
  cbv zeta in Hr. unfold Gn, exit_loop, set_queue. cbn [queue trace next_uid]. exact Hr.
Qed.

Lemma burst_from_gn u before n i b st l : Gn u before l -> Gn u before (burst_from n i b st l).
Proof.
  revert i st l. induction n as [|n IH]; intros i st l Hg; cbn [burst_from].
  - unfold after_burst. destruct (queue l); exact Hg.
  - destruct (queue l) as [|item rest] eqn:Hq; [by apply IH |].
    unfold Gn in Hg. rewrite Hq in Hg.
    destruct (head (disk l)) as [[| |]|].
    + unfold Gn. proj_simpl. by apply gone_grant.
    + destruct (retryCount item <? MAX_RETRIES)%nat.
      * unfold Gn. proj_simpl. by apply gone_retry.
      * apply IH. unfold Gn. proj_simpl. apply gone_reject. by apply (gone_tail u before item).
    + destruct (retryCount item <? MAX_RETRIES)%nat; apply emergency_gn; proj_simpl.
      * by apply (gone_nil u before (item :: rest)).
      * apply gone_reject. by apply (gone_nil u before (item :: rest)).
    + unfold Gn. proj_simpl. by apply gone_grant.
Qed.

Lemma step_gn u before l e l' : Gn u before l -> step l e = Some l' -> Gn u before l'.
Proof.
  intros Hg.
  assert (forall l0, Gn u before l0 -> Gn u before (processQueue l0)) as Hpq.
  { intros l0 H0. unfold processQueue. destruct (processing l0); [done |].
    destruct (queue l0) eqn:Hq; [done |]. unfold Gn in *. simpl. by rewrite Hq in H0. }
  destruct e as [key | remaining reset | | d | | v]; simpl.
  - intros [= <-]. unfold acquire. apply Hpq. unfold Gn. simpl. by apply gone_acquire.
  - intros [= <-]. unfold updateLimits. cbv zeta. destruct (_ && _); [apply Hpq |]; exact Hg.
  - intros [= <-]. exact Hg.
  - destruct (may_pass d l); [|done]. intros [= <-]. exact Hg.
  - destruct (processing l && (wake l <=? now l)); [|done]. intros [= <-].
    unfold wake_loop. destruct (loop l); [done | | by apply burst_from_gn].
    unfold at_head. destruct (queue l) eqn:Hq; [exact Hg |].
    destruct (_ =? 0); [exact Hg |]. by apply burst_from_gn.
  - case_bool_decide; [|done]. intros [= <-]. unfold fire, handleTimeout. proj_simpl.
    case_bool_decide; [|exact Hg].
    unfold Gn. proj_simpl. apply gone_reject. by apply gone_filter.
Qed.

Lemma run_gn u before evs l l' : Gn u before l -> run evs l = Some l' -> Gn u before l'.
Proof.
  revert l. induction evs as [|e evs IH]; intros l H; simpl.
  - by intros [= <-].
  - destruct (step l e) as [l1|] eqn:E; [|done]. intros Hrun.
    apply (IH l1); [by apply (step_gn u before l e) | done].
Qed.

(** What the timer does when it finds its item in the queue is final: the
    promise is rejected with the time-out error, and whatever happens to
    the limiter afterwards the request is not granted. *)
Lemma timeout_is_final evs0 ts f script l u evs l' :
  run evs0 (initial ts f script) = Some l ->
  u ∈ map uid (queue l) ->
  run evs (fire u l) = Some l' ->
  Rejected u (now l) RequestTimedOut ∈ trace l' /\
  (forall t r, Resolved u t r ∈ trace l' -> Resolved u t r ∈ trace l).
Proof.
  intros Hrun0 Hu Hrun.
  destruct (fire_rejects u l Hu) as [Htr Hq].
  destruct (run_tmd evs0 _ l (initial_tmd ts f script) Hrun0) as (_ & Hlt & _ & _).
  assert (u < next_uid l)%nat as Hn.
  { apply list_elem_of_fmap in Hu as (x & -> & Hx).
    by apply (proj1 (Forall_forall _ _) Hlt x Hx). }
  assert (Gn u (trace (fire u l)) (fire u l)) as Hg.
  { unfold Gn. split_and!; [done | | done | done].
    unfold fire, handleTimeout. proj_simpl. by case_bool_decide. }
  destruct (run_gn u _ evs _ l' Hg Hrun) as (_ & _ & Hres & Hsub).
  split.
  - apply Hsub. rewrite Htr. by left.
  - intros t r Hin. specialize (Hres t r Hin). rewrite Htr in Hres.
    by apply elem_of_cons in Hres as [Heq | Hres].
Qed.

(** A request made while no budget is left is rejected by its timer, thirty
    seconds after it was made. *)
Lemma timed_out_example :
  run run_timed_out (initial 0 (getDefaultState 0) []) = Some timed_out_end /\
  queue timed_out_end = [] /\
  trace timed_out_end = [Rejected 0 30000 RequestTimedOut].
Proof. vm_compute. done. Qed.

(** C5, on the code.  A request is made at time 0; the state write of its
    first admission attempt fails, so the loop, which has cleared the timer
    of the item, puts the item back in the queue; the API then reports that
    no budget is left.  At 35100 ms the request is still queued: it has
    been neither granted nor rejected, and no timer is armed for it.  When
    budget is reported again it is granted, at 40100 ms. *)
Theorem timeout_lost_after_retry :
  run run_starved (initial 0 (getDefaultState 0) [SaveFails]) = Some starved_end /\
  now starved_end = 35100 /\
  map uid (queue starved_end) = [0%nat] /\
  map queuedAt (queue starved_end) = [0] /\
  timers starved_end = [] /\
  trace starved_end = [] /\
  run run_replenished starved_end = Some replenished_end /\
  trace replenished_end = [Resolved 0 40100 1].
Proof. vm_compute. done. Qed.

End LimiterFacts.

Module ParserFacts.
Import Parser.

Lemma ascii_eqb_true a b : ascii_eqb a b = true <-> a = b.
Proof. unfold ascii_eqb. apply bool_decide_eq_true. Qed.

Lemma ascii_eqb_false a b : ascii_eqb a b = false <-> a <> b.
Proof. unfold ascii_eqb. apply bool_decide_eq_false. Qed.

Lemma startsWith_spec p s : startsWith p s = true <-> exists post, s = p ++ post.
Proof.
  revert s. induction p as [|a p IH]; intros s; simpl.
  - split; [intros _; by exists s | done].
  - destruct s as [|b s].
    + split; [done | intros [post H]; discriminate H].
    + rewrite andb_true_iff, ascii_eqb_true, IH. split.
      * intros [-> [post ->]]. by exists post.
      * intros [post H]. injection H as -> ->. split; [done | by exists post].
Qed.

Lemma includes_spec sub s : includes sub s = true <-> Includes sub s.
Proof.
  induction s as [|c s IH]; simpl.
  - rewrite orb_false_r, startsWith_spec. split.
    + intros [post H]. exists [], post. done.
    + intros [pre [post H]]. destruct pre; [by exists post | discriminate H].
  - rewrite orb_true_iff, startsWith_spec, IH. split.
    + intros [[post H] | [pre [post H]]].
      * exists [], post. done.
      * exists (c :: pre), post. by rewrite H.
    + intros [pre [post H]]. destruct pre as [|c' pre].
      * left. by exists post.
      * right. injection H as -> ->. by exists pre, post.
Qed.

Lemma skip_spaces_split s :
  exists ws, s = ws ++ skip_spaces s /\ all_space ws.
Proof.
  induction s as [|c s [ws [H1 H2]]]; simpl.
  - exists []. split; [done | constructor].
  - destruct (is_space c) eqn:E.
    + exists (c :: ws). split; [simpl; by f_equal | by constructor].
    + exists []. split; [done | constructor].
Qed.

Lemma skip_spaces_app ws c r :
  all_space ws -> is_space c = false -> skip_spaces (ws ++ c :: r) = c :: r.
Proof.
  intros Hws Hc. induction Hws as [|w ws Hw _ IH]; simpl.
  - by rewrite Hc.
  - by rewrite Hw.
Qed.

Lemma skip_spaces_head s c r : skip_spaces s = c :: r -> is_space c = false.
Proof.
  induction s as [|a s IH]; simpl; [done |].
  destruct (is_space a) eqn:E; [done |]. intros H. injection H as -> _. done.
Qed.

Lemma take_nonquote_split s v r :
  take_nonquote s = (v, r) -> s = v ++ r /\ quote_free v.
Proof.
  revert v r. induction s as [|c s IH]; intros v r; simpl.
  - intros H. injection H as <- <-. split; [done | constructor].
  - destruct (ascii_eqb c dquote) eqn:E.
    + intros H. injection H as <- <-. split; [done | constructor].
    + destruct (take_nonquote s) as [v0 r0]. intros H. injection H as <- <-.
      destruct (IH v0 r0 eq_refl) as [-> Hq]. split; [done |].
      constructor; [by apply ascii_eqb_false | done].
Qed.

Lemma take_nonquote_app v post :
  quote_free v -> take_nonquote (v ++ dquote :: post) = (v, dquote :: post).
Proof.
  intros Hq. induction Hq as [|c v Hc _ IH]; simpl.
  - replace (ascii_eqb dquote dquote) with true; [done |].
    symmetry. by apply ascii_eqb_true.
  - apply ascii_eqb_false in Hc. by rewrite Hc, IH.
Qed.

Lemma match_here_spec s v : match_here s = Some v <-> MatchAt s v.
Proof.
  unfold match_here, MatchAt. split.
  - destruct (startsWith (lit "url") s) eqn:Hp; [|done].
    apply startsWith_spec in Hp as [post0 ->].
    change (drop 3 (lit "url" ++ post0)) with post0.
    destruct (skip_spaces_split post0) as [ws1 [E1 Hws1]].
    destruct (skip_spaces post0) as [|c1 r1] eqn:S1; [done |].
    destruct (ascii_eqb c1 "=") eqn:Ec1; [|done]. apply ascii_eqb_true in Ec1 as ->.
    destruct (skip_spaces_split r1) as [ws2 [E2 Hws2]].
    destruct (skip_spaces r1) as [|c2 r2] eqn:S2; [done |].
    destruct (ascii_eqb c2 dquote) eqn:Ec2; [|done]. apply ascii_eqb_true in Ec2 as ->.
    destruct (take_nonquote r2) as [v0 r3] eqn:T.
    destruct v0 as [|a v0]; [done |]. destruct r3 as [|c3 r3]; [done |].
    destruct (ascii_eqb c3 dquote) eqn:Ec3; [|done]. apply ascii_eqb_true in Ec3 as ->.
    intros H. injection H as <-.
    apply take_nonquote_split in T as [-> Hq].
    exists ws1, ws2, r3. split_and!; try done.
    by rewrite E1, E2.
  - intros (ws1 & ws2 & post & -> & Hws1 & Hws2 & Hv & Hq).
    replace (startsWith (lit "url") _) with true
      by (symmetry; apply startsWith_spec; eauto).
    change (drop 3 (lit "url" ++ ?x)) with x. cbn [app].
    rewrite (skip_spaces_app ws1 "="%char) by done.
    replace (ascii_eqb "=" "=") with true by (symmetry; by apply ascii_eqb_true).
    rewrite (skip_spaces_app ws2 dquote) by done.
    replace (ascii_eqb dquote dquote) with true by (symmetry; by apply ascii_eqb_true).
    rewrite take_nonquote_app by done.
    destruct v; [done |].
    by replace (ascii_eqb dquote dquote) with true by (symmetry; by apply ascii_eqb_true).
Qed.

Lemma match_url_cons c s :
  match_url (c :: s) =
  match match_here (c :: s) with Some v => Some v | None => match_url s end.
Proof. reflexivity. Qed.

Lemma match_url_sound s v : match_url s = Some v -> FirstMatch s v.
Proof.
  induction s as [|c s IH].
  - intros H. discriminate H.
  - rewrite match_url_cons. destruct (match_here (c :: s)) as [v0|] eqn:E.
    + intros H. injection H as ->. apply match_here_spec in E.
      exists [], (c :: s). split_and!; [done | done |]. simpl. lia.
    + intros H. destruct (IH H) as (pre & rest & -> & Hm & Hmin).
      exists (c :: pre), rest. split_and!; [done | done |].
      intros pre' rest' v' Heq Hlt Hm'. destruct pre' as [|c' pre'].
      * simpl in Heq. subst rest'. apply match_here_spec in Hm'. congruence.
      * injection Heq as -> Heq. apply (Hmin pre' rest' v' Heq); [simpl in Hlt; lia | done].
Qed.

Lemma match_url_complete s v : FirstMatch s v -> match_url s = Some v.
Proof.
  intros (pre & rest & -> & Hm & Hmin). induction pre as [|c pre IH].
  - simpl app. apply match_here_spec in Hm.
    destruct rest as [|c r]; [discriminate Hm | by rewrite match_url_cons, Hm].
  - simpl app. rewrite match_url_cons.
    destruct (match_here (c :: pre ++ rest)) as [v0|] eqn:E.
    + apply match_here_spec in E. exfalso.
      apply (Hmin [] (c :: pre ++ rest) v0); [done | simpl; lia | done].
    + apply IH. intros pre' rest' v' Heq Hlt.
      apply (Hmin (c :: pre') rest' v'); [simpl; by f_equal | simpl; lia].
Qed.

Lemma match_url_spec s v : match_url s = Some v <-> FirstMatch s v.
Proof. split; [apply match_url_sound | apply match_url_complete]. Qed.

Lemma FirstMatch_functional line v v' : FirstMatch line v -> FirstMatch line v' -> v = v'.
Proof. rewrite <- !match_url_spec. congruence. Qed.

Lemma trimStart_split s : exists ws, s = ws ++ trimStart s /\ all_space ws.
Proof.
  induction s as [|c s [ws [H1 H2]]]; simpl.
  - exists []. split; [done | constructor].
  - destruct (is_space c) eqn:E.
    + exists (c :: ws). split; [simpl; by f_equal | by constructor].
    + exists []. split; [done | constructor].
Qed.

Lemma trimStart_head s c r : trimStart s = c :: r -> is_space c = false.
Proof.
  induction s as [|a s IH]; simpl; [done |].
  destruct (is_space a) eqn:E; [done |]. intros H. by injection H as -> _.
Qed.

Lemma trimStart_app ws c r :
  all_space ws -> is_space c = false -> trimStart (ws ++ c :: r) = c :: r.
Proof.
  intros Hws Hc. induction Hws as [|w ws Hw _ IH]; simpl.
  - by rewrite Hc.
  - by rewrite Hw.
Qed.

Lemma trimStart_all_space s : all_space s -> trimStart s = [].
Proof. induction 1 as [|c s Hc _ IH]; simpl; [done | by rewrite Hc]. Qed.

Lemma trimEnd_head c r : is_space c = false -> exists t, trimEnd (c :: r) = c :: t.
Proof.
  intros Hc. simpl. destruct (trimEnd r) as [|a t].
  - rewrite Hc. by exists [].
  - by exists (a :: t).
Qed.

Lemma comment_spec line : startsWith [hash] (trim line) = true <-> Comment line.
Proof.
  unfold trim, Comment. rewrite startsWith_spec. split.
  - intros [post H]. destruct (trimStart_split line) as [ws [E Hws]].
    destruct (trimStart line) as [|c r] eqn:T; [done |].
    destruct (trimEnd_head c r (trimStart_head _ _ _ T)) as [t Ht].
    rewrite Ht in H. injection H as -> _. by exists ws, r.
  - intros (ws & rest & Hws & ->). rewrite trimStart_app by done.
    destruct (trimEnd_head hash rest eq_refl) as [t ->]. by exists t.
Qed.

Lemma blank_spec line : trim line = [] <-> Blank line.
Proof.
  unfold trim, Blank. split.
  - intros H. destruct (trimStart_split line) as [ws [E Hws]].
    destruct (trimStart line) as [|c r] eqn:T.
    + rewrite app_nil_r in E. by subst.
    + destruct (trimEnd_head c r (trimStart_head _ _ _ T)) as [t Ht]. congruence.
  - intros H. by rewrite trimStart_all_space.
Qed.

(** One turn of the loop either appends the value the line contributes or
    leaves the accumulator alone, according to the reading above. *)
Lemma process_line_spec urls line :
  (exists v, Contributes line v /\ process_line urls line = urls ++ [v]) \/
  ((forall v, ~ Contributes line v) /\ process_line urls line = urls).
Proof.
  unfold process_line, Contributes.
  destruct (startsWith [hash] (trim line)) eqn:Hc; cbn [orb].
  { right. split; [|done]. intros v (Hn & _). apply Hn. by apply comment_spec. }
  case_bool_decide as Hb.
  { right. split; [|done]. intros v (_ & Hn & _). apply Hn. by apply blank_spec. }
  destruct (includes (lit "url =") line) eqn:Hi.
  2:{ right. split; [|done]. intros v (_ & _ & Hn & _).
      apply includes_spec in Hn. congruence. }
  destruct (match_url line) as [v|] eqn:Hm.
  2:{ right. split; [|done]. intros v (_ & _ & _ & Hn & _).
      apply match_url_spec in Hn. congruence. }
  destruct (includes (lit "github.com") v) eqn:Hg.
  - left. exists v. split; [|done]. split_and!.
    + rewrite <- comment_spec. congruence.
    + by rewrite <- blank_spec.
    + by apply includes_spec.
    + by apply match_url_spec.
    + by apply includes_spec.
  - right. split; [|done]. intros v' (_ & _ & _ & Hn & Hg').
    apply match_url_spec in Hn. apply includes_spec in Hg'. congruence.
Qed.

Lemma Contributes_functional line v v' : Contributes line v -> Contributes line v' -> v = v'.
Proof. intros (_ & _ & _ & H & _) (_ & _ & _ & H' & _). eapply FirstMatch_functional; eauto. Qed.

Lemma fold_process_line lines acc :
  exists urls, fold_left process_line lines acc = acc ++ urls /\ Extracts lines urls.
Proof.
  revert acc. induction lines as [|line lines IH]; intros acc; simpl.
  - exists []. split; [by rewrite app_nil_r | constructor].
  - destruct (process_line_spec acc line) as [(v & Hv & ->) | (Hn & ->)].
    + destruct (IH (acc ++ [v])) as (urls & -> & Hx).
      exists (v :: urls). split; [by rewrite <- app_assoc | by constructor].
    + destruct (IH acc) as (urls & -> & Hx).
      exists urls. split; [done | by constructor].
Qed.

Lemma Extracts_functional lines urls urls' :
  Extracts lines urls -> Extracts lines urls' -> urls = urls'.
Proof.
  intros H. revert urls'. induction H as [|line v lines urls Hc _ IH|line lines urls Hn _ IH];
    intros urls' H'; inversion H'; subst.
  - done.
  - f_equal; [eapply Contributes_functional; eauto | by apply IH].
  - exfalso. eapply H1; eauto.
  - exfalso. eapply Hn; eauto.
  - by apply IH.
Qed.


End ParserFacts.

(* ===================================================================== *)
(** * Properties of the further code                                      *)
(* ===================================================================== *)

Module ListFacts.

Lemma elem_of_rev {A} (x : A) l : x ∈ rev l <-> x ∈ l.
Proof. rewrite !list_elem_of_In. symmetry. apply in_rev. Qed.

Lemma filter_all {A} (P : A -> Prop) `{!forall x, Decision (P x)} (q : list A) :
  (forall y, y ∈ q -> P y) -> filter P q = q.
Proof.
  induction q as [|x q IH]; intros HP; [done |].
  rewrite filter_cons_True by (apply HP; by left). f_equal. apply IH.
  intros y Hy. apply HP. by right.
Qed.

End ListFacts.

Module ParserExtra.
Import Parser ParserFacts ParserMore.

Lemma fold_process_line_acc lines acc :
  fold_left process_line lines acc = acc ++ fold_left process_line lines [].
Proof.
  destruct (fold_process_line lines acc) as (u1 & -> & H1).
  destruct (fold_process_line lines []) as (u2 & -> & H2).
  simpl. f_equal. eapply Extracts_functional; eauto.
Qed.

(** The lines are read one by one and nothing is carried from a line to
    the next: the result for a file is the results for its parts, one
    after the other. *)
Lemma parseEcosystemFile_app l1 l2 :
  parseEcosystemFile (Some (l1 ++ l2))
  = parseEcosystemFile (Some l1) ++ parseEcosystemFile (Some l2).
Proof.
  unfold parseEcosystemFile. rewrite fold_left_app. apply fold_process_line_acc.
Qed.

Lemma MatchAt_shape s v : MatchAt s v -> v <> [] /\ quote_free v.
Proof. by intros (_ & _ & _ & _ & _ & _ & ? & ?). Qed.

Lemma Extracts_shape lines urls :
  Extracts lines urls ->
  (length urls <= length lines)%nat /\
  Forall (fun v => exists line, line ∈ lines /\ Contributes line v) urls.
Proof.
  induction 1 as [|line v lines urls Hc _ [IH1 IH2]|line lines urls Hn _ [IH1 IH2]]; simpl.
  - split; [lia | constructor].
  - split; [lia |]. constructor.
    + exists line. split; [by left | done].
    + eapply Forall_impl; [exact IH2 |].
      intros u (l0 & ? & ?). exists l0. split; [by right | done].
  - split; [lia |].
    eapply Forall_impl; [exact IH2 |].
    intros u (l0 & ? & ?). exists l0. split; [by right | done].
Qed.

(** X1.  [parseEcosystemFile] returns at most one value per line, and
    every value it returns is not empty, holds no double quote, contains
    the text github.com and stands in a line of the file that is not a
    comment. *)
Theorem parseEcosystemFile_values lines :
  (length (parseEcosystemFile (Some lines)) <= length lines)%nat /\
  forall v, v ∈ parseEcosystemFile (Some lines) ->
    v <> [] /\ quote_free v /\ includes (lit "github.com") v = true /\
    exists line, line ∈ lines /\ includes v line = true /\
                 startsWith [hash] (trim line) = false.
Proof.
  destruct (fold_process_line lines []) as (urls & E & Hx). simpl in E.
  unfold parseEcosystemFile. rewrite E.
  destruct (Extracts_shape _ _ Hx) as [Hlen Hall]. split; [done |].
  intros v Hv. destruct (proj1 (Forall_forall _ _) Hall v Hv) as (line & Hin & Hc).
  destruct Hc as (Hnc & _ & _ & (pre & rest & -> & Hm & _) & Hg).
  destruct (MatchAt_shape _ _ Hm) as [Hne Hq].
  split_and!; [done | done | by apply includes_spec |].
  exists (pre ++ rest). split_and!; [done | |].
  - apply includes_spec. destruct Hm as (ws1 & ws2 & post & -> & _).
    exists (pre ++ lit "url" ++ ws1 ++ ["="%char] ++ ws2 ++ [dquote]), ([dquote] ++ post).
    by rewrite <- !app_assoc.
  - destruct (startsWith [hash] (trim (pre ++ rest))) eqn:E1; [|done].
    exfalso. apply Hnc. by apply comment_spec.
Qed.

Lemma match_here_space c s : is_space c = true -> match_here (c :: s) = None.
Proof.
  intros Hc. unfold match_here.
  destruct (startsWith (lit "url") (c :: s)) eqn:E; [|done].
  apply startsWith_spec in E as [post E]. injection E as -> _. discriminate Hc.
Qed.

Lemma match_url_indent indent s :
  all_space indent -> match_url (indent ++ s) = match_url s.
Proof.
  induction 1 as [|c ws Hc _ IH]; [done |].
  simpl app. rewrite match_url_cons, match_here_space by done. exact IH.
Qed.

Lemma entry_unfold indent v post :
  entry indent v post
  = indent ++ "u"%char :: (lit "rl = " ++ [dquote] ++ v ++ [dquote] ++ post).
Proof. reflexivity. Qed.

Lemma match_url_entry indent v post :
  all_space indent -> quote_free v -> v <> [] ->
  match_url (entry indent v post) = Some v.
Proof.
  intros Hi Hq Hne. rewrite entry_unfold, match_url_indent by done.
  rewrite match_url_cons.
  replace (match_here _) with (Some v); [done |]. symmetry.
  apply match_here_spec. exists (lit " "), (lit " "), post.
  split_and!; [done | repeat constructor | repeat constructor | done | done].
Qed.

Lemma process_line_entry urls indent v post :
  all_space indent -> quote_free v -> includes (lit "github.com") v = true ->
  process_line urls (entry indent v post) = urls ++ [v].
Proof.
  intros Hi Hq Hg.
  assert (v <> []) as Hne by (intros ->; discriminate Hg).
  unfold process_line.
  assert (trimStart (entry indent v post)
          = "u"%char :: (lit "rl = " ++ [dquote] ++ v ++ [dquote] ++ post)) as Ht.
  { rewrite entry_unfold. by apply trimStart_app. }
  destruct (trimEnd_head "u"%char (lit "rl = " ++ [dquote] ++ v ++ [dquote] ++ post) eq_refl)
    as [t Hte].
  unfold trim. rewrite Ht, Hte. cbn [startsWith orb andb].
  replace (ascii_eqb hash "u") with false by done. cbn [andb orb].
  rewrite bool_decide_eq_false_2 by done.
  replace (includes (lit "url =") (entry indent v post)) with true.
  2:{ symmetry. apply includes_spec.
      exists indent, (lit " " ++ [dquote] ++ v ++ [dquote] ++ post). reflexivity. }
  by rewrite match_url_entry, Hg.
Qed.

(** X2.  A file written as url entries is read back: when each line is an
    indented [url = Q value Q] followed by anything, with a value that
    holds no double quote and contains github.com, the result is the
    values, in the order of the lines. *)
Theorem parseEcosystemFile_entries (entries : list Entry) :
  Forall well_formed entries ->
  parseEcosystemFile (Some (map entry_line entries)) = map e_value entries.
Proof.
  intros H. unfold parseEcosystemFile.
  enough (forall acc, fold_left process_line (map entry_line entries) acc
                      = acc ++ map e_value entries) as Hgen by apply (Hgen []).
  induction H as [|e entries (Hi & Hq & Hg) _ IH]; intros acc; simpl.
  - by rewrite app_nil_r.
  - rewrite IH. unfold entry_line. rewrite process_line_entry by done.
    by rewrite <- app_assoc.
Qed.

Lemma parseEcosystemFile_entries_witness :
  parseEcosystemFile (Some (map entry_line entries_sample))
  = [ lit "https://github.com/foo/bar"; lit "https://github.com/baz/qux.git" ].
Proof.
  apply (parseEcosystemFile_entries entries_sample).
  repeat constructor; by vm_compute.
Defined.

End ParserExtra.

Module FetchExtra.
Import Fetch FetchFacts FetchMore.

Ltac frame := split_and!; first [done | lia | congruence].

Lemma delays_cons i k : delays i (S k) = RETRY_DELAY * 2 ^ Z.of_nat i :: delays (S i) k.
Proof. reflexivity. Qed.

Lemma retry_loop_schedule {A} (op : M A) retries i n w :
  (forall w0, slept (op w0).2 = slept w0 /\ now (op w0).2 = now w0) ->
  (i + n = retries)%nat ->
  let res := retry_loop op retries i n w in
  exists k, (k <= n - 1)%nat /\
    slept res.2 = slept w ++ delays i k /\
    now res.2 = now w + sum_list (delays i k) /\
    (forall e, res.1 = inl e -> k = (n - 1)%nat).
Proof.
  intros Hop. revert i w. induction n as [|n IH]; intros i w Hin; simpl.
  - exists 0%nat. split_and!; [lia | by rewrite app_nil_r | simpl; lia | done].
  - unfold try_catch. destruct (Hop w) as [Hs Hn].
    destruct (op w) as [[e|a] w1] eqn:E; simpl in Hs, Hn.
    + destruct (i =? retries - 1)%nat eqn:Hi.
      * apply Nat.eqb_eq in Hi. exists 0%nat.
        split_and!; [lia | by rewrite app_nil_r | simpl; lia | intros; lia].
      * apply Nat.eqb_neq in Hi. unfold bind, sleep. cbn [fst snd].
        match goal with |- context [retry_loop op retries (S i) n ?w2] =>
          destruct (IH (S i) w2 ltac:(lia)) as (k & Hk & Hsl & Hnow & Herr) end.
        cbn [slept now] in Hsl, Hnow.
        exists (S k). rewrite delays_cons. split_and!.
        -- lia.
        -- rewrite Hsl, Hs. by rewrite <- app_assoc.
        -- rewrite Hnow, Hn. simpl. lia.
        -- intros e0 He0. specialize (Herr e0 He0). lia.
    + exists 0%nat. split_and!; [lia | by rewrite app_nil_r | simpl; lia | done].
Qed.

(** X3.  [retryWithBackoff] with an operation that does not sleep itself:
    the sleeps it makes are 5000 ms, 10000 ms, ..., doubling, one after
    each failed turn but the last; when it fails it has made all
    [retries - 1] of them.  With [retries = 0] the operation is not run and
    the call fails with the error Retry failed; a first turn that succeeds
    is returned as it is. *)
Theorem retryWithBackoff_schedule {A} (op : M A) (retries : nat) (w : World) :
  (forall w0, slept (op w0).2 = slept w0 /\ now (op w0).2 = now w0) ->
  let res := retryWithBackoff op retries w in
  exists k, (k <= retries - 1)%nat /\
    slept res.2 = slept w ++ delays 0 k /\
    now res.2 = now w + sum_list (delays 0 k) /\
    (forall e, res.1 = inl e -> k = (retries - 1)%nat) /\
    (retries = 0%nat -> res = (inl (PlainError "Retry failed"), w)) /\
    (forall a w', retries <> 0%nat -> op w = (inr a, w') -> res = (inr a, w')).
Proof.
  intros Hop. cbv zeta. unfold retryWithBackoff.
  destruct (retry_loop_schedule op retries 0 retries w Hop eq_refl) as (k & H1 & H2 & H3 & H4).
  exists k. split_and!; try done.
  - by intros ->.
  - intros a w' Hr E. destruct retries; [done |]. simpl. unfold try_catch. by rewrite E.
Qed.

(** What one run of the operation of [fetchRepository] does to the world:
    at most two calls to the API and one admission request, no sleep, and
    the token and the cache are left alone. *)
Lemma operation_frame owner repo w :
  let w' := (operation owner repo w).2 in
  slept w' = slept w /\ now w' = now w /\
  has_token w' = has_token w /\ cache_file w' = cache_file w /\
  (api_calls w <= api_calls w' <= api_calls w + 2)%nat /\
  (length (acquired w) <= length (acquired w') <= length (acquired w) + 1)%nat.
Proof.
  unfold operation, bind, octokit_repos_get, updateLimits, acquire,
    octokit_repos_listContributors, ret.
  destruct (get_script w) as [|[e|r] gs]; cbn; [frame | frame |].
  destruct (acquire_script w) as [|[e|] qs]; cbn; rewrite ?length_app; cbn;
    [| frame |];
    destruct (contributors_script w) as [|[e|c] cs]; cbn; rewrite ?length_app; cbn; frame.
Qed.

Lemma retry_loop_frame owner repo retries i n w :
  let w' := (retry_loop (operation owner repo) retries i n w).2 in
  has_token w' = has_token w /\ cache_file w' = cache_file w /\
  (api_calls w <= api_calls w' <= api_calls w + 2 * n)%nat /\
  (length (acquired w) <= length (acquired w') <= length (acquired w) + n)%nat.
Proof.
  revert i w. induction n as [|n IH]; intros i w; simpl.
  - frame.
  - unfold try_catch.
    destruct (operation_frame owner repo w) as (_ & _ & Ht & Hc & Ha & Hq).
    destruct (operation owner repo w) as [[e|a] w1]; cbn [snd] in *.
    + destruct (i =? retries - 1)%nat; [unfold throw; cbn [snd]; frame |].
      unfold bind, sleep. cbn [fst snd].
      match goal with |- context [retry_loop _ retries (S i) n ?w2] =>
        destruct (IH (S i) w2) as (Ht2 & Hc2 & Ha2 & Hq2) end.
      cbn [has_token cache_file api_calls acquired] in *.
      frame.
    + frame.
Qed.

Lemma on_fetch_error_world owner repo e w : (on_fetch_error owner repo e w).2 = w.
Proof. unfold on_fetch_error. case_bool_decide; [done |]. by repeat case_match. Qed.

Ltac no_sleep :=
  exists 0%nat; split; [lia | unfold delays; simpl; by rewrite app_nil_r].

(** X4.  Whatever the API and the rate limiter answer, a call to
    [fetchRepository] makes at most six calls to the API and four
    admission requests, and sleeps at most twice, 5000 ms and then
    10000 ms: it returns within 15 seconds of sleep. *)
Theorem fetchRepository_effort owner repo w :
  let w' := (fetchRepository owner repo w).2 in
  (api_calls w <= api_calls w' <= api_calls w + 6)%nat /\
  (length (acquired w') <= length (acquired w) + 4)%nat /\
  (exists k, (k <= 2)%nat /\ slept w' = slept w ++ delays 0 k) /\
  now w <= now w' <= now w + 15000.
Proof.
  cbv zeta. remember (fetchRepository owner repo w) as res eqn:E.
  unfold fetchRepository, bind, get_world in E. cbn [fst snd] in E.
  destruct (has_token w); cbn [negb] in E.
  2:{ subst res. unfold throw. cbn. split_and!; try lia. no_sleep. }
  destruct (fresh_cache w).
  { subst res. unfold ret. cbn. split_and!; try lia. no_sleep. }
  unfold acquire in E.
  set (w1 := {| has_token := _ |}) in E.
  assert (api_calls w1 = api_calls w /\ length (acquired w1) = S (length (acquired w)) /\
          slept w1 = slept w /\ now w1 = now w) as (Ha1 & Hq1 & Hs1 & Hn1).
  { subst w1. cbn. rewrite length_app. cbn. frame. }
  clearbody w1.
  destruct (acquire_script w) as [|[e|] qs]; cbn [fst snd] in E.
  2:{ subst res. cbn [snd]. rewrite Ha1, Hq1, Hs1, Hn1. split_and!; try lia. no_sleep. }
  all: unfold incr_fetchCount in E; cbn [fst snd] in E;
    set (w2 := {| has_token := has_token w1 |}) in E;
    unfold try_catch in E;
    destruct (retry_loop_schedule (operation owner repo) MAX_RETRIES 0 MAX_RETRIES w2) as
      (k & Hk & Hsl & Hnow & _);
    [ intros w0; by destruct (operation_frame owner repo w0) as (? & ? & _) | done |];
    fold (retryWithBackoff (operation owner repo) MAX_RETRIES) in Hsl, Hnow;
    destruct (retry_loop_frame owner repo MAX_RETRIES 0 MAX_RETRIES w2) as (_ & _ & Ha & Hq);
    fold (retryWithBackoff (operation owner repo) MAX_RETRIES) in Ha, Hq;
    assert (0 <= sum_list (delays 0 k) <= 15000) as Hsum
      by (unfold MAX_RETRIES in Hk; cbn [Nat.sub] in Hk;
          destruct k as [|[|[|k]]]; [by vm_compute.. | lia]);
    assert (k <= 2)%nat as Hk2 by (unfold MAX_RETRIES in Hk; lia);
    set (r3 := retryWithBackoff (operation owner repo) MAX_RETRIES w2) in *;
    subst w2; cbn [api_calls acquired slept now] in *;
    rewrite Ha1, Hq1 in *; rewrite Hs1 in Hsl; rewrite Hn1 in Hnow;
    unfold MAX_RETRIES in Ha, Hq;
    destruct r3 as [[e|d] w3]; cbn [fst snd] in *;
    [ subst res; rewrite on_fetch_error_world
    | subst res; unfold write_cache, ret; cbn [fst snd api_calls acquired slept now] ];
    (split_and!; try lia; exists k; split; [lia | done]).
Qed.

(** What a call leaves behind when it returns a record. *)
Lemma fetchRepository_some owner repo w d w' :
  fetchRepository owner repo w = (inr (Some d), w') ->
  has_token w' = true /\ fresh_cache w' = Some d.
Proof.
  unfold fetchRepository, bind, get_world. cbn [fst snd].
  destruct (has_token w) eqn:Ht; cbn [negb]; [|done].
  destruct (fresh_cache w) as [c|] eqn:Hc.
  { unfold ret. intros [= <- <-]. done. }
  unfold acquire.
  set (w1 := {| has_token := _ |}).
  assert (has_token w1 = true) as Ht1 by done. clearbody w1.
  destruct (acquire_script w) as [|[e|] qs]; cbn [fst snd]; [| done |].
  all: unfold incr_fetchCount; cbn [fst snd];
    set (w2 := {| has_token := has_token w1 |});
    assert (has_token w2 = true) as Ht2 by done; clearbody w2;
    unfold try_catch;
    destruct (retry_loop_frame owner repo MAX_RETRIES 0 MAX_RETRIES w2) as (Ht3 & _);
    fold (retryWithBackoff (operation owner repo) MAX_RETRIES) in Ht3;
    destruct (retryWithBackoff (operation owner repo) MAX_RETRIES w2) as [[e|rd] w3];
    cbn [fst snd] in *;
    [ unfold on_fetch_error; case_bool_decide; [done | by repeat case_match]
    | unfold write_cache, ret; cbn [fst snd]; intros [= <- <-];
      unfold fresh_cache; cbn [has_token cache_file now];
      split; [congruence |];
      rewrite bool_decide_eq_true_2; [done | unfold CACHE_TTL; lia] ].
Qed.

(** X5.  A call that returns a record leaves it in the cache: the same
    call made again returns the same record and touches nothing, neither
    the API nor the rate limiter. *)
Theorem fetchRepository_cached owner repo w d w' :
  fetchRepository owner repo w = (inr (Some d), w') ->
  fetchRepository owner repo w' = (inr (Some d), w').
Proof.
  intros H. destruct (fetchRepository_some _ _ _ _ _ H) as [Ht Hc].
  unfold fetchRepository, bind, get_world. cbn [fst snd]. by rewrite Ht, Hc.
Qed.

(** X6.  What [fetchRepository] throws is a [GitHubError] whose status is
    neither 404 nor 0, or a [RateLimitError] with a retry delay, or the
    rejection of its first admission request, passed on as it is: the
    error of the HTTP client never reaches the caller. *)
Theorem fetchRepository_errors owner repo w e :
  (fetchRepository owner repo w).1 = inl e ->
  (exists m s, e = GitHubError m s /\ s <> 404 /\ s <> 0) \/
  (exists m ra, e = RateLimitError m (Some ra)) \/
  head (acquire_script w) = Some (Some e).
Proof.
  unfold fetchRepository, bind, get_world. cbn [fst snd].
  destruct (has_token w) eqn:Ht; cbn [negb].
  2:{ unfold throw. intros [= <-]. left. eauto. }
  destruct (fresh_cache w) as [c|] eqn:Hc; [done |].
  unfold acquire.
  set (w1 := {| has_token := _ |}). clearbody w1.
  destruct (acquire_script w) as [|[e0|] qs]; cbn [fst snd];
    [| intros [= <-]; by right; right |].
  all: unfold incr_fetchCount; cbn [fst snd];
    set (w2 := {| has_token := has_token w1 |}); clearbody w2;
    unfold try_catch;
    destruct (retryWithBackoff (operation owner repo) MAX_RETRIES w2) as [[e1|rd] w3];
    cbn [fst snd]; [| done];
    unfold on_fetch_error; case_bool_decide as H404; [done |];
    destruct e1 as [st fl ra| | |]; cbn [err_status] in *.
  all: try (unfold throw; intros [= <-]; left; eexists _, 500; by split_and!).
  all: assert (st <> 404) as Hst by congruence.
  all: repeat case_match; unfold throw; intros [= <-].
  all: try (right; left; by eauto).
  all: left; eexists _, _; split; [reflexivity |]; split; try done.
  all: try (case_bool_decide; lia).
Qed.

Lemma retryWithBackoff_schedule_witness :
  exists k, (k <= 2)%nat /\
    slept (retryWithBackoff (operation "foo" "bar") 3 world_not_found).2
    = slept world_not_found ++ delays 0 k.
Proof.
  destruct (retryWithBackoff_schedule (operation "foo" "bar") 3 world_not_found)
    as (k & Hk & Hs & _).
  - intros w0. by destruct (operation_frame "foo" "bar" w0) as (? & ? & _).
  - exists k. split; [exact Hk | exact Hs].
Defined.

Lemma fetchRepository_cached_witness :
  fetchRepository "foo" "bar" found_end = (inr (Some found_stats), found_end).
Proof.
  apply (fetchRepository_cached "foo" "bar" world_found).
  vm_compute. reflexivity.
Defined.

Lemma fetchRepository_errors_witness :
  (exists m s, GitHubError "Error fetching foo/bar" 503 = GitHubError m s /\
               s <> 404 /\ s <> 0) \/
  (exists m ra, GitHubError "Error fetching foo/bar" 503 = RateLimitError m (Some ra)) \/
  head (acquire_script world_down) = Some (Some (GitHubError "Error fetching foo/bar" 503)).
Proof.
  apply (fetchRepository_errors "foo" "bar" world_down).
  vm_compute. reflexivity.
Defined.

End FetchExtra.

Module UrlFacts.
Import Parser ParserFacts Url.

Lemma take_nonslash_app v post :
  slash_free v -> ends_segment post -> take_nonslash (v ++ post) = (v, post).
Proof.
  intros Hv Hp. induction Hv as [|c v Hc _ IH]; simpl.
  - destruct Hp as [-> | [r ->]]; [done |]. simpl.
    by replace (ascii_eqb slash slash) with true by (symmetry; by apply ascii_eqb_true).
  - apply ascii_eqb_false in Hc. by rewrite Hc, IH.
Qed.

Lemma match_repo_here_g c s : to_lower c <> "g"%char -> match_repo_here (c :: s) = None.
Proof.
  intros Hc. unfold match_repo_here. cbn [lit list_ascii_of_string startsWith_ci].
  replace (ascii_eqb "g" (to_lower c)) with false; [done |].
  symmetry. apply ascii_eqb_false. congruence.
Qed.

Lemma match_repo_cons c s :
  match_repo (c :: s) =
  match match_repo_here (c :: s) with Some m => Some m | None => match_repo s end.
Proof. reflexivity. Qed.

Lemma match_repo_g_free pre s : g_free pre -> match_repo (pre ++ s) = match_repo s.
Proof.
  induction 1 as [|c pre Hc _ IH]; [done |].
  simpl app. by rewrite match_repo_cons, match_repo_here_g.
Qed.

Lemma startsWith_ci_same p s : startsWith p s = true -> Forall (fun c => to_lower c = c) p ->
  startsWith_ci p s = true.
Proof.
  revert s. induction p as [|a p IH]; intros s; simpl; [done |].
  destruct s as [|b s]; [done |]. rewrite andb_true_iff, ascii_eqb_true.
  intros [-> Hs] Hl. inversion Hl as [|? ? Ha Hp]; subst.
  rewrite Ha. replace (ascii_eqb b b) with true by (symmetry; by apply ascii_eqb_true).
  by apply IH.
Qed.

Lemma match_repo_here_repo owner name rest :
  owner <> [] -> name <> [] -> slash_free owner -> slash_free name -> ends_segment rest ->
  match_repo_here (lit "github.com/" ++ owner ++ [slash] ++ name ++ rest) = Some (owner, name).
Proof.
  intros Ho Hn Hso Hsn Hr. unfold match_repo_here.
  replace (startsWith_ci _ _) with true by reflexivity.
  change (drop 11 (lit "github.com/" ++ ?x)) with x.
  rewrite (take_nonslash_app owner) by (done || right; by eexists).
  destruct owner as [|o owner]; [done |]. cbn [app].
  rewrite take_nonslash_app by done. by destruct name.
Qed.

Lemma remove_first_cons pat c s :
  remove_first pat (c :: s) =
  if startsWith pat (c :: s) then drop (length pat) (c :: s)
  else c :: remove_first pat s.
Proof. reflexivity. Qed.

(** [replace] removes the first occurrence of the pattern and nothing
    else. *)
Lemma remove_first_at pat a b :
  pat <> [] ->
  first_at pat (a ++ pat ++ b) (length a) ->
  remove_first pat (a ++ pat ++ b) = a ++ b.
Proof.
  intros Hp [_ Hmin]. induction a as [|c a IH].
  - simpl app. destruct pat as [|p pat]; [done |]. simpl app.
    rewrite remove_first_cons.
    replace (startsWith (p :: pat) (p :: pat ++ b)) with true
      by (symmetry; apply startsWith_spec; by exists b).
    change (drop (length (p :: pat)) (p :: pat ++ b)) with (drop (length pat) (pat ++ b)).
    by rewrite drop_app_length.
  - simpl app. rewrite remove_first_cons.
    pose proof (Hmin 0%nat ltac:(simpl; lia)) as H0. simpl in H0. rewrite H0.
    f_equal. apply IH.
    intros m Hm. apply (Hmin (S m)). simpl. lia.
Qed.

Lemma remove_first_absent pat s :
  includes pat s = false -> remove_first pat s = s.
Proof.
  induction s as [|c s IH].
  - simpl. intros H. apply orb_false_iff in H as [H _]. by rewrite H.
  - intros H. simpl in H. apply orb_false_iff in H as [H1 H2].
    rewrite remove_first_cons, H1. f_equal. by apply IH.
Qed.

(** X7.  For a URL that reads, after a prefix without the letter g (such
    as https://), github.com/OWNER/NAME, with an owner and a name that are
    not empty and hold no slash, followed by nothing or by a slash,
    [fetchRepositoryFromUrl] is [fetchRepository] of the owner and of the
    name with its first [.git] removed: a name that ends in its only
    [.git] loses it, a name without [.git] is kept. *)
Theorem fetchRepositoryFromUrl_repo pre owner name rest w :
  g_free pre -> owner <> [] -> name <> [] ->
  slash_free owner -> slash_free name -> ends_segment rest ->
  let url := pre ++ lit "github.com/" ++ owner ++ [slash] ++ name ++ rest in
  fetchRepositoryFromUrl url w
  = lift (Fetch.fetchRepository (str owner) (str (remove_first (lit ".git") name)) w) /\
  (forall base, first_at (lit ".git") name (length base) ->
                name = base ++ lit ".git" ->
                remove_first (lit ".git") name = base) /\
  (includes (lit ".git") name = false -> remove_first (lit ".git") name = name).
Proof.
  intros Hpre Ho Hn Hso Hsn Hr. cbv zeta. split_and!.
  - unfold fetchRepositoryFromUrl. rewrite match_repo_g_free by done.
    assert (match_repo (lit "github.com/" ++ owner ++ [slash] ++ name ++ rest)
            = Some (owner, name)) as ->.
    { change (lit "github.com/" ++ ?x) with ("g"%char :: (lit "ithub.com/" ++ x)).
      rewrite match_repo_cons.
      change ("g"%char :: (lit "ithub.com/" ++ ?x)) with (lit "github.com/" ++ x).
      by rewrite match_repo_here_repo. }
    cbv zeta. unfold lift. done.
  - intros base Hf ->.
    pose proof (remove_first_at (lit ".git") base [] ltac:(done)) as H.
    rewrite !app_nil_r in H. by apply H.
  - apply remove_first_absent.
Qed.

Lemma includes_ci_cons p c s :
  includes_ci p (c :: s) = startsWith_ci p (c :: s) || includes_ci p s.
Proof. reflexivity. Qed.

Lemma match_repo_none s : includes_ci (lit "github.com/") s = false -> match_repo s = None.
Proof.
  induction s as [|c s IH].
  - intros _. reflexivity.
  - rewrite includes_ci_cons. intros H. apply orb_false_iff in H as [H1 H2].
    rewrite match_repo_cons. unfold match_repo_here at 1. rewrite H1. by apply IH.
Qed.

Lemma to_lower_slash c : to_lower c = slash -> c = slash.
Proof.
  unfold to_lower. destruct (_ && _)%nat eqn:E; [|done].
  apply andb_true_iff in E as [E1 E2].
  apply Nat.leb_le in E1. apply Nat.leb_le in E2.
  intros H. apply (f_equal nat_of_ascii) in H.
  rewrite nat_ascii_embedding in H by lia. change (nat_of_ascii slash) with 47%nat in H. lia.
Qed.

Lemma startsWith_ci_lookup p s i a :
  startsWith_ci p s = true -> p !! i = Some a ->
  exists b, s !! i = Some b /\ a = to_lower b.
Proof.
  revert s i. induction p as [|x p IH]; intros s i; [done |].
  destruct s as [|y s]; [done |]. cbn [startsWith_ci]. rewrite andb_true_iff.
  intros [Hx Hp]. apply ascii_eqb_true in Hx. destruct i as [|i]; cbn.
  - intros [= <-]. by exists y.
  - by apply IH.
Qed.

Lemma startsWith_ci_slash s :
  startsWith_ci (lit "github.com/") s = true -> s !! 10%nat = Some slash.
Proof.
  intros H. destruct (startsWith_ci_lookup _ _ 10%nat slash H eq_refl) as (b & Hb & E).
  rewrite Hb. f_equal. symmetry in E. by apply to_lower_slash.
Qed.

Lemma includes_ci_slash_free s : slash_free s -> includes_ci (lit "github.com/") s = false.
Proof.
  induction s as [|c s IH]; intros H.
  - reflexivity.
  - rewrite includes_ci_cons. inversion H as [|? ? Hc Hs]; subst.
    rewrite (IH Hs), orb_false_r.
    destruct (startsWith_ci (lit "github.com/") (c :: s)) eqn:E; [|done].
    apply startsWith_ci_slash in E. apply list_elem_of_lookup_2 in E.
    exfalso. by apply (proj1 (Forall_forall _ _) H slash).
Qed.

(** With one slash only, and fewer than ten characters before it, the
    literal part of the expression does not occur. *)
Lemma includes_ci_short a owner :
  (length a < 10)%nat -> slash_free owner ->
  includes_ci (lit "github.com/") (a ++ slash :: owner) = false.
Proof.
  intros Ha Ho. induction a as [|c a IH].
  - simpl app. rewrite includes_ci_cons, includes_ci_slash_free, orb_false_r by done.
    destruct (startsWith_ci _ _) eqn:E; [|done].
    apply startsWith_ci_slash in E. cbn in E. apply list_elem_of_lookup_2 in E.
    exfalso. by apply (proj1 (Forall_forall _ _) Ho slash).
  - simpl app. rewrite includes_ci_cons, IH, orb_false_r by (simpl in Ha; lia).
    destruct (startsWith_ci _ _) eqn:E; [|done].
    apply startsWith_ci_slash in E.
    change ((c :: a ++ slash :: owner) !! 10%nat) with ((a ++ slash :: owner) !! 9%nat) in E.
    simpl in Ha.
    rewrite lookup_app_r in E by lia.
    destruct (9 - length a)%nat as [|k] eqn:Ek; [lia |].
    cbn in E. apply list_elem_of_lookup_2 in E.
    exfalso. by apply (proj1 (Forall_forall _ _) Ho slash).
Qed.

(** X8.  A URL in which github.com/ does not occur, in whatever case, and
    a URL that stops after the owner, are refused with a
    [ValidationError], and nothing has been asked of the rate limiter or of
    the API. *)
Theorem fetchRepositoryFromUrl_invalid w :
  (forall url,
      includes_ci (lit "github.com/") url = false ->
      fetchRepositoryFromUrl url w
      = (inl (ValidationError (lit "Invalid GitHub URL: " ++ url)), w)) /\
  (forall pre owner,
      g_free pre -> slash_free owner ->
      let url := pre ++ lit "github.com/" ++ owner in
      fetchRepositoryFromUrl url w
      = (inl (ValidationError (lit "Invalid GitHub URL: " ++ url)), w)).
Proof.
  split_and!.
  - intros url H. unfold fetchRepositoryFromUrl. by rewrite match_repo_none.
  - intros pre owner Hp Ho. cbv zeta. unfold fetchRepositoryFromUrl.
    rewrite match_repo_g_free by done.
    assert (match_repo (lit "github.com/" ++ owner) = None) as ->; [|done].
    change (lit "github.com/" ++ owner) with ("g"%char :: (lit "ithub.com" ++ slash :: owner)).
    rewrite match_repo_cons.
    assert (match_repo_here ("g"%char :: (lit "ithub.com" ++ slash :: owner)) = None) as ->.
    { change ("g"%char :: (lit "ithub.com" ++ slash :: owner)) with (lit "github.com/" ++ owner).
      unfold match_repo_here. replace (startsWith_ci _ _) with true by reflexivity.
      change (drop 11 (lit "github.com/" ++ owner)) with owner.
      pose proof (take_nonslash_app owner [] Ho ltac:(by left)) as H.
      rewrite app_nil_r in H. rewrite H. by destruct owner. }
    apply match_repo_none. apply includes_ci_short; [cbn; lia | done].
Qed.

Lemma fetchRepositoryFromUrl_repo_witness :
  fetchRepositoryFromUrl repo_url Fetch.world_not_found
  = lift (Fetch.fetchRepository "ethereum" "go-ethereum" Fetch.world_not_found).
Proof.
  refine (proj1 (fetchRepositoryFromUrl_repo (lit "https://") (lit "ethereum")
                   (lit "go-ethereum.git") [] Fetch.world_not_found _ _ _ _ _ _)).
  - repeat constructor; by vm_compute.
  - done.
  - done.
  - repeat constructor; by vm_compute.
  - repeat constructor; by vm_compute.
  - by left.
Defined.

End UrlFacts.

Module ContributorsFacts.
Import Contributors.

Lemma parse_page_valid entries : Forall valid (parse_page entries).
Proof.
  unfold parse_page. apply Forall_forall. intros c Hc.
  apply list_elem_of_filter in Hc as [Hc _].
  apply andb_true_iff in Hc as [H1 H2]. unfold nonempty in *.
  apply negb_true_iff in H1, H2. apply bool_decide_eq_false in H1, H2. by split.
Qed.

Lemma page_loop_valid script all w r w' :
  Forall valid all -> page_loop script all w = (inr r, w') -> Forall valid r.
Proof.
  revert all w. induction script as [|[e|p] rest IH]; intros all w Hall; simpl; [done | done |].
  assert (Forall valid (all ++ parse_page (data p))) as Hall'
    by (apply Forall_app; split; [done | apply parse_page_valid]).
  destruct (link_next p && _).
  - by apply IH.
  - by intros [= <- <-].
Qed.

Lemma attempt_valid w r w' : attempt w = (inr r, w') -> Forall valid r.
Proof.
  unfold attempt. destruct (acquire w) as [[e|] w1]; [done |].
  destruct (page_loop (pages w1) [] w1) as [[e|all] w2] eqn:E; [done |].
  intros [= <- <-]. by apply (page_loop_valid _ _ _ _ _ (Forall_nil_2 _) E).
Qed.

Lemma attempts_valid owner repo n rc w r w' :
  attempts owner repo n rc w = (inr r, w') -> Forall valid r.
Proof.
  revert rc w. induction n as [|n IH]; intros rc w; simpl; [done |].
  destruct (attempt w) as [[e|all] w1] eqn:E.
  - case_bool_decide; [apply IH | done].
  - intros [= <- <-]. by apply (attempt_valid _ _ _ E).
Qed.

(** X9.  Every contributor that [fetchRepositoryContributors] returns
    from the API (there being no fresh cache entry) has a login and a
    profile address that are not empty, whatever the pages hold and however
    many attempts it took. *)
Theorem fetchRepositoryContributors_valid owner repo w r w' :
  fresh_cache w = None ->
  fetchRepositoryContributors owner repo w = (inr r, w') ->
  Forall valid r.
Proof.
  unfold fetchRepositoryContributors. intros ->. apply attempts_valid.
Qed.

Lemma page_loop_pages fulls last rest all w :
  Forall full_page fulls -> last_page last ->
  let res := page_loop (map inr fulls ++ inr last :: rest) all w in
  res.1 = inr (all ++ flat_map (fun p => parse_page (data p)) (fulls ++ [last])) /\
  pages res.2 = rest /\
  api_calls res.2 = (api_calls w + S (length fulls))%nat /\
  slept res.2 = slept w ++ replicate (length fulls) 5000 /\
  now res.2 = now w + 5000 * Z.of_nat (length fulls) /\
  cache_file res.2 = cache_file w /\ cache_writable res.2 = cache_writable w /\
  acquired res.2 = acquired w /\ admissions res.2 = admissions w.
Proof.
  intros Hf Hl. revert all w.
  induction Hf as [|p fulls (Hn & Hlen & Hrem & Hra) _ IH]; intros all w; cbn [map app page_loop].
  - destruct Hl as (Hstop & Hrem & Hra). rewrite Hra.
    replace (default 0 (x_ratelimit_remaining last) <? 10) with false by (symmetry; lia).
    cbn [andb].
    replace (link_next last && (length (data last) =? 100)%nat) with false.
    2:{ symmetry. apply andb_false_iff. destruct Hstop as [-> | H]; [by left | right].
        by apply Nat.eqb_neq. }
    cbn. rewrite !app_nil_r. split_and!; try done; lia.
  - rewrite Hra, Hn, Hlen.
    replace (default 0 (x_ratelimit_remaining p) <? 10) with false by (symmetry; lia).
    cbn [andb Nat.eqb].
    match goal with |- context [page_loop _ ?a ?w0] =>
      destruct (IH a w0) as (H1 & H2 & H3 & H4 & H5 & H6 & H7 & H8 & H9) end.
    cbv zeta. rewrite H1, H2, H3, H4, H5, H6, H7, H8, H9. cbn.
    rewrite <- !app_assoc. split_and!; try done; lia.
Qed.

Lemma acquire_admitting w :
  admitting w -> (acquire w).1 = None /\ admitting (acquire w).2.
Proof.
  unfold admitting, acquire. intros H. cbn.
  destruct (admissions w) as [|a q]; [done |].
  inversion H as [|? ? -> Hq]; subst. done.
Qed.

(** X10.  Pagination.  When the rate limiter admits the request and the
    API answers with full pages (a hundred entries and a next link)
    followed by a last one, none asking for a wait, the call returns the
    kept entries of all these pages in order, after one admission, one API
    call per page and a pause of 5000 ms between two pages; the answers
    after the last page are not consumed, and the list is what the cache
    then holds if it can be written. *)
Theorem fetchRepositoryContributors_pages owner repo w fulls last rest :
  fresh_cache w = None -> admitting w ->
  pages w = map inr fulls ++ inr last :: rest ->
  Forall full_page fulls -> last_page last ->
  let res := fetchRepositoryContributors owner repo w in
  let all := flat_map (fun p => parse_page (data p)) (fulls ++ [last]) in
  res.1 = inr all /\
  api_calls res.2 = (api_calls w + S (length fulls))%nat /\
  acquired res.2 = S (acquired w) /\
  slept res.2 = slept w ++ replicate (length fulls) 5000 /\
  pages res.2 = rest /\
  (cache_writable w = true -> cache_file res.2 = Some (now res.2, Some all)).
Proof.
  intros Hc Ha Hp Hf Hl. cbv zeta. unfold fetchRepositoryContributors. rewrite Hc.
  unfold maxRetries. cbn [attempts]. unfold attempt.
  destruct (acquire_admitting w Ha) as [Hq _].
  destruct (acquire w) as [o w1] eqn:E. cbn [fst] in Hq. subst o.
  assert (pages w1 = pages w /\ api_calls w1 = api_calls w /\ slept w1 = slept w /\
          acquired w1 = S (acquired w) /\ cache_writable w1 = cache_writable w)
    as (Hp1 & Ha1 & Hs1 & Hq1 & Hw1).
  { unfold acquire in E. injection E as _ <-. done. }
  rewrite Hp1, Hp.
  destruct (page_loop_pages fulls last rest [] w1 Hf Hl)
    as (H1 & H2 & H3 & H4 & H5 & H6 & H7 & H8 & H9).
  destruct (page_loop _ [] w1) as [r w2]. cbn [fst snd] in *. subst r.
  cbn [fst snd]. unfold write_cache. rewrite H7, Hw1.
  destruct (cache_writable w); cbn; split_and!; try done; congruence.
Qed.

Lemma attempts_forbidden owner repo n rc w m e :
  Fetch.err_status e = Some 403 -> admitting w ->
  pages w = replicate m (inl e) -> (n <= m)%nat ->
  let res := attempts owner repo n rc w in
  res.1 = inl (Fetch.PlainError (failed_message owner repo)) /\
  api_calls res.2 = (api_calls w + n)%nat /\
  slept res.2
  = slept w ++ map (fun j => baseDelay * 2 ^ Z.of_nat (rc + S j)) (seq 0 n).
Proof.
  intros He. revert rc w m. induction n as [|n IH]; intros rc w m Ha Hp Hn; cbn [attempts].
  - cbn. rewrite app_nil_r. split_and!; (done || lia).
  - destruct m as [|m]; [lia |]. unfold attempt.
    destruct (acquire_admitting w Ha) as [Hq Ha1].
    destruct (acquire w) as [o w1] eqn:E. cbn [fst snd] in Hq, Ha1. subst o.
    assert (pages w1 = pages w /\ api_calls w1 = api_calls w /\ slept w1 = slept w)
      as (Hp1 & Hc1 & Hs1).
    { unfold acquire in E. injection E as _ <-. done. }
    rewrite Hp1, Hp. cbn [replicate page_loop].
    rewrite bool_decide_eq_true_2 by done.
    match goal with |- context [attempts _ _ n ?c ?w0] =>
      destruct (IH c w0 m) as (H1 & H2 & H3) end.
    + exact Ha1.
    + done.
    + lia.
    + cbv zeta. rewrite H1, H2, H3. cbn [sleep called api_calls slept].
      rewrite Hc1, Hs1. split_and!; [done | lia |].
      rewrite <- app_assoc. f_equal. cbn [seq map app]. f_equal.
      * by rewrite Nat.add_1_r.
      * rewrite <- seq_shift, map_map. apply map_ext. intros j.
        by replace (rc + S (S j))%nat with (S rc + S j)%nat by lia.
Qed.

(** X11.  Errors.  With the API answering 403 every time, the call gives
    up after five calls with its own error, having slept 20, 40, 80, 160
    and 320 seconds (the last of them before giving up); an error of
    another status on the first call is thrown as it is, after that one
    call and no sleep. *)
Theorem fetchRepositoryContributors_retries owner repo w :
  fresh_cache w = None -> admitting w ->
  (forall e m,
      Fetch.err_status e = Some 403 -> (5 <= m)%nat ->
      pages w = replicate m (inl e) ->
      let res := fetchRepositoryContributors owner repo w in
      res.1 = inl (Fetch.PlainError (failed_message owner repo)) /\
      api_calls res.2 = (api_calls w + 5)%nat /\
      slept res.2 = slept w ++ [20000; 40000; 80000; 160000; 320000]) /\
  (forall e rest,
      Fetch.err_status e <> Some 403 ->
      pages w = inl e :: rest ->
      let res := fetchRepositoryContributors owner repo w in
      res.1 = inl e /\
      api_calls res.2 = S (api_calls w) /\
      slept res.2 = slept w).
Proof.
  intros Hc Ha. split.
  - intros e m He Hm Hp. cbv zeta. unfold fetchRepositoryContributors. rewrite Hc.
    destruct (attempts_forbidden owner repo maxRetries 0 w m e He Ha Hp Hm) as (H1 & H2 & H3).
    split_and!; [done | done |]. rewrite H3. reflexivity.
  - intros e rest He Hp. cbv zeta. unfold fetchRepositoryContributors. rewrite Hc.
    unfold maxRetries. cbn [attempts]. unfold attempt.
    destruct (acquire_admitting w Ha) as [Hq _].
    destruct (acquire w) as [o w1] eqn:E. cbn [fst] in Hq. subst o.
    assert (pages w1 = pages w /\ api_calls w1 = api_calls w /\ slept w1 = slept w)
      as (Hp1 & Hc1 & Hs1).
    { unfold acquire in E. injection E as _ <-. done. }
    rewrite Hp1, Hp. cbn [page_loop]. rewrite bool_decide_eq_false_2 by done.
    cbn. by rewrite Hc1, Hs1.
Qed.

(** What a call leaves behind when it returns a list and the cache can be
    written. *)
Lemma page_loop_writable script all w :
  cache_writable (page_loop script all w).2 = cache_writable w.
Proof.
  revert all w. induction script as [|[e|p] rest IH]; intros all w; cbn [page_loop]; [done.. |].
  destruct (link_next p && _).
  - rewrite IH. cbn. by repeat case_match.
  - cbn. by repeat case_match.
Qed.

Lemma attempt_fresh w r w' :
  cache_writable w = true -> attempt w = (inr r, w') ->
  cache_writable w' = true /\ fresh_cache w' = Some r.
Proof.
  intros Hw. unfold attempt. destruct (acquire w) as [[e|] w1] eqn:E; [done |].
  assert (cache_writable w1 = true) as Hw1.
  { unfold acquire in E. injection E as _ <-. done. }
  pose proof (page_loop_writable (pages w1) [] w1) as Hw2.
  destruct (page_loop (pages w1) [] w1) as [[e|all] w2]; [done |].
  cbn [snd] in Hw2. intros [= <- <-]. unfold write_cache, fresh_cache.
  rewrite Hw2, Hw1. cbn. split; [congruence |].
  rewrite bool_decide_eq_true_2; [done | unfold CACHE_TTL; lia].
Qed.

Lemma attempts_fresh owner repo n rc w r w' :
  cache_writable w = true -> attempts owner repo n rc w = (inr r, w') ->
  fresh_cache w' = Some r.
Proof.
  revert rc w. induction n as [|n IH]; intros rc w Hw; cbn [attempts]; [done |].
  destruct (attempt w) as [[e|all] w1] eqn:E.
  - case_bool_decide; [|done]. apply IH. cbn.
    unfold attempt in E. destruct (acquire w) as [[e0|] w0] eqn:E0.
    + injection E as _ <-. unfold acquire in E0. injection E0 as _ <-. done.
    + assert (cache_writable w0 = true) as Hw0.
      { unfold acquire in E0. injection E0 as _ <-. done. }
      pose proof (page_loop_writable (pages w0) [] w0) as Hw2.
      destruct (page_loop (pages w0) [] w0) as [[e1|all] w2]; [|done].
      injection E as _ <-. cbn [snd] in Hw2. congruence.
  - intros [= <- <-]. by destruct (attempt_fresh w all w1 Hw E).
Qed.

(** The cache round trip: a list returned while the cache can be written
    is returned again by the next call, which changes nothing. *)
Theorem fetchRepositoryContributors_cached owner repo w r w' :
  cache_writable w = true ->
  fetchRepositoryContributors owner repo w = (inr r, w') ->
  fetchRepositoryContributors owner repo w' = (inr r, w').
Proof.
  intros Hw. unfold fetchRepositoryContributors at 1.
  destruct (fresh_cache w) as [c|] eqn:Hc.
  - intros [= <- <-]. unfold fetchRepositoryContributors. by rewrite Hc.
  - intros H. apply attempts_fresh in H; [|done].
    unfold fetchRepositoryContributors. by rewrite H.
Qed.

Lemma fetchRepositoryContributors_valid_witness :
  Forall valid (parse_page (data short_page)).
Proof.
  apply (fetchRepositoryContributors_valid "o" "r" world_contributors _
           (fetchRepositoryContributors "o" "r" world_contributors).2).
  - reflexivity.
  - vm_compute. reflexivity.
Defined.

Lemma fetchRepositoryContributors_pages_witness :
  let res := fetchRepositoryContributors "o" "r" world_paged in
  res.1 = inr (parse_page (data long_page) ++ parse_page (data short_page)) /\
  api_calls res.2 = 2%nat /\ slept res.2 = [5000].
Proof.
  destruct (fetchRepositoryContributors_pages "o" "r" world_paged [long_page] short_page [])
    as (H1 & H2 & _ & H4 & _).
  - reflexivity.
  - constructor.
  - reflexivity.
  - repeat constructor; by vm_compute.
  - split_and!; [by left | by vm_compute | done].
  - cbv zeta. rewrite H1, H2, H4. split_and!; [| done | done].
    reflexivity.
Defined.

Lemma fetchRepositoryContributors_retries_witness :
  (fetchRepositoryContributors "o" "r" world_forbidden).1
  = inl (Fetch.PlainError (failed_message "o" "r")).
Proof.
  refine (proj1 (proj1 (fetchRepositoryContributors_retries "o" "r" world_forbidden _ _)
                   forbidden 7%nat _ _ _)).
  - reflexivity.
  - constructor.
  - reflexivity.
  - lia.
  - reflexivity.
Defined.

End ContributorsFacts.

Module ImporterFacts.
Import Importer ListFacts.

Lemma chunk_loop_spawning fuel i total cs skip results acc :
  0 < cs -> skip <= i * cs -> Forall (fun r => r = true) results ->
  fuel = Z.to_nat (total - i) ->
  let run := chunk_loop fuel i total cs skip results acc in
  spawned run = rev (map (fun k => (i + Z.of_nat k) * cs) (seq 0 fuel)) ++ spawned acc /\
  pauses run = (pauses acc + (fuel - 1))%nat /\
  ok run = ok acc.
Proof.
  intros Hcs. revert i results acc.
  induction fuel as [|fuel IH]; intros i results acc Hi Hres Hfuel; cbn [chunk_loop].
  - cbn. split_and!; (done || lia).
  - replace (i <? total) with true by (symmetry; lia).
    replace (i * cs <? skip) with false by (symmetry; lia).
    cbv zeta.
    assert (Forall (fun r => r = true) (tail results)) as Hres'
      by (destruct Hres; [constructor | done]).
    destruct results as [|[|] results]; [| | by inversion Hres].
    all: match goal with |- context [chunk_loop _ (?j + 1) _ _ _ ?rs ?a] =>
           destruct (IH (j + 1) rs a ltac:(nia) Hres' ltac:(lia)) as (H1 & H2 & H3) end;
      rewrite H1, H2, H3; clear H1 H2 H3;
      (split_and!;
       [ cbn [seq map rev]; rewrite <- seq_shift, map_map;
         replace (i + Z.of_nat 0) with i by lia;
         rewrite <- app_assoc;
         erewrite map_ext; [destruct (i <? total - 1); reflexivity |];
         intros k; cbn beta; f_equal; lia
       | destruct (i <? total - 1) eqn:E; cbn [pauses]; lia
       | by destruct (i <? total - 1) ]).
Qed.

Lemma ceiling_spec a cs : 0 < cs -> a <= - ((- a) / cs) * cs < a + cs.
Proof.
  intros Hcs. pose proof (Z.div_mod (- a) cs ltac:(lia)) as H.
  pose proof (Z.mod_pos_bound (- a) cs Hcs) as Hr. nia.
Qed.

Lemma floor_spec a cs : 0 < cs -> a / cs * cs <= a < (a / cs + 1) * cs.
Proof.
  intros Hcs. pose proof (Z.div_mod a cs ltac:(lia)) as H.
  pose proof (Z.mod_pos_bound a cs Hcs) as Hr. nia.
Qed.

(** The loop begins, in effect, at the first chunk that does not start
    before [skip]. *)
Lemma chunk_loop_first totalRepos cs skip results :
  0 < cs ->
  importEcosystemReposInChunks totalRepos cs skip results
  = chunk_loop (Z.to_nat (totalChunks totalRepos cs - firstChunk skip cs))
               (firstChunk skip cs) (totalChunks totalRepos cs) cs skip results
               {| spawned := []; pauses := 0; ok := true |}.
Proof.
  intros Hcs. unfold importEcosystemReposInChunks, firstChunk, startChunk.
  set (total := totalChunks totalRepos cs).
  pose proof (ceiling_spec skip cs Hcs) as Hc. pose proof (floor_spec skip cs Hcs) as Hf.
  set (first := - (- skip / cs)) in *. set (start := skip / cs) in *.
  assert (first = start \/ (first = start + 1 /\ start * cs < skip)) as Hcase by nia.
  destruct Hcase as [E | [E Hlt]]; [by rewrite E |].
  destruct (Z.to_nat (total - start)) as [|fuel] eqn:Efuel.
  - by replace (Z.to_nat (total - first)) with 0%nat by lia.
  - cbn [chunk_loop].
    replace (start <? total) with true by (symmetry; lia).
    replace (start * cs <? skip) with true by (symmetry; lia).
    rewrite E. by replace (Z.to_nat (total - (start + 1))) with fuel by lia.
Qed.

Lemma chunk_run totalRepos cs skip results :
  0 < cs -> Forall (fun r => r = true) results ->
  let run := importEcosystemReposInChunks totalRepos cs skip results in
  let first := firstChunk skip cs in
  let total := totalChunks totalRepos cs in
  spawned run = rev (map (fun k => (first + Z.of_nat k) * cs)
                         (seq 0 (Z.to_nat (total - first)))) /\
  pauses run = (Z.to_nat (total - first) - 1)%nat /\
  ok run = true.
Proof.
  intros Hcs Hres. cbv zeta. rewrite chunk_loop_first by done.
  pose proof (ceiling_spec skip cs Hcs) as Hc. fold (firstChunk skip cs) in Hc.
  destruct (chunk_loop_spawning (Z.to_nat (totalChunks totalRepos cs - firstChunk skip cs))
              (firstChunk skip cs) (totalChunks totalRepos cs) cs skip results
              {| spawned := []; pauses := 0; ok := true |} Hcs ltac:(lia) Hres eq_refl)
    as (H1 & H2 & H3).
  rewrite H1, H2, H3. cbn. by rewrite app_nil_r.
Qed.

Lemma chunk_loop_failing fuel i total cs skip k rest acc :
  0 < cs -> skip <= i * cs -> fuel = Z.to_nat (total - i) -> (k < fuel)%nat ->
  let run := chunk_loop fuel i total cs skip (replicate k true ++ false :: rest) acc in
  spawned run = rev (map (fun j => (i + Z.of_nat j) * cs) (seq 0 (S k))) ++ spawned acc /\
  pauses run = (pauses acc + k)%nat /\
  ok run = false.
Proof.
  intros Hcs. revert i fuel acc.
  induction k as [|k IH]; intros i fuel acc Hi Hfuel Hk;
    (destruct fuel as [|fuel]; [lia |]); cbn [chunk_loop replicate app].
  - replace (i <? total) with true by (symmetry; lia).
    replace (i * cs <? skip) with false by (symmetry; lia).
    cbn [spawned pauses ok seq map rev app].
    replace (i + Z.of_nat 0) with i by lia. split_and!; [done | lia | done].
  - replace (i <? total) with true by (symmetry; lia).
    replace (i * cs <? skip) with false by (symmetry; lia).
    replace (i <? total - 1) with true by (symmetry; lia).
    cbv zeta. cbn [tail].
    match goal with |- context [chunk_loop _ (?j + 1) _ _ _ _ ?a] =>
      destruct (IH (j + 1) fuel a ltac:(nia) ltac:(lia) ltac:(lia)) as (H1 & H2 & H3) end.
    rewrite H1, H2, H3. clear H1 H2 H3. cbn [spawned pauses ok]. split_and!; [| lia | done].
    change (seq 0 (S (S k))) with (0%nat :: seq 1 (S k)).
    rewrite <- seq_shift, map_cons, map_map. cbn [rev].
    replace (i + Z.of_nat 0) with i by lia. rewrite <- app_assoc. cbn [app].
    f_equal. f_equal. apply map_ext. intros j. f_equal. lia.
Qed.

(** X12.  With a positive chunk size and every child process exiting with
    status 0, [importEcosystemReposInChunks] succeeds, and the [--skip]
    values it has started a child with are exactly the multiples of the
    chunk size from [skip] on and below the number of repositories, each
    once; it pauses between two children and not after the last. *)
Theorem importEcosystemReposInChunks_spawns totalRepos chunkSize skip results :
  0 < chunkSize -> 0 <= skip -> 0 <= totalRepos ->
  Forall (fun r => r = true) results ->
  let run := importEcosystemReposInChunks totalRepos chunkSize skip results in
  ok run = true /\
  (forall s, s ∈ spawned run <-> skip <= s < totalRepos /\ (chunkSize | s)) /\
  pauses run = (length (spawned run) - 1)%nat /\
  NoDup (spawned run).
Proof.
  intros Hcs Hskip Htot Hres.
  destruct (chunk_run totalRepos chunkSize skip results Hcs Hres) as (H1 & H2 & H3).
  cbv zeta. rewrite H1, H2, H3. clear H1 H2 H3.
  pose proof (ceiling_spec skip chunkSize Hcs) as Hc.
  pose proof (ceiling_spec totalRepos chunkSize Hcs) as Ht.
  fold (firstChunk skip chunkSize) in Hc. fold (totalChunks totalRepos chunkSize) in Ht.
  set (first := firstChunk skip chunkSize) in *.
  set (total := totalChunks totalRepos chunkSize) in *.
  split_and!.
  - done.
  - intros s. rewrite elem_of_rev, list_elem_of_fmap. split.
    + intros (k & -> & Hk). apply elem_of_seq in Hk.
      assert (first <= first + Z.of_nat k <= total - 1) as Hb by lia.
      split; [nia |]. by apply Z.divide_factor_r.
    + intros [Hs [q ->]].
      assert (first <= q <= total - 1) as Hb by nia.
      exists (Z.to_nat (q - first)). split.
      * f_equal. lia.
      * apply elem_of_seq. lia.
  - by rewrite length_rev, length_map, length_seq.
  - apply NoDup_ListNoDup, List.NoDup_rev, NoDup_ListNoDup, NoDup_fmap_2; [|apply NoDup_seq].
    intros a b Hab. cbn beta in Hab. nia.
Qed.

(** X13.  A child that exits with another status stops the import: when
    [k] children succeeded and the next one fails, the result is a failure,
    [k + 1] children were started, the last of them at chunk
    [firstChunk + k], and no later chunk is started. *)
Theorem importEcosystemReposInChunks_stops totalRepos chunkSize skip k rest :
  0 < chunkSize ->
  (Z.of_nat k < totalChunks totalRepos chunkSize - firstChunk skip chunkSize) ->
  let run :=
    importEcosystemReposInChunks totalRepos chunkSize skip (replicate k true ++ false :: rest) in
  ok run = false /\
  length (spawned run) = S k /\
  head (spawned run) = Some ((firstChunk skip chunkSize + Z.of_nat k) * chunkSize) /\
  pauses run = k.
Proof.
  intros Hcs Hk. cbv zeta. rewrite chunk_loop_first by done.
  pose proof (ceiling_spec skip chunkSize Hcs) as Hc. fold (firstChunk skip chunkSize) in Hc.
  destruct (chunk_loop_failing
              (Z.to_nat (totalChunks totalRepos chunkSize - firstChunk skip chunkSize))
              (firstChunk skip chunkSize) (totalChunks totalRepos chunkSize) chunkSize skip
              k rest {| spawned := []; pauses := 0; ok := true |} Hcs ltac:(lia) eq_refl
              ltac:(lia)) as (H1 & H2 & H3).
  rewrite H1, H2, H3. cbn [spawned pauses]. rewrite app_nil_r.
  split_and!; [done | | | done].
  - by rewrite length_rev, length_map, length_seq.
  - rewrite seq_S, map_app, rev_app_distr. reflexivity.
Qed.

Lemma slice_take {A} i c (urls : list A) :
  0 <= i -> 0 <= c ->
  slice i (i + c) urls = take (Z.to_nat c) (drop (Z.to_nat i) urls).
Proof.
  intros Hi Hc. unfold slice, clamp. cbv zeta.
  replace (i <? 0) with false by (symmetry; lia).
  replace (i + c <? 0) with false by (symmetry; lia).
  destruct (Z.le_gt_cases (Z.of_nat (length urls)) i) as [Hle | Hgt].
  - rewrite (Z.min_r i) by lia. rewrite (Z.min_r (i + c)) by lia.
    rewrite (drop_ge urls (Z.to_nat i)) by lia.
    rewrite drop_ge by lia. by rewrite !take_nil.
  - rewrite (Z.min_l i) by lia.
    destruct (Z.le_gt_cases (i + c) (Z.of_nat (length urls))) as [Hle2 | Hgt2].
    + rewrite Z.min_l by lia. f_equal. lia.
    + rewrite Z.min_r by lia. rewrite !take_ge; [done | rewrite length_drop; lia..].
Qed.

Lemma fetched_cons_fetch {A} (b : list A) plan : fetched (FetchAll b :: plan) = b ++ fetched plan.
Proof. reflexivity. Qed.

Lemma url_loop_unfold {A} fuel i c b p (urls : list A) :
  url_loop fuel i c b p urls =
  if i <? Z.of_nat (length urls) then
    match fuel with
    | O => None
    | S fuel' =>
        let batch := slice i (i + c) urls in
        let processed := p + Z.of_nat (length batch) in
        if b <=? processed then
          option_map (fun plan => FetchAll batch :: Flush :: plan)
                     (url_loop fuel' (i + c) c b 0 urls)
        else
          option_map (fun plan => FetchAll batch :: plan)
                     (url_loop fuel' (i + c) c b processed urls)
    end
  else Some [Flush].
Proof. by destruct fuel. Qed.

Lemma url_loop_enough {A} fuel i c b p (urls : list A) :
  0 < c -> 0 <= i -> Z.of_nat (length urls) <= i + Z.of_nat fuel * c ->
  exists plan,
    url_loop fuel i c b p urls = Some plan /\
    fetched plan = drop (Z.to_nat i) urls /\
    Forall (step_ok c) plan /\
    last plan = Some Flush.
Proof.
  intros Hc. revert i p. induction fuel as [|fuel IH]; intros i p Hi Hlen;
    rewrite url_loop_unfold.
  - replace (i <? Z.of_nat (length urls)) with false by (symmetry; lia).
    exists [Flush]. split_and!; [done | | by repeat constructor | done].
    rewrite drop_ge by lia. done.
  - destruct (i <? Z.of_nat (length urls)) eqn:E.
    2:{ exists [Flush]. split_and!; [done | | by repeat constructor | done].
        rewrite drop_ge by lia. done. }
    cbv zeta. rewrite slice_take by lia.
    set (batch := take (Z.to_nat c) (drop (Z.to_nat i) urls)).
    assert ((1 <= length batch)%nat /\ Z.of_nat (length batch) <= c) as Hb.
    { subst batch. rewrite length_take, length_drop. lia. }
    assert (batch ++ drop (Z.to_nat (i + c)) urls = drop (Z.to_nat i) urls) as Hcat.
    { subst batch. replace (Z.to_nat (i + c)) with (Z.to_nat i + Z.to_nat c)%nat by lia.
      rewrite <- drop_drop. apply take_drop. }
    destruct (b <=? p + Z.of_nat (length batch)).
    + destruct (IH (i + c) 0 ltac:(lia) ltac:(lia)) as (plan & -> & Hf & Hok & Hlast).
      exists (FetchAll batch :: Flush :: plan). cbn [option_map]. split_and!.
      * done.
      * rewrite fetched_cons_fetch.
        change (fetched (Flush :: plan)) with (fetched plan). by rewrite Hf.
      * constructor; [exact Hb |]. constructor; [exact I | done].
      * destruct plan; [done |]. exact Hlast.
    + destruct (IH (i + c) (p + Z.of_nat (length batch)) ltac:(lia) ltac:(lia))
        as (plan & -> & Hf & Hok & Hlast).
      exists (FetchAll batch :: plan). cbn [option_map]. split_and!.
      * done.
      * rewrite fetched_cons_fetch. by rewrite Hf.
      * constructor; [exact Hb | done].
      * destruct plan; [done |]. exact Hlast.
Qed.

Lemma url_loop_stuck {A} fuel b p (urls : list A) :
  urls <> [] -> url_loop fuel 0 0 b p urls = None.
Proof.
  intros Hne. revert p. induction fuel as [|fuel IH]; intros p; rewrite url_loop_unfold.
  - destruct urls; done.
  - assert ((0 <? Z.of_nat (length urls)) = true) as ->
      by (apply Z.ltb_lt; destruct urls; [done | simpl length; lia]).
    cbv zeta. change (0 + 0) with 0. rewrite !IH. by destruct (_ <=? _).
Qed.


(** X15.  With a concurrency of zero and a URL to process, the loop of
    [importEcosystemReposDirectly] does not end: no number of turns brings
    it to the final flush. *)
Theorem importEcosystemReposDirectly_stuck {A} (skip batchSize : Z) (allUrls : list A) :
  urls_to_process skip allUrls <> [] ->
  forall fuel, importEcosystemReposDirectly fuel skip 0 batchSize allUrls = None.
Proof. intros Hne fuel. by apply url_loop_stuck. Qed.

Lemma importEcosystemReposInChunks_spawns_witness :
  let run := importEcosystemReposInChunks 250 100 150 [] in
  ok run = true /\
  (forall s, s ∈ spawned run <-> 150 <= s < 250 /\ (100 | s)) /\
  pauses run = (length (spawned run) - 1)%nat /\
  NoDup (spawned run).
Proof.
  apply (importEcosystemReposInChunks_spawns 250 100 150 []); [lia | lia | lia | constructor].
Defined.

Lemma importEcosystemReposInChunks_stops_witness :
  let run := importEcosystemReposInChunks 450 100 0 [true; false] in
  ok run = false /\
  length (spawned run) = 2%nat /\
  head (spawned run) = Some 100 /\
  pauses run = 1%nat.
Proof.
  apply (importEcosystemReposInChunks_stops 450 100 0 1 []); [lia | by vm_compute].
Defined.


Lemma importEcosystemReposDirectly_stuck_witness :
  importEcosystemReposDirectly 1000 0 0 3 urls_sample = None.
Proof.
  apply (importEcosystemReposDirectly_stuck 0 3 urls_sample). discriminate.
Defined.

End ImporterFacts.

Module LanguagesFacts.
Import Languages.

Lemma head_insert_desc x l :
  head (insert_desc x l)
  = match head l with
    | None => Some x
    | Some y => if x.2 <? y.2 then Some y else Some x
    end.
Proof. destruct l as [|y l]; [done |]. simpl. by destruct (x.2 <? y.2). Qed.

Lemma head_sort_desc stats :
  match head (sort_desc stats) with
  | None => stats = []
  | Some x =>
      exists pre post,
        stats = pre ++ x :: post /\
        Forall (fun e => e.2 < x.2) pre /\
        Forall (fun e => e.2 <= x.2) post
  end.
Proof.
  induction stats as [|e stats IH]; [done |].
  cbn [sort_desc foldr]. fold (sort_desc stats). rewrite head_insert_desc.
  destruct (head (sort_desc stats)) as [y|].
  - destruct IH as (pre & post & -> & Hpre & Hpost).
    destruct (e.2 <? y.2) eqn:E.
    + apply Z.ltb_lt in E. exists (e :: pre), post. split_and!; [done | by constructor | done].
    + apply Z.ltb_ge in E. exists [], (pre ++ y :: post). split_and!; [done | constructor |].
      apply Forall_app. split.
      * eapply Forall_impl; [exact Hpre |]. intros z Hz. simpl in Hz. lia.
      * constructor; [done |]. eapply Forall_impl; [exact Hpost |]. intros z Hz. simpl in Hz. lia.
  - subst stats. exists [], []. split_and!; [done | constructor | constructor].
Qed.

(** X16.  The primary language that [storeLanguageStats] writes and
    [fetchPrimaryLanguage] returns is a language with the largest byte
    count, and among several of them the one that comes first in the
    statistics; without any language, [storeLanguageStats] writes no
    language and 0 bytes. *)
Theorem primary_is_first_largest stats :
  (stats = [] -> primary stats = (None, 0)) /\
  (stats <> [] ->
   exists pre language bytes post,
     stats = pre ++ (language, bytes) :: post /\
     primary stats = (Some language, bytes) /\
     fetchPrimaryLanguage (Some stats) = Some language /\
     Forall (fun e => e.2 < bytes) pre /\
     Forall (fun e => e.2 <= bytes) post).
Proof.
  split; [by intros -> |]. intros Hne.
  pose proof (head_sort_desc stats) as H. unfold fetchPrimaryLanguage, primary.
  destruct (sort_desc stats) as [|[language bytes] rest]; [done |]. cbn [head] in H.
  destruct H as (pre & post & -> & Hpre & Hpost).
  by exists pre, language, bytes, post.
Qed.

End LanguagesFacts.

Module WriterExtra.
Import Writer WriterFacts WriterMore.

(** X17.  The back-off delay of [processBatch] after a failure, as a
    function of the number of queued records: it is at its cap of
    30000 ms exactly from 130 records on, and at its base of 5000 ms for
    no batch that holds a record. *)
Theorem backoffDelay_cap n :
  (backoffDelay n = 30000 <-> (130 <= n)%nat) /\
  (backoffDelay n = 5000 <-> n = 0%nat).
Proof.
  split; split.
  - intros H. destruct (Nat.le_gt_cases 130 n) as [Hn | Hn]; [done |].
    pose proof (backoffDelay_mono n 129 ltac:(lia)) as Hm.
    assert (backoffDelay 129 < 30000) as E by (vm_compute; reflexivity). lia.
  - intros Hn. pose proof (backoffDelay_mono 130 n Hn) as Hm.
    assert (backoffDelay 130 = 30000) as E by (vm_compute; reflexivity).
    destruct (backoffDelay_spec n) as [[_ Hhi] _]. lia.
  - intros H. destruct n as [|n]; [done |].
    pose proof (backoffDelay_mono 1 (S n) ltac:(lia)) as Hm.
    assert (5000 < backoffDelay 1) as E by (vm_compute; reflexivity). lia.
  - intros ->. vm_compute. reflexivity.
Qed.

(** The [try] block throws at step [k] exactly when it has a step [k]. *)
Lemma run_stmts_fails ts k stmts work :
  (run_stmts ts (Some k) stmts work).2 = false <-> (k < length stmts)%nat.
Proof.
  revert k work. induction stmts as [|s stmts IH]; intros k work; simpl.
  - split; [done | lia].
  - destruct k as [|k]; [simpl; split; [lia | done] |]. rewrite IH. lia.
Qed.

Lemma end_batch_idle fault w : inflight w = None -> end_batch fault w = w.
Proof. intros H. unfold end_batch. by rewrite H. Qed.


Lemma queueRepository_known repo eco cat fault w :
  full_name repo ∈ processedRepos w -> queueRepository repo eco cat fault w = w.
Proof. intros H. unfold queueRepository. by rewrite bool_decide_eq_true_2. Qed.

(** X19.  A repository that is known is not queued again:
    [queueRepository] changes nothing for a repository whose full name
    [initialize] has found in the store under the ecosystem, and for one
    that the flush before has committed. *)
Theorem queueRepository_skips_known repo eco cat fault w :
  (forall eco0 row,
      row ∈ repositories (db w) -> r_ecosystem row = eco0 ->
      r_full_name row = full_name repo ->
      queueRepository repo eco cat fault (initialize eco0 w) = initialize eco0 w) /\
  (forall r : ExtendedRepositoryStats,
      processing w = false -> r ∈ take BATCH_SIZE (batch w) ->
      full_name r = full_name repo ->
      queueRepository repo eco cat fault (flush None w) = flush None w).
Proof.
  split.
  - intros eco0 row Hrow He Hn. apply queueRepository_known.
    unfold initialize. cbn [processedRepos]. apply elem_of_union_r.
    apply elem_of_list_to_set, list_elem_of_fmap. exists row. split; [done |].
    by apply list_elem_of_filter.
  - intros r Hp Hr Hn. apply queueRepository_known.
    assert (batch w <> []) as Hb
      by (intros E; rewrite E, take_nil in Hr; by apply elem_of_nil in Hr).
    destruct (flush_commits_one_snapshot_aux w Hp Hb) as (_ & _ & _ & -> & _).
    apply elem_of_union_r, names_spec. by exists r.
Qed.

(** *** The store *)

Lemma upsert_row_ids ts (repo : ExtendedRepositoryStats) table :
  map r_id (upsert_row ts repo table)
  = if bool_decide (id repo ∈ map r_id table) then map r_id table
    else map r_id table ++ [id repo].
Proof.
  induction table as [|row table IH]; cbn [upsert_row map].
  - rewrite bool_decide_eq_false_2; [done | apply not_elem_of_nil].
  - destruct (bool_decide (r_id row = id repo)) eqn:E.
    + apply bool_decide_eq_true in E. cbn [map updated_row r_id].
      rewrite bool_decide_eq_true_2; [done | rewrite <- E; by left].
    + apply bool_decide_eq_false in E. cbn [map]. rewrite IH.
      destruct (bool_decide (id repo ∈ map r_id table)) eqn:E1.
      * apply bool_decide_eq_true in E1. rewrite bool_decide_eq_true_2; [done | by right].
      * apply bool_decide_eq_false in E1. rewrite bool_decide_eq_false_2; [done |].
        intros [H | H]%elem_of_cons; [congruence | done].
Qed.

Lemma upsert_rows_ids ts rows table :
  NoDup (map r_id table) ->
  NoDup (map r_id (upsert_rows ts rows table)) /\
  (forall i, i ∈ map r_id table -> i ∈ map r_id (upsert_rows ts rows table)) /\
  (length table <= length (upsert_rows ts rows table))%nat.
Proof.
  unfold upsert_rows. revert table.
  induction rows as [|repo rows IH]; intros table Hnd; simpl; [done |].
  assert (NoDup (map r_id (upsert_row ts repo table)) /\
          (forall i, i ∈ map r_id table -> i ∈ map r_id (upsert_row ts repo table)) /\
          (length table <= length (upsert_row ts repo table))%nat) as (H1 & H2 & H3).
  { pose proof (upsert_row_ids ts repo table) as E.
    pose proof (f_equal length E) as El. rewrite !length_map in El.
    rewrite E. revert El. case_bool_decide as Hin; intros El.
    - rewrite length_map in El. split_and!; [done | done | lia].
    - rewrite length_app, length_map in El. simpl in El. split_and!.
      + apply NoDup_app. split_and!; [done | | apply NoDup_singleton].
        intros x Hx Hx'. apply list_elem_of_singleton in Hx'. by subst.
      + intros i Hi. apply elem_of_app. by left.
      + lia. }
  destruct (IH _ H1) as (H4 & H5 & H6). split_and!; [done | auto | lia].
Qed.

Lemma end_batch_db fault w :
  db (end_batch fault w) = db w \/
  exists snapshot, db (end_batch fault w) = commit (clock w) snapshot (db w).
Proof.
  unfold end_batch. destruct (inflight w) as [snapshot|]; [|by left].
  destruct fault as [[k | k |]|]; cbn [fault_step]; try (by left).
  - destruct (run_stmts_outcome (clock w) (Some k) (try_block snapshot) (db w)) as [H | H].
    + left. destruct (run_stmts _ _ _ _) as [work []]; [done |]. done.
    + right. exists snapshot. rewrite H, run_stmts_no_fault. by rewrite <- commit_unfold.
  - destruct (run_stmts_outcome (clock w) (Some k) (try_block snapshot) (db w)) as [H | H].
    + left. destruct (run_stmts _ _ _ _) as [work []]; [done |]. done.
    + right. exists snapshot. rewrite H, run_stmts_no_fault. by rewrite <- commit_unfold.
  - right. exists snapshot. rewrite run_stmts_no_fault. by rewrite <- commit_unfold.
Qed.

Lemma begin_batch_db w w1 : begin_batch w = Some w1 -> db w1 = db w /\ clock w <= clock w1.
Proof.
  unfold begin_batch. destruct (_ || _); [done |]. intros [= <-]. cbn. split; [done |].
  case_bool_decide; unfold MIN_BATCH_INTERVAL in *; lia.
Qed.

Lemma processBatch_db fault w :
  db (processBatch fault w) = db w \/
  exists ts snapshot, db (processBatch fault w) = commit ts snapshot (db w).
Proof.
  unfold processBatch. destruct (begin_batch w) as [w1|] eqn:E; [|by left].
  destruct (begin_batch_db _ _ E) as [Hd _].
  destruct (end_batch_db fault w1) as [H | [snapshot H]]; rewrite H, Hd; [by left |].
  right. by exists (clock w1), snapshot.
Qed.

(** A call on the service leaves the store alone or commits one snapshot
    to it. *)
Lemma run_op_db w op :
  db (run_op w op) = db w \/
  exists ts snapshot, db (run_op w op) = commit ts snapshot (db w).
Proof.
  destruct op as [eco | repo eco cat fault | fault | repo eco cat | | fault | fault]; cbn [run_op].
  - by left.
  - unfold queueRepository. case_bool_decide; [by left |]. cbv zeta.
    destruct (_ <=? _)%nat; [|by left]. apply (processBatch_db fault (push _ w)).
  - unfold flush. destruct (_ <? _)%nat; [apply processBatch_db | by left].
  - left. unfold queueRepository_suspend. case_bool_decide; [done |]. cbv zeta.
    destruct (_ <=? _)%nat; [|done].
    destruct (begin_batch (push _ w)) as [w1|] eqn:E; [|done].
    by destruct (begin_batch_db _ _ E).
  - left. unfold flush_suspend. destruct (_ <? _)%nat; [|done].
    destruct (begin_batch w) as [w1|] eqn:E; [|done]. by destruct (begin_batch_db _ _ E).
  - destruct (end_batch_db fault w) as [H | [snapshot H]]; [by left | right; eauto].
  - unfold run_immediate. destruct (scheduled w); [by left |].
    apply (processBatch_db fault {| batch := batch w |}).
Qed.

Lemma commit_ids ts snapshot store :
  NoDup (ids store) ->
  NoDup (ids (commit ts snapshot store)) /\
  (forall i, i ∈ ids store -> i ∈ ids (commit ts snapshot store)) /\
  (length (repositories store) <= length (repositories (commit ts snapshot store)))%nat.
Proof.
  unfold ids. rewrite commit_repositories. apply upsert_rows_ids.
Qed.

(** X20.  Whatever the service is asked to do, and whatever fails, the
    table of repositories keeps one row per id: the ids stay distinct, no
    id disappears and the table never shrinks. *)
Theorem store_keeps_one_row_per_id ops w :
  NoDup (ids (db w)) ->
  NoDup (ids (db (run ops w))) /\
  (forall i, i ∈ ids (db w) -> i ∈ ids (db (run ops w))) /\
  (length (repositories (db w)) <= length (repositories (db (run ops w))))%nat.
Proof.
  unfold run. revert w. induction ops as [|op ops IH]; intros w Hnd; simpl; [done |].
  assert (NoDup (ids (db (run_op w op))) /\
          (forall i, i ∈ ids (db w) -> i ∈ ids (db (run_op w op))) /\
          (length (repositories (db w)) <= length (repositories (db (run_op w op))))%nat)
    as (H1 & H2 & H3).
  { destruct (run_op_db w op) as [-> | (ts & snapshot & ->)]; [done |]. by apply commit_ids. }
  destruct (IH _ H1) as (H4 & H5 & H6). split_and!; [done | auto | lia].
Qed.

(** X21.  A flush, failing or not, leaves the row and the topics of every
    repository alone that is not among the first fifty records of the
    batch. *)
Theorem flush_leaves_other_repositories fault w i :
  Forall (fun r : ExtendedRepositoryStats => id r <> i) (take BATCH_SIZE (batch w)) ->
  rows_with i (repositories (db (flush fault w))) = rows_with i (repositories (db w)) /\
  topics_of i (repository_topics (db (flush fault w)))
  = topics_of i (repository_topics (db w)).
Proof.
  intros Hi. unfold flush. destruct (_ <? _)%nat; [|done].
  unfold processBatch. destruct (begin_batch w) as [w1|] eqn:E; [|done].
  assert (db w1 = db w /\ inflight w1 = Some (take BATCH_SIZE (batch w))) as [Hd Hin].
  { unfold begin_batch in E. destruct (_ || _); [done |]. by injection E as <-. }
  assert (db (end_batch fault w1) = db w1 \/
          db (end_batch fault w1) = commit (clock w1) (take BATCH_SIZE (batch w)) (db w1))
    as [-> | ->].
  { unfold end_batch. rewrite Hin.
    destruct fault as [[k | k |]|]; cbn [fault_step]; try (by left).
    - destruct (run_stmts_outcome (clock w1) (Some k)
                  (try_block (take BATCH_SIZE (batch w))) (db w1)) as [H | H].
      + left. destruct (run_stmts _ _ _ _) as [work []]; [done |]. done.
      + right. rewrite H, run_stmts_no_fault. by rewrite <- commit_unfold.
    - destruct (run_stmts_outcome (clock w1) (Some k)
                  (try_block (take BATCH_SIZE (batch w))) (db w1)) as [H | H].
      + left. destruct (run_stmts _ _ _ _) as [work []]; [done |]. done.
      + right. rewrite H, run_stmts_no_fault. by rewrite <- commit_unfold.
    - right. rewrite run_stmts_no_fault. by rewrite <- commit_unfold. }
  - by rewrite Hd.
  - rewrite commit_repositories, commit_topics, Hd.
    by rewrite rows_with_upsert_rows_other, run_topic_stmts_other.
Qed.

(** *** Records in the hands of the service *)

Lemma consistent_idle w : consistent w -> processing w = false -> inflight w = None.
Proof.
  intros Hc Hp. destruct (inflight w) eqn:E; [|done].
  unfold consistent in Hc. rewrite E in Hc. rewrite Hc in Hp; done.
Qed.

Lemma begin_batch_held w w1 :
  consistent w -> begin_batch w = Some w1 -> held w1 = held w /\ consistent w1.
Proof.
  intros Hc. unfold begin_batch. destruct (processing w) eqn:Hp; [done |]. cbn [orb].
  case_bool_decide; [done |]. intros [= <-].
  unfold held, consistent. cbn. rewrite (consistent_idle w Hc Hp). cbn.
  by rewrite take_drop.
Qed.

Lemma end_batch_held fault w :
  rolls_back fault -> held (end_batch fault w) = held w /\ consistent (end_batch fault w).
Proof.
  intros Hf. unfold end_batch. destruct (inflight w) as [snapshot|] eqn:Hin.
  2:{ split; [done |]. unfold consistent. by rewrite Hin. }
  destruct fault as [[k | k |]|]; cbn [fault_step]; try done.
  - destruct (run_stmts (clock w) (Some k) (try_block snapshot) (db w)) as [work []].
    + unfold held, consistent, finally_batch. cbn. rewrite Hin. cbn.
      rewrite concat_app. cbn. rewrite app_nil_r. by rewrite <- app_assoc.
    + unfold held, consistent, finally_batch. cbn. by rewrite Hin.
  - rewrite run_stmts_no_fault.
    unfold held, consistent, finally_batch. cbn. rewrite Hin. cbn.
    rewrite concat_app. cbn. rewrite app_nil_r. by rewrite <- app_assoc.
Qed.

Lemma processBatch_held fault w :
  consistent w -> rolls_back fault ->
  held (processBatch fault w) = held w /\ consistent (processBatch fault w).
Proof.
  intros Hc Hf. unfold processBatch. destruct (begin_batch w) as [w1|] eqn:E; [|done].
  destruct (begin_batch_held w w1 Hc E) as [H1 _].
  destruct (end_batch_held fault w1 Hf) as [H2 H3]. split; [congruence | done].
Qed.

Lemma push_held r w : held (push r w) = held w ++ [r] /\ (consistent w -> consistent (push r w)).
Proof. unfold held, push, consistent. cbn. by rewrite !app_assoc. Qed.

Lemma run_op_held w op :
  consistent w -> gentle op ->
  (held (run_op w op) = held w \/ exists r, held (run_op w op) = held w ++ [r]) /\
  consistent (run_op w op).
Proof.
  intros Hc Hg.
  destruct op as [eco | repo eco cat fault | fault | repo eco cat | | fault | fault];
    cbn [run_op gentle] in *.
  - split; [by left | done].
  - unfold queueRepository. case_bool_decide; [split; [by left | done] |]. cbv zeta.
    destruct (push_held {| stats := repo; ecosystem := eco; category := cat |} w) as [Hp Hcp].
    destruct (_ <=? _)%nat.
    + destruct (processBatch_held fault _ (Hcp Hc) Hg) as [H1 H2].
      split; [right; eexists; by rewrite H1, Hp | done].
    + split; [right; by eexists | auto].
  - unfold flush. destruct (_ <? _)%nat; [|split; [by left | done]].
    destruct (processBatch_held fault w Hc Hg) as [H1 H2]. split; [by left | done].
  - unfold queueRepository_suspend. case_bool_decide; [split; [by left | done] |]. cbv zeta.
    destruct (push_held {| stats := repo; ecosystem := eco; category := cat |} w) as [Hp Hcp].
    destruct (_ <=? _)%nat; [|split; [right; by eexists | auto]].
    destruct (begin_batch (push _ w)) as [w1|] eqn:E; cbn.
    + destruct (begin_batch_held _ w1 (Hcp Hc) E) as [H1 H2].
      split; [right; eexists; by rewrite H1, Hp | done].
    + split; [right; by eexists | auto].
  - unfold flush_suspend. destruct (_ <? _)%nat; [|split; [by left | done]].
    destruct (begin_batch w) as [w1|] eqn:E; cbn; [|split; [by left | done]].
    destruct (begin_batch_held _ w1 Hc E) as [H1 H2]. split; [by left | done].
  - destruct (end_batch_held fault w Hg) as [H1 H2]. split; [by left | done].
  - unfold run_immediate. destruct (scheduled w) as [|n]; [split; [by left | done] |].
    set (w0 := {| batch := batch w |}).
    assert (held w0 = held w /\ consistent w0) as [Hh Hc0] by done.
    destruct (processBatch_held fault w0 Hc0 Hg) as [H1 H2].
    split; [left; congruence | done].
Qed.



Lemma store_keeps_one_row_per_id_witness :
  let w := initial 100000 empty_store in
  NoDup (ids (db (run ops_rewrite w))) /\
  (forall i, i ∈ ids (db w) -> i ∈ ids (db (run ops_rewrite w))) /\
  (length (repositories (db w)) <= length (repositories (db (run ops_rewrite w))))%nat.
Proof.
  apply (store_keeps_one_row_per_id ops_rewrite (initial 100000 empty_store)). constructor.
Defined.

Lemma flush_leaves_other_repositories_witness :
  rows_with 8 (repositories (db (flush None world_other)))
  = rows_with 8 (repositories (db world_other)) /\
  topics_of 8 (repository_topics (db (flush None world_other)))
  = topics_of 8 (repository_topics (db world_other)).
Proof.
  apply (flush_leaves_other_repositories None world_other 8).
  vm_compute. repeat constructor. discriminate.
Defined.


End WriterExtra.

Module ReaderFacts.
Import Writer WriterFacts Reader.



End ReaderFacts.

Module LimiterExtra.
Import Limiter LimiterFacts LimiterMore ListFacts.

(** **** Every request is queued or settled, once *)

Lemma reject_all_trace (q : list QueueItem) ts a :
  let r := fold_left
             (fun acc item =>
                updateFailedPromises (record (Rejected (uid item) ts SaveStateFailed) acc))
             q a in
  trace r = rev (map (fun item => Rejected (uid item) ts SaveStateFailed) q) ++ trace a.
Proof.
  revert a. induction q as [|x q IH]; intros a; [done |].
  simpl fold_left. cbv zeta in *. rewrite IH. proj_simpl. simpl rev.
  by rewrite <- app_assoc.
Qed.

Lemma emergency_trace l :
  trace (emergency l)
  = rev (map (fun item => Rejected (uid item) (now l) SaveStateFailed) (queue l)) ++ trace l /\
  queue (emergency l) = [] /\ next_uid (emergency l) = next_uid l.
Proof.
  unfold emergency. cbv zeta. set (l1 := set_file _ l).
  pose proof (reject_all_trace (queue l1) (now l) l1) as H.
  destruct (reject_all_facts (queue l1) (now l) l1) as (_ & _ & _ & _ & H5).
  cbv zeta in *. unfold exit_loop, set_queue. cbn [trace queue next_uid].
  by rewrite H, H5.
Qed.

Lemma emergency_accounted l : Accounted l -> Accounted (emergency l).
Proof.
  unfold Accounted. destruct (emergency_trace l) as (-> & -> & ->). intros H.
  rewrite <- H. cbn [map app]. rewrite map_app, map_rev, map_map. cbn [event_uid].
  by rewrite <- Permutation_rev.
Qed.

Lemma accounted_grant h rest tr n t r :
  map uid (h :: rest) ++ map event_uid tr ≡ₚ seq 0 n ->
  map uid rest ++ map event_uid (Resolved (uid h) t r :: tr) ≡ₚ seq 0 n.
Proof. intros H. rewrite <- H. cbn. by rewrite <- Permutation_middle. Qed.

Lemma accounted_reject h rest tr n t e :
  map uid (h :: rest) ++ map event_uid tr ≡ₚ seq 0 n ->
  map uid rest ++ map event_uid (Rejected (uid h) t e :: tr) ≡ₚ seq 0 n.
Proof. intros H. rewrite <- H. cbn. by rewrite <- Permutation_middle. Qed.

Lemma accounted_retry h rest tr n :
  map uid (h :: rest) ++ map event_uid tr ≡ₚ seq 0 n ->
  map uid (rest ++ [retried h]) ++ map event_uid tr ≡ₚ seq 0 n.
Proof.
  intros H. rewrite <- H. rewrite map_app. cbn.
  rewrite <- app_assoc. cbn. by rewrite <- Permutation_middle.
Qed.

Lemma burst_from_accounted n i b st l : Accounted l -> Accounted (burst_from n i b st l).
Proof.
  revert i st l. induction n as [|n IH]; intros i st l Ha; cbn [burst_from].
  - unfold after_burst. destruct (queue l); exact Ha.
  - destruct (queue l) as [|item rest] eqn:Hq; [by apply IH |].
    unfold Accounted in Ha. rewrite Hq in Ha.
    destruct (head (disk l)) as [[| |]|].
    + unfold Accounted. proj_simpl. by apply accounted_grant.
    + destruct (retryCount item <? MAX_RETRIES)%nat.
      * unfold Accounted. proj_simpl. by apply accounted_retry.
      * apply IH. unfold Accounted. proj_simpl. by apply accounted_reject.
    + destruct (retryCount item <? MAX_RETRIES)%nat; apply emergency_accounted;
        unfold Accounted; proj_simpl.
      * by apply accounted_retry.
      * by apply accounted_reject.
    + unfold Accounted. proj_simpl. by apply accounted_grant.
Qed.

Lemma filter_uid_perm (q : list QueueItem) u :
  NoDup (map uid q) -> u ∈ map uid q ->
  map uid q ≡ₚ u :: map uid (filter (fun item => uid item <> u) q).
Proof.
  induction q as [|x q IH]; intros Hnd Hu; [by apply elem_of_nil in Hu |].
  cbn [map] in *. apply NoDup_cons in Hnd as [Hx Hnd]. rewrite filter_cons.
  destruct (decide (uid x <> u)) as [Hne | Heq].
  - apply elem_of_cons in Hu as [-> | Hu]; [done |].
    cbn [map]. rewrite (IH Hnd Hu) at 1. apply Permutation_swap.
  - apply dec_stable in Heq. subst u.
    rewrite filter_all; [done |].
    intros y Hy Heq. apply Hx. rewrite <- Heq. apply list_elem_of_fmap. eauto.
Qed.

Lemma processQueue_accounted l : Accounted l -> Accounted (processQueue l).
Proof.
  intros Ha. unfold processQueue. destruct (processing l); [done |].
  destruct (queue l) eqn:Hq; [done |]. unfold Accounted in *. simpl. by rewrite Hq in Ha.
Qed.

Lemma step_accounted l e l' : Accounted l -> step l e = Some l' -> Accounted l'.
Proof.
  intros Ha. destruct e as [key | remaining reset | | d | | u]; simpl.
  - intros [= <-]. unfold acquire. apply processQueue_accounted.
    unfold Accounted in *. cbn [queue trace next_uid]. rewrite map_app. cbn [map uid].
    rewrite <- app_assoc. cbn [app]. rewrite <- Permutation_middle.
    rewrite seq_S. cbn [plus]. rewrite <- Ha. by rewrite Permutation_cons_append.
  - intros [= <-]. unfold updateLimits. cbv zeta.
    destruct (_ && _); [apply processQueue_accounted |]; exact Ha.
  - intros [= <-]. exact Ha.
  - destruct (may_pass d l); [|done]. intros [= <-]. exact Ha.
  - destruct (processing l && (wake l <=? now l)); [|done]. intros [= <-].
    unfold wake_loop. destruct (loop l); [done | | by apply burst_from_accounted].
    unfold at_head. destruct (queue l) eqn:Hq; [exact Ha |].
    destruct (_ =? 0); [exact Ha |]. by apply burst_from_accounted.
  - case_bool_decide; [|done]. intros [= <-]. unfold fire, handleTimeout. proj_simpl.
    case_bool_decide as Hu; [|exact Ha].
    unfold Accounted in *. proj_simpl. cbn [map event_uid].
    rewrite <- Permutation_middle. rewrite <- Ha.
    assert (NoDup (map uid (queue l))) as Hnd.
    { assert (NoDup (map uid (queue l) ++ map event_uid (trace l))) as Hall
        by (rewrite Ha; apply NoDup_seq).
      by apply NoDup_app in Hall as [Hall _]. }
    by rewrite (filter_uid_perm (queue l) u Hnd Hu) at 1.
Qed.

Lemma run_accounted evs l l' : Accounted l -> run evs l = Some l' -> Accounted l'.
Proof.
  revert l. induction evs as [|e evs IH]; intros l H; simpl.
  - by intros [= <-].
  - destruct (step l e) as [l1|] eqn:E; [|done]. intros Hrun.
    apply (IH l1); [by apply (step_accounted l e) | done].
Qed.

Lemma initial_accounted ts f script : Accounted (initial ts f script).
Proof. unfold Accounted. simpl. done. Qed.

Lemma accounted_facts l :
  Accounted l ->
  NoDup (map event_uid (trace l)) /\
  (forall u, u ∈ map uid (queue l) -> u ∉ map event_uid (trace l)) /\
  (forall u, (u < next_uid l)%nat <->
             u ∈ map uid (queue l) \/ u ∈ map event_uid (trace l)).
Proof.
  unfold Accounted. intros Ha.
  assert (NoDup (map uid (queue l) ++ map event_uid (trace l))) as Hnd
    by (rewrite Ha; apply NoDup_seq).
  apply NoDup_app in Hnd as (_ & Hdis & Hnt).
  split_and!; [done | done |].
  intros u. rewrite <- elem_of_app, Ha, elem_of_seq. lia.
Qed.

(** X24.  Every request is accounted for, once.  At any moment of any
    run of the limiter, each request made so far is either still queued or
    settled, never both; no promise is settled twice, and no request
    disappears. *)
Theorem request_settled_once evs ts f script l :
  run evs (initial ts f script) = Some l ->
  map uid (queue l) ++ map event_uid (trace l) ≡ₚ seq 0 (next_uid l) /\
  NoDup (map event_uid (trace l)) /\
  (forall u, u ∈ map uid (queue l) -> u ∉ map event_uid (trace l)) /\
  (forall u, (u < next_uid l)%nat <->
             u ∈ map uid (queue l) \/ u ∈ map event_uid (trace l)).
Proof.
  intros Hrun.
  pose proof (run_accounted evs _ l (initial_accounted ts f script) Hrun) as Ha.
  split; [exact Ha | by apply accounted_facts].
Qed.

(** **** Admissions are a second apart *)

Lemma grant_times_elem u t r tr : Resolved u t r ∈ tr -> t ∈ grant_times tr.
Proof.
  intros H. unfold grant_times. apply list_elem_of_In, in_flat_map.
  exists (Resolved u t r). split; [by apply list_elem_of_In | by left].
Qed.

Lemma spaced_apart tr a ta ra b tb rb :
  spaced (grant_times tr) ->
  Resolved a ta ra ∈ tr -> Resolved b tb rb ∈ tr ->
  Resolved a ta ra <> Resolved b tb rb ->
  ta + BASE_DELAY <= tb \/ tb + BASE_DELAY <= ta.
Proof.
  induction tr as [|e tr IH]; intros Hs Ha Hb Hne; [by apply elem_of_nil in Ha |].
  assert (spaced (grant_times tr) /\
          forall u t r, e = Resolved u t r ->
                        Forall (fun t' => t' + BASE_DELAY <= t) (grant_times tr)) as [Hs' Hhead].
  { destruct e as [u t r | u t err]; cbn [grant_times flat_map app] in Hs.
    - destruct Hs as [Hf Hs']. split; [done |]. by intros ? ? ? [= <- <- <-].
    - split; [done | done]. }
  apply elem_of_cons in Ha as [Ha | Ha]; apply elem_of_cons in Hb as [Hb | Hb].
  - congruence.
  - right. pose proof (Hhead _ _ _ (eq_sym Ha)) as Hf.
    apply (proj1 (Forall_forall _ _) Hf). by apply (grant_times_elem b tb rb).
  - left. pose proof (Hhead _ _ _ (eq_sym Hb)) as Hf.
    apply (proj1 (Forall_forall _ _) Hf). by apply (grant_times_elem a ta ra).
  - by apply IH.
Qed.

(** X25.  Two admissions of different requests are at least
    [BASE_DELAY], a second, apart. *)
Theorem admissions_a_second_apart evs ts f script l a ta ra b tb rb :
  run evs (initial ts f script) = Some l ->
  Resolved a ta ra ∈ trace l -> Resolved b tb rb ∈ trace l -> a <> b ->
  ta + 1000 <= tb \/ tb + 1000 <= ta.
Proof.
  intros Hrun Ha Hb Hne.
  destruct (run_paced evs _ l (initial_paced ts f script) Hrun) as [Hs _].
  apply (spaced_apart (trace l) a ta ra b tb rb Hs Ha Hb). congruence.
Qed.

(** **** No more than four attempts *)

Lemma reject_all_bounded (q : list QueueItem) ts a :
  Forall (fun e => (attempt_of e <= MAX_RETRIES)%nat) (trace a) ->
  let r := fold_left
             (fun acc item =>
                updateFailedPromises (record (Rejected (uid item) ts SaveStateFailed) acc))
             q a in
  Forall (fun e => (attempt_of e <= MAX_RETRIES)%nat) (trace r).
Proof.
  intros H. cbv zeta. rewrite reject_all_trace. apply Forall_app. split; [|done].
  apply Forall_forall. intros e He. apply elem_of_rev, list_elem_of_fmap in He as (x & -> & _).
  cbn. lia.
Qed.

Lemma emergency_bounded l :
  Forall (fun e => (attempt_of e <= MAX_RETRIES)%nat) (trace l) -> Bounded (emergency l).
Proof.
  intros H. unfold Bounded. destruct (emergency_trace l) as (-> & -> & _).
  split; [constructor |]. apply Forall_app. split; [|done].
  apply Forall_forall. intros e He. apply elem_of_rev, list_elem_of_fmap in He as (x & -> & _).
  cbn. lia.
Qed.

Lemma burst_from_bounded n i b st l : Bounded l -> Bounded (burst_from n i b st l).
Proof.
  revert i st l. induction n as [|n IH]; intros i st l Hb; cbn [burst_from].
  - unfold after_burst. destruct (queue l); exact Hb.
  - destruct (queue l) as [|item rest] eqn:Hq; [by apply IH |].
    destruct Hb as [Hqb Htb]. rewrite Hq in Hqb. apply Forall_cons in Hqb as [Hi Hrest].
    destruct (head (disk l)) as [[| |]|].
    + unfold Bounded. proj_simpl. split; [done | by constructor].
    + destruct (retryCount item <? MAX_RETRIES)%nat eqn:E.
      * apply Nat.ltb_lt in E. unfold Bounded. proj_simpl. split; [|done].
        apply Forall_app. split; [done |]. constructor; [|done]. cbn. lia.
      * apply IH. unfold Bounded. proj_simpl. split; [done |]. constructor; [cbn; lia | done].
    + destruct (retryCount item <? MAX_RETRIES)%nat; apply emergency_bounded; proj_simpl;
        [done | constructor; [cbn; lia | done]].
    + unfold Bounded. proj_simpl. split; [done | by constructor].
Qed.

Lemma processQueue_bounded l : Bounded l -> Bounded (processQueue l).
Proof.
  intros Hb. unfold processQueue. destruct (processing l); [done |].
  destruct (queue l) eqn:Hq; [done |]. unfold Bounded in *. simpl. by rewrite Hq in Hb.
Qed.

Lemma step_bounded l e l' : Bounded l -> step l e = Some l' -> Bounded l'.
Proof.
  intros Hb. destruct e as [key | remaining reset | | d | | u]; simpl.
  - intros [= <-]. unfold acquire. apply processQueue_bounded.
    destruct Hb as [Hq Ht]. unfold Bounded. cbn [queue trace]. split; [|done].
    apply Forall_app. split; [done |]. constructor; [cbn; lia | done].
  - intros [= <-]. unfold updateLimits. cbv zeta.
    destruct (_ && _); [apply processQueue_bounded |]; exact Hb.
  - intros [= <-]. exact Hb.
  - destruct (may_pass d l); [|done]. intros [= <-]. exact Hb.
  - destruct (processing l && (wake l <=? now l)); [|done]. intros [= <-].
    unfold wake_loop. destruct (loop l); [done | | by apply burst_from_bounded].
    unfold at_head. destruct (queue l) eqn:Hq; [exact Hb |].
    destruct (_ =? 0); [exact Hb |]. by apply burst_from_bounded.
  - case_bool_decide; [|done]. intros [= <-]. unfold fire, handleTimeout. proj_simpl.
    case_bool_decide as Hu; [|exact Hb].
    destruct Hb as [Hq Ht]. unfold Bounded. proj_simpl. split.
    + by apply Forall_filter_weaken.
    + constructor; [cbn; lia | done].
Qed.

Lemma run_bounded evs l l' : Bounded l -> run evs l = Some l' -> Bounded l'.
Proof.
  revert l. induction evs as [|e evs IH]; intros l H; simpl.
  - by intros [= <-].
  - destruct (step l e) as [l1|] eqn:E; [|done]. intros Hrun.
    apply (IH l1); [by apply (step_bounded l e) | done].
Qed.

(** X26.  A request is put back at most [MAX_RETRIES] times: no queued
    item has a retry count above 3, and no request is admitted on a later
    attempt than its fourth. *)
Theorem at_most_four_attempts evs ts f script l :
  run evs (initial ts f script) = Some l ->
  (forall x, x ∈ queue l -> (retryCount x <= 3)%nat) /\
  (forall u t r, Resolved u t r ∈ trace l -> (r <= 3)%nat).
Proof.
  intros Hrun.
  assert (Bounded (initial ts f script)) as H0 by (split; constructor).
  destruct (run_bounded evs _ l H0 Hrun) as [Hq Ht]. split.
  - intros x Hx. by apply (proj1 (Forall_forall _ _) Hq).
  - intros u t r He. by apply (proj1 (Forall_forall _ _) Ht (Resolved u t r)).
Qed.

(** **** The time-out of a request that has not been retried *)

(** X27.  A request that waits on its first attempt has its timer armed
    for thirty seconds after it was queued, and that time has not passed;
    when the timer fires the request is rejected with the time-out error,
    and it is never admitted afterwards. *)
Theorem first_attempt_times_out evs0 ts f script l x :
  run evs0 (initial ts f script) = Some l ->
  x ∈ queue l -> retryCount x = 0%nat ->
  (uid x, queuedAt x + 30000) ∈ timers l /\
  now l <= queuedAt x + 30000 /\
  (forall evs l',
      run evs (fire (uid x) l) = Some l' ->
      Rejected (uid x) (now l) RequestTimedOut ∈ trace l' /\
      forall t r, Resolved (uid x) t r ∉ trace l').
Proof.
  intros Hrun Hx Hf.
  destruct (queued_request_within_timeout evs0 ts f script l x Hrun Hx Hf) as [Hin Hnow].
  split_and!; [done | done |].
  intros evs l' Hrun'.
  assert (uid x ∈ map uid (queue l)) as Hu by (apply list_elem_of_fmap; eauto).
  destruct (timeout_is_final evs0 ts f script l (uid x) evs l' Hrun Hu Hrun') as [Hrej Hres].
  split; [done |]. intros t r Hin'. apply Hres in Hin'.
  pose proof (run_accounted evs0 _ l (initial_accounted ts f script) Hrun) as Ha.
  destruct (accounted_facts l Ha) as (_ & Hdis & _).
  apply (Hdis (uid x) Hu). apply list_elem_of_fmap. by exists (Resolved (uid x) t r).
Qed.

(** **** When the state cannot be written at all *)


(** **** An idle limiter with budget *)

Lemma currentBurst_single st l item :
  queue l = [item] -> 0 < tokens st -> currentBurst st l = 1.
Proof.
  intros Hq Ht. unfold currentBurst, BURST_SIZE. rewrite Hq. cbn [length].
  pose proof (Z.div_mod (- (tokens st * 10)) 100 ltac:(lia)) as E.
  pose proof (Z.mod_pos_bound (- (tokens st * 10)) 100 ltac:(lia)) as Hr. lia.
Qed.

Lemma at_head_single l item :
  queue l = [item] -> 0 < tokens (file l) ->
  head (disk l) <> Some SaveFails -> head (disk l) <> Some SaveFailsTwice ->
  trace (at_head l) = Resolved (uid item) (now l) (retryCount item) :: trace l /\
  queue (at_head l) = [] /\
  now (at_head l) = now l /\
  totalRequestsThisHour (file (at_head l)) = totalRequestsThisHour (file l) + 1.
Proof.
  intros Hq Ht Hd1 Hd2. unfold at_head. rewrite Hq.
  rewrite (currentBurst_single (file l) l item Hq Ht).
  change (1 =? 0) with false. change (Z.to_nat 1) with 1%nat.
  cbn [burst_from]. rewrite Hq.
  destruct (head (disk l)) as [[| |]|]; try done; proj_simpl; done.
Qed.

(** X29.  A limiter that is idle, has budget left and can write its
    state admits a request in the instant it is made, as a first attempt,
    and counts it in the requests of the hour. *)
Theorem idle_limiter_grants_at_once key l :
  processing l = false -> queue l = [] ->
  0 < tokens (file l) ->
  head (disk l) <> Some SaveFails -> head (disk l) <> Some SaveFailsTwice ->
  exists l',
    run [EAcquire key; EWake] l = Some l' /\
    trace l' = Resolved (next_uid l) (now l) 0 :: trace l /\
    queue l' = [] /\
    now l' = now l /\
    totalRequestsThisHour (file l') = totalRequestsThisHour (file l) + 1.
Proof.
  intros Hp Hq Ht Hd1 Hd2.
  set (item := {| uid := next_uid l; repoName := key; queuedAt := now l; retryCount := 0 |}).
  set (l1 := acquire key l).
  assert (queue l1 = [item] /\ processing l1 = true /\ wake l1 = now l /\ now l1 = now l /\
          loop l1 = AtHead /\ file l1 = file l /\ disk l1 = disk l /\ trace l1 = trace l)
    as (Hq1 & Hp1 & Hw1 & Hn1 & Hl1 & Hf1 & Hd & Ht1).
  { subst l1. unfold acquire, processQueue. cbn [processing queue]. rewrite Hp, Hq. done. }
  exists (at_head l1). split.
  - cbn [run step]. fold l1. rewrite Hp1, Hw1, Hn1, Z.leb_refl. cbn [andb].
    unfold wake_loop. by rewrite Hl1.
  - destruct (at_head_single l1 item Hq1) as (H1 & H2 & H3 & H4);
      [by rewrite Hf1 | by rewrite Hd | by rewrite Hd |].
    rewrite H1, H2, H3, H4, Hn1, Hf1, Ht1. done.
Qed.

(** **** With no budget nothing is granted *)

Lemma currentBurst_starved st l : tokens st <= 0 -> currentBurst st l <= 0.
Proof.
  intros Ht. unfold currentBurst, BURST_SIZE.
  pose proof (Z.div_mod (- (tokens st * 10)) 100 ltac:(lia)) as E.
  pose proof (Z.mod_pos_bound (- (tokens st * 10)) 100 ltac:(lia)) as Hr. lia.
Qed.

Lemma at_head_starved l :
  tokens (file l) <= 0 ->
  trace (at_head l) = trace l /\ file (at_head l) = file l /\
  match loop (at_head l) with InBurst _ _ _ => False | _ => True end.
Proof.
  intros Ht. unfold at_head. destruct (queue l) as [|item rest] eqn:Hq; [done |].
  pose proof (currentBurst_starved (file l) l Ht) as Hb.
  destruct (currentBurst (file l) l =? 0) eqn:E; [done |].
  apply Z.eqb_neq in E. replace (Z.to_nat (currentBurst (file l) l)) with 0%nat by lia.
  cbn [burst_from]. unfold after_burst. by rewrite Hq.
Qed.

Lemma processQueue_starved l :
  Starved l ->
  Starved (processQueue l) /\ trace (processQueue l) = trace l.
Proof.
  intros [Ht Hl]. unfold processQueue. destruct (processing l); [done |].
  destruct (queue l); [done |]. done.
Qed.

Lemma step_starved l e l' :
  Starved l -> no_refill e -> step l e = Some l' ->
  Starved l' /\ grant_times (trace l') = grant_times (trace l).
Proof.
  intros [Ht Hl] He. destruct e as [key | remaining reset | | d | | u]; simpl.
  - intros [= <-]. unfold acquire.
    match goal with |- context [processQueue ?l0] =>
      destruct (processQueue_starved l0) as [H1 H2]; [done |] end.
    by rewrite H2.
  - intros [= <-]. unfold updateLimits. cbv zeta. cbn in He.
    replace (0 <? remaining) with false by (symmetry; lia). cbn [andb].
    unfold Starved. cbn. done.
  - intros [= <-]. unfold Starved, hourly_reset. cbn. done.
  - destruct (may_pass d l); [|done]. intros [= <-]. unfold Starved. cbn. done.
  - destruct (processing l && (wake l <=? now l)); [|done]. intros [= <-].
    unfold wake_loop. destruct (loop l) eqn:El; [by unfold Starved; rewrite El | | done].
    destruct (at_head_starved l Ht) as (H1 & H2 & H3). unfold Starved. by rewrite H1, H2.
  - case_bool_decide; [|done]. intros [= <-]. unfold fire, handleTimeout. proj_simpl.
    case_bool_decide; unfold Starved; cbn; done.
Qed.


Lemma request_settled_once_witness :
  let l := overtaken_end in
  map uid (queue l) ++ map event_uid (trace l) ≡ₚ seq 0 (next_uid l) /\
  NoDup (map event_uid (trace l)) /\
  (forall u, u ∈ map uid (queue l) -> u ∉ map event_uid (trace l)) /\
  (forall u, (u < next_uid l)%nat <->
             u ∈ map uid (queue l) \/ u ∈ map event_uid (trace l)).
Proof.
  apply (request_settled_once run_overtaken 0 (getDefaultState 0) [SaveFails] overtaken_end).
  vm_compute. reflexivity.
Defined.

Lemma admissions_a_second_apart_witness : 1000 + 1000 <= 2100 \/ 2100 + 1000 <= 1000.
Proof.
  refine (admissions_a_second_apart run_in_order 0 (getDefaultState 0) []
            in_order_end 0%nat 1000 0%nat 1%nat 2100 0%nat _ _ _ _).
  - vm_compute. reflexivity.
  - vm_compute. right. by left.
  - vm_compute. by left.
  - lia.
Defined.

Lemma at_most_four_attempts_witness :
  (forall x, x ∈ queue starved_end -> (retryCount x <= 3)%nat) /\
  (forall u t r, Resolved u t r ∈ trace starved_end -> (r <= 3)%nat).
Proof.
  apply (at_most_four_attempts run_starved 0 (getDefaultState 0) [SaveFails] starved_end).
  vm_compute. reflexivity.
Defined.

Lemma first_attempt_times_out_witness :
  (0%nat, 30000) ∈ timers waiting_end /\
  now waiting_end <= 30000 /\
  (forall evs l',
      run evs (fire 0 waiting_end) = Some l' ->
      Rejected 0 (now waiting_end) RequestTimedOut ∈ trace l' /\
      forall t r, Resolved 0 t r ∉ trace l').
Proof.
  apply (first_attempt_times_out run_waiting 0 (getDefaultState 0) [] waiting_end item_waiting).
  - vm_compute. reflexivity.
  - vm_compute. by left.
  - reflexivity.
Defined.


Lemma idle_limiter_grants_at_once_witness :
  let l := initial 0 (getDefaultState 0) [] in
  exists l',
    run [EAcquire "a/a"; EWake] l = Some l' /\
    trace l' = Resolved (next_uid l) (now l) 0 :: trace l /\
    queue l' = [] /\
    now l' = now l /\
    totalRequestsThisHour (file l') = totalRequestsThisHour (file l) + 1.
Proof.
  apply (idle_limiter_grants_at_once "a/a" (initial 0 (getDefaultState 0) []));
    [reflexivity | reflexivity | by vm_compute | discriminate | discriminate].
Defined.


End LimiterExtra.
